(** * Reconstruction of binary forms from their invariants

    A shallow embedding of [sage/rings/invariants/reconstruction.py]:
    [binary_form_from_invariants], [binary_quadratic_from_invariants],
    [binary_cubic_from_invariants], [binary_quintic_from_invariants] and
    [reduce_invariants], followed by the properties established for them.

    The functions are written over an interface [ExactField] for the
    coefficient domain (the Sage parent [K]), and run on the instance of the
    rational numbers, [Qc].

    The invariants are elements of [K]: this is the call that leaves [K] to
    its default, the field of fractions of the parent of the invariants, in
    which that parent embeds, and the call that gives the field the
    invariants already lie in.  A call that gives another [K] (integers
    with a finite field) compares [A], [B] and [M] with zero as they were
    supplied and computes the quotients in [K]; that call, and the
    positional arguments and the [K] that the dispatcher forwards, are
    outside the embedding. *)

From Stdlib Require Import ZArith QArith Qcanon List String Ascii Bool Lia.
From Stdlib Require Import Zdivisibility DecimalString.
Import ListNotations.

Open Scope string_scope.
Open Scope list_scope.
Open Scope Z_scope.

(** ** Exceptions and the error monad *)

(** The exceptions that can leave the module: the two classes it raises
    itself, with their message, and those of the interpreter and of the
    library underneath. *)
Inductive exn : Type :=
| ValueError (msg : string)
| NotImplementedError (msg : string)
| TypeError (msg : string)
| ZeroDivisionError
| ArithmeticError
| IndexError
| KeyError.

Definition result (A : Type) : Type := (exn + A)%type.

Definition ret {A : Type} (a : A) : result A := inr a.
Definition raise {A : Type} (e : exn) : result A := inl e.

Definition bind {A B : Type} (c : result A) (k : A -> result B) : result B :=
  match c with
  | inl e => inl e
  | inr a => k a
  end.

Notation "x <- c ;; k" := (bind c (fun x => k))
  (at level 61, c at next level, right associativity).
Notation "' pat <- c ;; k" := (bind c (fun x => match x with pat => k end))
  (at level 61, pat pattern, c at next level, right associativity).

Fixpoint mapM {A B : Type} (f : A -> result B) (l : list A) : result (list B) :=
  match l with
  | [] => ret []
  | x :: xs => y <- f x ;; ys <- mapM f xs ;; ret (y :: ys)
  end.

(** [l[i]] for a Python list. *)
Definition getitem {A : Type} (l : list A) (i : nat) : result A :=
  match nth_error l i with
  | Some a => ret a
  | None => raise IndexError
  end.

(** [x in l] for a list of strings, and for a list of integers. *)
Definition str_in (s : string) (l : list string) : bool :=
  existsb (String.eqb s) l.

Definition int_in (n : Z) (l : list Z) : bool :=
  existsb (Z.eqb n) l.

(** [str(n)] for an integer. *)
Definition str_of_Z (n : Z) : string := NilZero.string_of_int (Z.to_int n).

(** [a // b] on integers: floor division. *)
Definition py_floordiv (a b : Z) : result Z :=
  if b =? 0 then raise ZeroDivisionError else ret (a / b).

(** [min(l)]. *)
Definition py_min (l : list Z) : result Z :=
  match l with
  | [] => raise (ValueError "min() arg is an empty sequence")
  | x :: xs => ret (fold_left Z.min xs x)
  end.

(** [binomial(n, k)] and [(-1)**i]. *)
Fixpoint binomial (n k : nat) : Z :=
  match n, k with
  | _, O => 1
  | O, S _ => 0
  | S n', S k' => binomial n' k' + binomial n' (S k')
  end.

Definition minus_one_pow (i : nat) : Z := (-1) ^ Z.of_nat i.

Fixpoint foldM {A B : Type} (f : A -> B -> result A) (a : A) (l : list B)
    : result A :=
  match l with
  | [] => ret a
  | x :: xs => a' <- f a x ;; foldM f a' xs
  end.

(** [never e r]: the computation [r] does not raise [e]. *)
Definition never {A : Type} (e : exn) (r : result A) : Prop := r <> raise e.

(** ** The coefficient domain *)

(** What the module asks of the parent [K] of the invariants: exact field
    arithmetic, coercion of integers [K(n)], equality, the characteristic,
    the square test and the square root, and, for [reduce_invariants],
    factorisation and greatest common divisors.  [inv] is the inverse of a
    nonzero element; [sqrt] is the root that lies in [K] when [is_square]
    holds.  [factor x] lists the primes of [x] with their multiplicity. *)
Class ExactField (K : Type) : Type := {
  of_Z : Z -> K;
  add : K -> K -> K;
  mul : K -> K -> K;
  opp : K -> K;
  inv : K -> K;
  eqb : K -> K -> bool;
  characteristic : Z;
  is_square : K -> bool;
  sqrt : K -> K;
  factor : K -> result (list (K * Z));
  gcd : K -> K -> K
}.

Declare Scope K_scope.
Delimit Scope K_scope with K.
Infix "+" := add : K_scope.
Infix "*" := mul : K_scope.
Notation "- x" := (opp x) : K_scope.
Notation "x - y" := (add x (opp y)) : K_scope.
Infix "==" := eqb (at level 70, no associativity) : K_scope.

Section Domain.

Context {K : Type} {F : ExactField K}.

Definition zero : K := of_Z 0.
Definition one : K := of_Z 1.

(** [x**n] for a natural exponent. *)
Fixpoint npow (x : K) (n : nat) : K :=
  match n with
  | O => one
  | S m => (x * npow x m)%K
  end.

(** [x**e] for an integer exponent.  A negative power of zero raises
    [ZeroDivisionError]. *)
Definition ppow (x : K) (e : Z) : result K :=
  if 0 <=? e then ret (npow x (Z.to_nat e))
  else if (x == zero)%K then raise ZeroDivisionError
  else ret (npow (inv x) (Z.to_nat (- e))).

(** [x/y]. *)
Definition pdiv (x y : K) : result K :=
  if (y == zero)%K then raise ZeroDivisionError
  else ret (x * inv y)%K.

(** [gcd(l)] of a sequence: folded from zero, as [vi.gcd(g)]. *)
Definition gcd_list (l : list K) : K :=
  fold_left (fun g v => gcd v g) l zero.

(** *** Values of the symbolic ring

    [sqrt(A)] lies in [K] only when [A] is a square.  Otherwise Sage answers
    in the symbolic ring; the powers of [sqrt(A)] and their multiples by
    elements of [K] are the values [u + v*sqrt(A)], kept here as the pair of
    [u] and [v].  The coercion [K(...)] of such a value succeeds when it is
    an element of [K]. *)
Record surd : Type := mk_surd { rat_part : K; rad_part : K }.

Definition surd_of (x : K) : surd := mk_surd x zero.

Definition surd_scale (c : K) (s : surd) : surd :=
  mk_surd (c * rat_part s)%K (c * rad_part s)%K.

Definition surd_scale_r (s : surd) (c : K) : surd :=
  mk_surd (rat_part s * c)%K (rad_part s * c)%K.

Definition K_of_surd (s : surd) : result K :=
  if (rad_part s == zero)%K then ret (rat_part s)
  else raise (TypeError "unable to convert to the field").

(** [sqrt(A)**e]: in [K] when [A] is a square; otherwise
    [sqrt(A)**(2k) = A**k] and [sqrt(A)**(2k+1) = A**k * sqrt(A)]. *)
Definition sqrt_pow (A : K) (e : Z) : result surd :=
  if is_square A then
    p <- ppow (sqrt A) e ;; ret (surd_of p)
  else
    p <- ppow A (e / 2) ;;
    ret (if e mod 2 =? 0 then mk_surd p zero else mk_surd zero p).

End Domain.

(** ** Values passed by the dispatcher *)

(** [binary_form_from_invariants] hands the whole list of invariants to the
    quadratic and cubic routines, which compare their argument with [0]; a
    direct caller hands them the discriminant.  A list is never equal to
    [0]. *)
Inductive pyval (K : Type) : Type :=
| Scalar (x : K)
| PyList (l : list K).

Arguments Scalar {K} x.
Arguments PyList {K} l.

Section Reconstruction.

Context {K : Type} {F : ExactField K}.

Definition py_eq_zero (v : pyval K) : bool :=
  match v with
  | Scalar x => (x == zero)%K
  | PyList _ => false
  end.

(** A tuple of integer literals, as a tuple over [K]. *)
Definition literal (l : list Z) : list K := map of_Z l.

(** ** [binary_quadratic_from_invariants] *)

Definition binary_quadratic_from_invariants
    (discriminant : pyval K) (invariant_choice : string) : result (list K) :=
  if negb (str_in invariant_choice ["default"; "discriminant"]) then
    raise (ValueError ("Unknown choice of invariants " ++ invariant_choice
                       ++ " for a binary quadratic.")%string)
  else if py_eq_zero discriminant then ret (literal [1; 0; 0])
  else ret (literal [0; 1; 0]).

(** ** [binary_cubic_from_invariants] *)

Definition binary_cubic_from_invariants
    (discriminant : pyval K) (invariant_choice : string) : result (list K) :=
  if negb (str_in invariant_choice ["default"; "discriminant"]) then
    raise (ValueError ("Unknown choice of invariants " ++ invariant_choice
                       ++ " for a binary cubic")%string)
  else if py_eq_zero discriminant then
    raise (ValueError
      "No unique reconstruction possible for binary cubics with a double root.")
  else ret (literal [0; 1; -1; 0]).

(** ** [reduce_invariants] *)

(** The dictionaries [dict(I.factor())]: prime to multiplicity. *)
Definition dict : Type := list (K * Z).

Definition has_key (D : dict) (p : K) : bool :=
  existsb (fun kv => (fst kv == p)%K) D.

Definition dict_get (D : dict) (p : K) : result Z :=
  match find (fun kv => (fst kv == p)%K) D with
  | Some kv => ret (snd kv)
  | None => raise KeyError
  end.

(** [if not D.has_key(p): D[p] = 0]. *)
Definition setdefault0 (p : K) (D : dict) : dict :=
  if has_key D p then D else D ++ [(p, 0)].

(** One turn of the loop over the primes of the gcd.  The source starts
    [scalar] at [ZZ(1)] and multiplies it by powers of the primes, which are
    rationals; here it lives in [K], which is the same where the rationals
    are [K], the domain in which the routine is analysed. *)
Definition reduce_step (weights : list Z) (n : nat)
    (st : list dict * K) (prime : K * Z) : result (list dict * K) :=
  let '(factors, scalar) := st in
  let p := fst prime in
  let factors := map (setdefault0 p) factors in
  es <- mapM (fun i => D <- getitem factors i ;;
                       e <- dict_get D p ;;
                       w <- getitem weights i ;;
                       py_floordiv e w) (seq 0 n) ;;
  m <- py_min es ;;
  pm <- ppow p m ;;
  ret (factors, (scalar * pm)%K).

Definition reduce_invariants (invariants : list K) (weights : list Z)
    : result (list K) :=
  factors <- mapM factor invariants ;;
  let scalar := one in
  let n := List.length weights in
  primes <- factor (gcd_list invariants) ;;
  '(_, scalar) <- foldM (reduce_step weights n) (factors, scalar) primes ;;
  mapM (fun i => I <- getitem invariants i ;;
                 w <- getitem weights i ;;
                 s <- ppow scalar (- w) ;;
                 ret (I * s)%K) (seq 0 n).

(** ** [binary_quintic_from_invariants] *)

(** The invariants as the case analysis sees them. *)
Record clebsch : Type :=
  mk_clebsch { cA : K; cB : K; cC : K; cM : K; cN : K; cR : K }.

(** [A, B, C = invariants[0:3]]. *)
Definition unpack3 (l : list K) : result (K * K * K) :=
  match firstn 3 l with
  | [A; B; C] => ret (A, B, C)
  | l' => raise (ValueError
            ("need more than " ++ str_of_Z (Z.of_nat (List.length l'))
             ++ (if (List.length l' =? 1)%nat then " value" else " values")
             ++ " to unpack")%string)
  end.

Local Notation "x ^ n" := (npow x n) : K_scope.

(** The messages of the errors raised by the routine. *)
Definition syzygy_message : string :=
  "Provided invariants do not satisfy the syzygy "
  ++ "for Clebsch invariants of a binary quintic.".

Definition count_message : string :=
  "Incorrect number of invariants provided. This "
  ++ "method requires 3 or 4 invariants.".

Definition characteristic_message : string :=
  "No reconstruction of binary quintics "
  ++ "implemented for fields of characteristic 2, 3 or 5.".

Definition threefold_message : string :=
  "No unique reconstruction possible for "
  ++ "quintics with a treefold linear factor.".

(** The choice of [R]: the root of [R2], the rescaling by powers of [R2], or
    the fourth invariant after the syzygy test. *)
Definition syzygy_root (invariants : list K) (A B C M N R2 : K)
    : result clebsch :=
  if (List.length invariants =? 3)%nat then
    if is_square R2 then ret (mk_clebsch A B C M N (sqrt R2))
    else ret (mk_clebsch (R2 * A)%K (R2 ^ 2 * B)%K (R2 ^ 3 * C)%K
                         (R2 ^ 3 * M)%K (R2 ^ 4 * N)%K (R2 ^ 5)%K)
  else if (List.length invariants =? 4)%nat then
    R <- getitem invariants 3 ;;
    if negb (R ^ 2 == R2)%K then
      raise (ValueError syzygy_message)
    else ret (mk_clebsch A B C M N R)
  else
    raise (ValueError count_message).

(** The reduction of the invariants under [scaling == 'coprime']. *)
Definition coprime_reduction (scaling : string) (invariants : list K)
    : result (list K) :=
  if (scaling =? "coprime")%string then
    if (List.length invariants =? 3)%nat then
      reduce_invariants invariants [1; 2; 3]
    else if (List.length invariants =? 4)%nat then
      reduce_invariants invariants [2; 4; 6; 9]
    else ret invariants
  else ret invariants.

(** The derived quantities [M], [N] and [R2]; [i2] is [K(2)**-1]. *)
Definition clebsch_M (A B C : K) : K := (of_Z 2 * A * B - of_Z 3 * C)%K.

Definition clebsch_N (i2 A B C : K) : K := (i2 * (A * C - B ^ 2))%K.

Definition clebsch_R2 (i2 A B C : K) : K :=
  let M := clebsch_M A B C in
  let N := clebsch_N i2 A B C in
  (- i2 * (A * N ^ 2 - of_Z 2 * B * M * N + C * M ^ 2))%K.

(** The validation and the derived quantities, up to the case analysis. *)
Definition quintic_prepare (invariants : list K)
    (invariant_choice scaling : string) : result clebsch :=
  if negb (str_in invariant_choice ["default"; "clebsch"]) then
    raise (ValueError ("Unknown choice of invariants " ++ invariant_choice
                       ++ " for a binary quintic")%string)
  else if negb (str_in scaling ["none"; "normalized"; "coprime"]) then
    raise (ValueError ("Unknown scaling option '" ++ scaling ++ "'.")%string)
  else
    invariants <- coprime_reduction scaling invariants ;;
    '(A, B, C) <- unpack3 invariants ;;
    if int_in characteristic [2; 3; 5] then
      raise (NotImplementedError characteristic_message)
    else
      let M := clebsch_M A B C in
      i2 <- ppow (of_Z 2) (-1) ;;
      let N := clebsch_N i2 A B C in
      let R2 := clebsch_R2 i2 A B C in
      syzygy_root invariants A B C M N R2.

(** The scale lists of the [normalized] option. *)
Definition scale_one : list surd := map surd_of (literal [1; 1; 1; 1; 1; 1]).

(** [[ A**-14*(R/A**3)**i for i in range(6) ]]. *)
Definition scale_alpha_gamma (A R : K) : result (list surd) :=
  mapM (fun i => u <- ppow A (-14) ;; q <- pdiv R (A ^ 3)%K ;;
                 ret (surd_of (u * q ^ i)%K)) (seq 0 6).

(** [[ sqrt(A)**(i-18) for i in range(6) ]]. *)
Definition scale_sqrt (A : K) : result (list surd) :=
  mapM (fun i => sqrt_pow A (Z.of_nat i - 18)) (seq 0 6).

(** [[ R**-2*(R/B**2)**i for i in range(6) ]]. *)
Definition scale_RB (R B : K) : result (list surd) :=
  mapM (fun i => u <- ppow R (-2) ;; q <- pdiv R (B ^ 2)%K ;;
                 ret (surd_of (u * q ^ i)%K)) (seq 0 6).

(** [[ A**-9*(R/A**4)**i for i in range(6) ]]. *)
Definition scale_alpha_beta (A R : K) : result (list surd) :=
  mapM (fun i => u <- ppow A (-9) ;; q <- pdiv R (A ^ 4)%K ;;
                 ret (surd_of (u * q ^ i)%K)) (seq 0 6).

(** The common tail: [a[0]], [a[2..5]], the coefficients and the division
    by their gcd. *)
Definition quintic_tail (scaling : string) (A B R : K) (scale : list surd)
    (i3 D Delta a1 B0 B1 C0 C1 : K) : result (list K) :=
  let a0 := ((of_Z 2 * i3 * A ^ 2 - B) * R)%K in
  i2 <- ppow (of_Z 2) (-1) ;;
  let a2 := (- D * B0 - i2 * Delta * a0)%K in
  let a3 := (- D * B1 - i2 * Delta * a1)%K in
  i4 <- ppow (of_Z 4) (-1) ;;
  let a4 := (D ^ 2 * C0 + D * Delta * B0 + i4 * Delta ^ 2 * a0)%K in
  let a5 := (D ^ 2 * C1 + D * Delta * B1 + i4 * Delta ^ 2 * a1)%K in
  let a := [a0; a1; a2; a3; a4; a5] in
  coeffs <- mapM (fun i =>
              s <- getitem scale (5 - i) ;;
              ai <- getitem a i ;;
              K_of_surd
                (surd_scale_r
                   (surd_scale (of_Z (minus_one_pow i * binomial 5 i)) s) ai))
            (seq 0 6) ;;
  if (scaling =? "coprime")%string then
    mapM (fun i => c <- getitem coeffs i ;; pdiv c (gcd_list coeffs)) (seq 0 6)
  else ret coeffs.

(** The coordinates [alpha], [gamma]. *)
Definition quintic_alpha_gamma (scaling : string) (A B C N R : K)
    (scale : list surd) : result (list K) :=
  let D := (- N)%K in
  let Delta := C in
  i3 <- ppow (of_Z 3) (-1) ;;
  i2 <- ppow (of_Z 2) (-1) ;;
  let a1 := ((of_Z 2 * i3 * A ^ 2 - B) * N * B * i2 - N ^ 2 * i2)%K in
  let B0 := (of_Z 2 * i3 * A * R)%K in
  let B1 := (A * N * B * i3)%K in
  let C0 := (of_Z 2 * i3 * R)%K in
  let C1 := (B * N)%K in
  quintic_tail scaling A B R scale i3 D Delta a1 B0 B1 C0 C1.

(** The coordinates [alpha], [beta]. *)
Definition quintic_alpha_beta (scaling : string) (A B M N R : K)
    (scale : list surd) : result (list K) :=
  let D := (- M)%K in
  let Delta := A in
  i3 <- ppow (of_Z 3) (-1) ;;
  i2 <- ppow (of_Z 2) (-1) ;;
  let a1 := ((of_Z 2 * i3 * A ^ 2 - B) * (N * A - M * B) * i2
             - M * (N * i2 - M * A * i3))%K in
  let B0 := R in
  let B1 := (i2 * (N * A - M * B))%K in
  let C0 := zero in
  let C1 := (- M)%K in
  quintic_tail scaling A B R scale i3 D Delta a1 B0 B1 C0 C1.

(** The case analysis on [M], [N], [R], [A] and [B]. *)
Definition quintic_cases (scaling : string) (st : clebsch) : result (list K) :=
  let '(mk_clebsch A B C M N R) := st in
  if (M == zero)%K then
    if (N == zero)%K then
      if (A == zero)%K then
        raise (ValueError threefold_message)
      else if (B == zero)%K then ret (literal [1; 0; 0; 0; 0; 1])
      else ret (literal [0; 1; 0; 0; 1; 0])
    else
      if (A == zero)%K then ret (literal [1; 0; 0; 0; 1; 0])
      else
        scale <- (if (scaling =? "normalized")%string
                  then scale_alpha_gamma A R else ret scale_one) ;;
        quintic_alpha_gamma scaling A B C N R scale
  else
    if (R == zero)%K then
      if (A == zero)%K then ret (literal [1; 0; 10; 0; -15; 0])
      else
        scale <- (if (scaling =? "normalized")%string
                  then scale_sqrt A else ret scale_one) ;;
        quintic_alpha_beta scaling A B M N R scale
    else
      if (A == zero)%K then
        if (B == zero)%K then ret (literal [1; 0; 0; 1; 0; 0])
        else
          scale <- (if (scaling =? "normalized")%string
                    then scale_RB R B else ret scale_one) ;;
          quintic_alpha_beta scaling A B M N R scale
      else
        scale <- (if (scaling =? "normalized")%string
                  then scale_alpha_beta A R else ret scale_one) ;;
        quintic_alpha_beta scaling A B M N R scale.

Definition binary_quintic_from_invariants (invariants : list K)
    (invariant_choice scaling : string) : result (list K) :=
  st <- quintic_prepare invariants invariant_choice scaling ;;
  quintic_cases scaling st.

End Reconstruction.

(** ** [binary_form_from_invariants] *)

(** The keyword arguments forwarded to the routine of the degree: [None]
    when the caller leaves one out. *)
Record options : Type := mk_options {
  opt_invariant_choice : option string;
  opt_scaling : option string
}.

(** What the dispatcher returns: the tuple of coefficients, or the form as
    the sum of its terms [c*x^j*z^i] with [c] nonzero.  The form is built
    over the field of fractions of the parent of the invariants, to which
    the coefficients belong when [K] is left to its default. *)
Inductive form (K : Type) : Type :=
| Coeffs (coeffs : list K)
| Polynomial (terms : list (K * nat * nat)).

Arguments Coeffs {K} coeffs.
Arguments Polynomial {K} terms.

Section Dispatcher.

Context {K : Type} {F : ExactField K}.

Definition default_to (d : string) (o : option string) : string :=
  match o with
  | Some s => s
  | None => d
  end.

(** The quadratic and cubic routines have no [scaling] parameter. *)
Definition no_scaling {A : Type} (name : string) (opts : options)
    (k : result A) : result A :=
  match opt_scaling opts with
  | Some _ => raise (TypeError
      (name ++ "() got an unexpected keyword argument 'scaling'")%string)
  | None => k
  end.

Definition binary_form_from_invariants (degree : Z) (invariants : list K)
    (as_form : bool) (opts : options) : result (form K) :=
  coeffs <-
    (if degree =? 2 then
       if (List.length invariants =? 1)%nat then
         no_scaling "binary_quadratic_from_invariants" opts
           (binary_quadratic_from_invariants (PyList invariants)
              (default_to "default" (opt_invariant_choice opts)))
       else raise (ValueError ("Incorrect number of invariants provided. Only "
                               ++ "one invariant should be provided."))
     else if degree =? 3 then
       if (List.length invariants =? 1)%nat then
         no_scaling "binary_cubic_from_invariants" opts
           (binary_cubic_from_invariants (PyList invariants)
              (default_to "default" (opt_invariant_choice opts)))
       else raise (ValueError ("Incorrect number of invariants provided. Only "
                               ++ "one invariant should be provided."))
     else if degree =? 5 then
       binary_quintic_from_invariants invariants
         (default_to "clebsch" (opt_invariant_choice opts))
         (default_to "none" (opt_scaling opts))
     else raise (NotImplementedError
                   ("No reconstruction for binary forms of "
                    ++ str_of_Z degree ++ " implemented.")%string)) ;;
  if as_form then
    terms <- mapM (fun i => c <- getitem coeffs i ;;
                            ret (c, (Z.to_nat degree - i)%nat, i))
                  (seq 0 (Z.to_nat (degree + 1))) ;;
    ret (Polynomial
           (filter (fun t => negb (fst (fst t) == zero)%K) terms))
  else ret (Coeffs coeffs).

End Dispatcher.

(** ** The rational numbers *)

Module Rational.

(** The integers [lo, lo+1, ..., hi]. *)
Fixpoint Zrange_from (lo : Z) (n : nat) : list Z :=
  match n with
  | O => []
  | S m => lo :: Zrange_from (lo + 1) m
  end.

Definition Zrange (lo hi : Z) : list Z :=
  Zrange_from lo (Z.to_nat (hi - lo + 1)).

(** Primality by trial division. *)
Definition is_prime (p : Z) : bool :=
  (2 <=? p) && forallb (fun d => negb (p mod d =? 0)) (Zrange 2 (p - 1)).

(** The multiplicity of [p] in a positive integer [n]. *)
Fixpoint Zval_fuel (fuel : nat) (p n : Z) : Z :=
  match fuel with
  | O => 0
  | S f => if n mod p =? 0 then 1 + Zval_fuel f p (n / p) else 0
  end.

Definition Zval (p n : Z) : Z :=
  Zval_fuel (S (Z.to_nat (Z.log2 (Z.abs n)))) p (Z.abs n).

(** The multiplicity of [p] in a rational number. *)
Definition Qval (p : Z) (q : Q) : Z :=
  Zval p (Qnum q) - Zval p (Zpos (Qden q)).

Definition Qc_of_Z (n : Z) : Qc := Q2Qc (inject_Z n).

(** The primes of numerator and denominator, in increasing order. *)
Definition prime_support (x : Q) : list Z :=
  filter (fun p => negb (Qval p x =? 0) && is_prime p)
    (Zrange 2 (Z.max (Z.abs (Qnum x)) (Zpos (Qden x)))).

(** [x.factor()]: the primes with their multiplicity; zero has no
    factorisation. *)
Definition Qc_factor (x : Qc) : result (list (Qc * Z)) :=
  if Qc_eq_bool x (Qc_of_Z 0) then raise ArithmeticError
  else ret (map (fun p => (Qc_of_Z p, Qval p x)) (prime_support x)).

(** [x.gcd(y)] for [x = a/b] and [y = c/d]: [gcd(a*d, c*b)/(b*d)], which is
    [gcd(a, c)/lcm(b, d)]. *)
Definition Qgcd (x y : Q) : Q :=
  Z.gcd (Qnum x * Zpos (Qden y)) (Qnum y * Zpos (Qden x))
  # (Qden x * Qden y).

Definition Qc_gcd (x y : Qc) : Qc := Q2Qc (Qgcd x y).

Definition Qc_is_square (x : Qc) : bool :=
  (0 <=? Qnum x) && (Z.sqrt (Qnum x) * Z.sqrt (Qnum x) =? Qnum x)
  && (Pos.sqrt (Qden x) * Pos.sqrt (Qden x) =? Qden x)%positive.

Definition Qc_sqrt (x : Qc) : Qc :=
  Q2Qc (Z.sqrt (Qnum x) # Pos.sqrt (Qden x)).

#[export] Instance Qc_field : ExactField Qc := {
  of_Z := Qc_of_Z;
  add := Qcplus;
  mul := Qcmult;
  opp := Qcopp;
  inv := Qcinv;
  eqb := Qc_eq_bool;
  characteristic := 0;
  is_square := Qc_is_square;
  sqrt := Qc_sqrt;
  factor := Qc_factor;
  gcd := Qc_gcd
}.

(** The rational [n/d]. *)
Definition frac (n : Z) (d : positive) : Qc := Q2Qc (n # d).

(** Results seen through the fractions of their canonical rationals. *)
Definition fractions (r : result (list Qc)) : result (list Q) :=
  match r with
  | inl e => inl e
  | inr l => inr (map this l)
  end.

Definition clebsch_list (st : clebsch (K := Qc)) : list Qc :=
  [cA st; cB st; cC st; cM st; cN st; cR st].

Definition clebsch_fractions (r : result (clebsch (K := Qc)))
    : result (list Q) :=
  fractions (st <- r ;; ret (clebsch_list st)).

(** *** Notions for the analysis of [reduce_invariants] *)

(** The entry of the prime [q] in a dictionary. *)
Definition lookup (D : dict (K := Qc)) (q : Z) : option (Qc * Z) :=
  find (fun kv => (fst kv == Qc_of_Z q)%K) D.

(** [D] holds multiplicities of [x]: a prime that is a key has its
    multiplicity in [x] as value, and a prime that is not has multiplicity
    zero. *)
Definition represents (D : dict (K := Qc)) (x : Qc) : Prop :=
  forall q, Z.prime q ->
    match lookup D q with
    | Some kv => snd kv = Qval q x
    | None => Qval q x = 0
    end.

(** [x**e] for a nonzero [x]. *)
Definition zpow (x : Qc) (e : Z) : Qc :=
  if 0 <=? e then npow x (Z.to_nat e) else npow (inv x) (Z.to_nat (- e)).

(** The quotients [multiplicity // weight] of the prime [q], and the least
    of them. *)
Definition quotients (q : Z) (invariants : list Qc) (weights : list Z)
    : list Z :=
  map (fun Iw => Qval q (this (fst Iw)) / snd Iw) (combine invariants weights).

Definition exponent (q : Z) (invariants : list Qc) (weights : list Z) : Z :=
  match quotients q invariants weights with
  | [] => 0
  | e :: es => fold_left Z.min es e
  end.

(** The scalar accumulated over the primes [P], and the reduced list. *)
Definition scalar_of (P : list Z) (invariants : list Qc) (weights : list Z)
    (s0 : Qc) : Qc :=
  fold_left (fun s q => (s * zpow (Qc_of_Z q) (exponent q invariants weights))%Qc)
    P s0.

Definition reduced (invariants : list Qc) (weights : list Z) (s : Qc)
    : list Qc :=
  map (fun Iw => (fst Iw * zpow s (- snd Iw))%Qc) (combine invariants weights).

End Rational.

(** ** The field with five elements *)

Module GF5.

(** The residues modulo 5, by their representative in [0, 5). *)
Record gf5 : Type := mk_gf5 { residue : Z }.

Definition gf5_of_Z (n : Z) : gf5 := mk_gf5 (n mod 5).

Definition gf5_eqb (x y : gf5) : bool := residue x =? residue y.

Definition gf5_mul (x y : gf5) : gf5 := gf5_of_Z (residue x * residue y).

Definition gf5_is_square (x : gf5) : bool :=
  existsb (fun r => gf5_eqb (gf5_mul (mk_gf5 r) (mk_gf5 r)) x) [0; 1; 2; 3; 4].

Definition gf5_sqrt (x : gf5) : gf5 :=
  match find (fun r => gf5_eqb (gf5_mul (mk_gf5 r) (mk_gf5 r)) x)
             [0; 1; 2; 3; 4] with
  | Some r => mk_gf5 r
  | None => x
  end.

(** In a field every nonzero element is a unit: no primes, and the gcd of
    elements that are not all zero is one. *)
Definition gf5_factor (x : gf5) : result (list (gf5 * Z)) :=
  if gf5_eqb x (gf5_of_Z 0) then raise ArithmeticError else ret [].

Definition gf5_gcd (x y : gf5) : gf5 :=
  if gf5_eqb x (gf5_of_Z 0) && gf5_eqb y (gf5_of_Z 0) then gf5_of_Z 0
  else gf5_of_Z 1.

#[export] Instance gf5_field : ExactField gf5 := {
  of_Z := gf5_of_Z;
  add := fun x y => gf5_of_Z (residue x + residue y);
  mul := gf5_mul;
  opp := fun x => gf5_of_Z (- residue x);
  inv := fun x => gf5_of_Z (residue x ^ 3);
  eqb := gf5_eqb;
  characteristic := 5;
  is_square := gf5_is_square;
  sqrt := gf5_sqrt;
  factor := gf5_factor;
  gcd := gf5_gcd
}.

End GF5.

(** ** Laws of the coefficient domain *)

(** The field laws the proofs rely on.  The characteristic is zero or the
    prime that generates the integers vanishing in [K]. *)
Class ExactFieldLaws (K : Type) {F : ExactField K} : Prop := {
  eqb_eq : forall x y : K, (x == y)%K = true <-> x = y;
  one_neq_zero : (one : K) <> zero;
  mul_zero_l : forall x : K, (zero * x)%K = zero;
  mul_integral : forall x y : K, (x * y)%K = zero -> x = zero \/ y = zero;
  sqrt_square : forall x : K, is_square x = true -> (sqrt x * sqrt x)%K = x;
  characteristic_prime : characteristic = 0 \/ Z.prime characteristic;
  of_Z_zero : forall n : Z, of_Z n = (zero : K) <-> (characteristic | n)
}.

Section LawsFacts.

Context {K : Type} {F : ExactField K} {L : ExactFieldLaws K}.

Lemma eqb_false (x y : K) : (x == y)%K = false <-> x <> y.
Proof.
  split.
  - intros E H. apply eqb_eq in H. congruence.
  - intro H. destruct (x == y)%K eqn:E; [|reflexivity].
    apply eqb_eq in E. contradiction.
Qed.

Lemma eqb_refl (x : K) : (x == x)%K = true.
Proof. now apply eqb_eq. Qed.

Lemma mul_nonzero (x y : K) : x <> zero -> y <> zero -> (x * y)%K <> zero.
Proof.
  intros Hx Hy H. destruct (mul_integral _ _ H); contradiction.
Qed.

Lemma npow_nonzero (x : K) (n : nat) : x <> zero -> npow x n <> zero.
Proof.
  intro Hx. induction n as [|n IH]; simpl.
  - apply one_neq_zero.
  - now apply mul_nonzero.
Qed.

Lemma sqrt_nonzero (x : K) : is_square x = true -> x <> zero -> sqrt x <> zero.
Proof.
  intros Hs Hx H. apply Hx. rewrite <- (sqrt_square x Hs), H.
  apply mul_zero_l.
Qed.

(** Outside characteristic 2, 3 and 5 the integers 2, 3 and 4 are
    invertible. *)
Lemma small_int_nonzero (n : Z) :
  int_in characteristic [2; 3; 5] = false ->
  In n [2; 3; 4] -> of_Z n <> (zero : K).
Proof.
  intros Hc Hn H. apply of_Z_zero in H.
  unfold int_in in Hc. simpl in Hc.
  repeat rewrite orb_false_iff in Hc.
  destruct Hc as (H2 & H3 & _ & _).
  apply Z.eqb_neq in H2, H3.
  assert (Hn4 : 0 < n <= 4) by (simpl in Hn; lia).
  destruct characteristic_prime as [E | P].
  - rewrite E in H. apply Z.divide_0_l in H. lia.
  - pose proof (Z.prime_ge_2 _ P) as Hge.
    assert (Hle : characteristic <= n).
    { apply Z.divide_pos_le; [lia | assumption]. }
    assert (E4 : characteristic = 4) by lia.
    rewrite E4 in P.
    assert (D : (2 | 4)) by (exists 2; reflexivity).
    destruct (Z.divide_prime_r _ _ P D) as [|[|[|]]]; lia.
Qed.

Lemma ppow_inverse_small (n : Z) :
  int_in characteristic [2; 3; 5] = false ->
  In n [2; 3; 4] -> ppow (of_Z n : K) (-1) = ret (inv (of_Z n) * one)%K.
Proof.
  intros Hc Hn. unfold ppow. simpl.
  now rewrite (proj2 (eqb_false _ _) (small_int_nonzero n Hc Hn)).
Qed.

End LawsFacts.

(** ** The rational numbers are an exact field *)

Module RationalFacts.

Import Rational.

(** Canonical rationals are equal when their fractions are. *)
Lemma Qc_ext (x y : Qc) : this x = this y -> x = y.
Proof. intro H. apply Qc_is_canon. now rewrite H. Qed.

Lemma Qc_list_ext (l1 l2 : list Qc) : map this l1 = map this l2 -> l1 = l2.
Proof.
  revert l2. induction l1 as [|x l1 IH]; intros [|y l2] H; simpl in H;
    try discriminate; [reflexivity|].
  injection H as Hx Hl. f_equal; [now apply Qc_ext | now apply IH].
Qed.

Lemma fractions_ext (r1 r2 : result (list Qc)) :
  fractions r1 = fractions r2 -> r1 = r2.
Proof.
  destruct r1 as [e1|l1], r2 as [e2|l2]; simpl; intro H;
    try discriminate; [congruence|].
  injection H as H. f_equal. now apply Qc_list_ext.
Qed.

Lemma clebsch_ext (s t : clebsch (K := Qc)) :
  map this [cA s; cB s; cC s; cM s; cN s; cR s]
  = map this [cA t; cB t; cC t; cM t; cN t; cR t] -> s = t.
Proof.
  intro H. apply Qc_list_ext in H.
  destruct s, t. simpl in H. congruence.
Qed.

Lemma prepared_ext (r1 r2 : result (clebsch (K := Qc))) :
  clebsch_fractions r1 = clebsch_fractions r2 -> r1 = r2.
Proof.
  destruct r1 as [e1|s1], r2 as [e2|s2];
    unfold clebsch_fractions, clebsch_list; simpl;
    intro H; try discriminate; [congruence|].
  f_equal. apply clebsch_ext. simpl. congruence.
Qed.

Lemma Qc_eq_bool_iff (x y : Qc) : Qc_eq_bool x y = true <-> x = y.
Proof.
  split; [apply Qc_eq_bool_correct|].
  intros ->. unfold Qc_eq_bool. destruct (Qc_eq_dec y y); congruence.
Qed.

Lemma Qc_sqrt_square (x : Qc) :
  Qc_is_square x = true -> (Qc_sqrt x * Qc_sqrt x)%Qc = x.
Proof.
  unfold Qc_is_square, Qc_sqrt. destruct x as [[n d] Hc]. simpl.
  rewrite !andb_true_iff. intros [[_ Hn] Hd].
  apply Z.eqb_eq in Hn. apply Pos.eqb_eq in Hd.
  apply Qc_is_canon. unfold Qcmult, Q2Qc, this.
  rewrite !Qred_correct. unfold Qeq, Qmult, Qnum, Qden.
  rewrite Hn. rewrite Hd. reflexivity.
Qed.

#[export] Instance Qc_laws : ExactFieldLaws Qc.
Proof.
  split.
  - exact Qc_eq_bool_iff.
  - intro H. apply (f_equal this) in H. discriminate H.
  - exact Qcmult_0_l.
  - exact Qcmult_integral.
  - exact Qc_sqrt_square.
  - now left.
  - intro n. simpl. split.
    + intro H. apply Q2Qc_eq_iff in H. unfold Qeq in H. simpl in H.
      rewrite Z.mul_1_r in H. subst n. apply Z.divide_0_r.
    + intro H. apply Z.divide_0_l in H. now subst.
Qed.

End RationalFacts.

Import Rational RationalFacts GF5.

(** ** The worked examples over the rationals *)

Ltac by_fractions := apply fractions_ext; vm_compute; reflexivity.

(** C1.  Over the rationals the invariants [3, 1, 2] have [M = 0] and
    [R2 = -75/8], which is not a square: the invariants are rescaled by the
    powers of [R2], the case analysis starts from [M = 0], [N <> 0] and
    [A <> 0], and with the default options the routine returns the tuple
    (-66741943359375/2097152, -125141143798828125/134217728, 0,
    52793920040130615234375/34359738368,
    19797720015048980712890625/1099511627776,
    -4454487003386020660400390625/17592186044416). *)
Theorem quintic_from_3_1_2 :
  let R2 := frac (-75) 8 in
  is_square R2 = false /\
  quintic_prepare (map Qc_of_Z [3; 1; 2]) "clebsch" "none"
  = ret (mk_clebsch (R2 * Qc_of_Z 3)%K (npow R2 2 * Qc_of_Z 1)%K
           (npow R2 3 * Qc_of_Z 2)%K zero (npow R2 4 * frac 5 2)%K
           (npow R2 5)) /\
  binary_quintic_from_invariants (map Qc_of_Z [3; 1; 2]) "clebsch" "none"
  = ret [frac (-66741943359375) 2097152;
         frac (-125141143798828125) 134217728;
         Qc_of_Z 0;
         frac 52793920040130615234375 34359738368;
         frac 19797720015048980712890625 1099511627776;
         frac (-4454487003386020660400390625) 17592186044416].
Proof.
  cbv zeta. split; [reflexivity|]. split.
  - apply prepared_ext. vm_compute. reflexivity.
  - by_fractions.
Qed.

(** C5.  [reduce_invariants([6/5, 12, 16], [1, 2, 3])] is [[3, 75, 250]]:
    the gcd of the invariants is [2/5], its primes are [2] and [5], the
    least quotients of multiplicity by weight are [1] for [2] and [-1] for
    [5], the scalar is [2/5], and each invariant is multiplied by the
    scalar to the power minus its weight. *)
Theorem reduce_invariants_example :
  let invariants := [frac 6 5; Qc_of_Z 12; Qc_of_Z 16] in
  let weights := [1; 2; 3] in
  gcd_list invariants = frac 2 5 /\
  (primes <- factor (frac 2 5) ;; ret (map snd primes)) = ret [1; -1] /\
  (factors <- mapM factor invariants ;;
   primes <- factor (gcd_list invariants) ;;
   '(_, scalar) <- foldM (reduce_step weights 3) (factors, one) primes ;;
   ret [scalar]) = ret [frac 2 5] /\
  reduce_invariants invariants weights
  = ret [Qc_of_Z 3; Qc_of_Z 75; Qc_of_Z 250].
Proof.
  cbv zeta. split; [|split; [|split]].
  - apply Qc_ext. vm_compute. reflexivity.
  - vm_compute. reflexivity.
  - by_fractions.
  - by_fractions.
Qed.

(** ** The dispatcher *)

(** C3.  For degree 6 the dispatcher raises [NotImplementedError] with the
    message "No reconstruction for binary forms of 6 implemented.": the
    degree is substituted, and the word "degree" that the documented message
    has before it is missing. *)
Theorem binary_form_degree_6_message :
  forall (K : Type) (F : ExactField K) (invariants : list K) (as_form : bool)
         (opts : options),
    binary_form_from_invariants 6 invariants as_form opts
    = raise (NotImplementedError
               "No reconstruction for binary forms of 6 implemented.")
    /\ binary_form_from_invariants 6 invariants as_form opts
       <> raise (NotImplementedError
            "No reconstruction for binary forms of degree 6 implemented.").
Proof.
  intros K F invariants as_form opts.
  assert (E : binary_form_from_invariants 6 invariants as_form opts
              = raise (NotImplementedError
                   "No reconstruction for binary forms of 6 implemented."))
    by reflexivity.
  split; [exact E|]. rewrite E. discriminate.
Qed.

(** The dispatcher on every degree other than 2, 3 and 5. *)
Lemma binary_form_unsupported_degree
    (K : Type) (F : ExactField K) (degree : Z) (invariants : list K)
    (as_form : bool) (opts : options) :
  degree <> 2 -> degree <> 3 -> degree <> 5 ->
  binary_form_from_invariants degree invariants as_form opts
  = raise (NotImplementedError
             ("No reconstruction for binary forms of "
              ++ str_of_Z degree ++ " implemented.")%string).
Proof.
  intros H2 H3 H5. unfold binary_form_from_invariants.
  apply Z.eqb_neq in H2, H3, H5. now rewrite H2, H3, H5.
Qed.

(** ** The cubic *)

(** C6.  With a recognised [invariant_choice], the cubic routine raises
    "No unique reconstruction possible for binary cubics with a double
    root." exactly when the discriminant is zero, and returns
    [(0, 1, -1, 0)] for every nonzero discriminant. *)
Theorem binary_cubic_zero_discriminant
    (K : Type) (F : ExactField K) (L : ExactFieldLaws K)
    (d : K) (invariant_choice : string) :
  str_in invariant_choice ["default"; "discriminant"] = true ->
  (binary_cubic_from_invariants (Scalar d) invariant_choice
   = raise (ValueError
       "No unique reconstruction possible for binary cubics with a double root.")
   <-> d = zero)
  /\ (d <> zero ->
      binary_cubic_from_invariants (Scalar d) invariant_choice
      = ret (literal [0; 1; -1; 0])).
Proof.
  intro Hc. unfold binary_cubic_from_invariants. rewrite Hc. simpl.
  destruct (d == zero)%K eqn:E.
  - apply eqb_eq in E. split; [tauto | contradiction].
  - apply eqb_false in E. split; [|reflexivity].
    split; [discriminate | contradiction].
Qed.

Lemma binary_cubic_zero_discriminant_witness :
  (binary_cubic_from_invariants (Scalar (Qc_of_Z 0)) "default"
   = raise (ValueError
       "No unique reconstruction possible for binary cubics with a double root.")
   <-> Qc_of_Z 0 = zero)
  /\ binary_cubic_from_invariants (Scalar (Qc_of_Z 7)) "discriminant"
     = ret (literal [0; 1; -1; 0]).
Proof.
  split.
  - apply (binary_cubic_zero_discriminant Qc Qc_field Qc_laws
             (Qc_of_Z 0) "default"). reflexivity.
  - apply (binary_cubic_zero_discriminant Qc Qc_field Qc_laws
             (Qc_of_Z 7) "discriminant"); [reflexivity|].
    intro H. apply (f_equal this) in H. discriminate H.
Defined.

(** ** Which exceptions a computation can raise *)

Section Never.

Context {A : Type}.

Lemma never_ret (e : exn) (a : A) : never e (ret a).
Proof. discriminate. Qed.

Lemma never_raise (e e' : exn) : e' <> e -> never e (raise e' : result A).
Proof. intros H E. injection E as E. contradiction. Qed.

End Never.

Lemma never_bind {A B : Type} (e : exn) (c : result A) (k : A -> result B) :
  never e c -> (forall a, c = ret a -> never e (k a)) -> never e (bind c k).
Proof.
  intros Hc Hk. destruct c as [e'|a]; simpl.
  - intro E. injection E as ->. now apply Hc.
  - now apply Hk.
Qed.

Lemma bind_ret_l {A B : Type} (a : A) (k : A -> result B) :
  bind (ret a) k = k a.
Proof. reflexivity. Qed.

Lemma bind_raise_l {A B : Type} (e : exn) (k : A -> result B) :
  bind (raise e) k = raise e.
Proof. reflexivity. Qed.

Lemma never_mapM {A B : Type} (e : exn) (f : A -> result B) (l : list A) :
  (forall x, In x l -> never e (f x)) -> never e (mapM f l).
Proof.
  induction l as [|x l IH]; intro H; simpl.
  - apply never_ret.
  - apply never_bind; [apply H; now left|]. intros y _.
    apply never_bind; [apply IH; intros; apply H; now right|].
    intros ys _. apply never_ret.
Qed.

Lemma never_getitem {A : Type} (e : exn) (l : list A) (i : nat) :
  e <> IndexError -> never e (getitem l i).
Proof.
  intro H. unfold getitem. destruct (nth_error l i).
  - apply never_ret.
  - apply never_raise. congruence.
Qed.

(** [never_tac] follows the structure of a computation whose raises all
    differ from the exception in question. *)
Ltac neq_exn :=
  let H := fresh in
  intro H; first [discriminate H | injection H as H; vm_compute in H;
                                   discriminate H].

Ltac never_tac :=
  lazymatch goal with
  | |- never _ (bind _ _) =>
      apply never_bind; [never_tac | intros ? _; never_tac]
  | |- never _ (ret _) => apply never_ret
  | |- never _ (raise _) => apply never_raise; neq_exn
  | |- never _ (mapM _ _) => apply never_mapM; intros ? _; never_tac
  | |- never _ (getitem _ _) => apply never_getitem; neq_exn
  | |- never _ (if ?b then _ else _) => destruct b; never_tac
  | |- never _ (match ?x with _ => _ end) => destruct x; never_tac
  | |- never _ ?r =>
      first [ assumption | let h := head_of r in unfold h; never_tac ]
  end
with head_of r :=
  lazymatch r with
  | ?f _ => head_of f
  | _ => r
  end.

Section QuinticFacts.

Context {K : Type} {F : ExactField K} {L : ExactFieldLaws K}.

Lemma unpack3_cons (A B C : K) (l : list K) :
  unpack3 (A :: B :: C :: l) = ret (A, B, C).
Proof. reflexivity. Qed.

Lemma ppow_defined (x : K) (e : Z) :
  x <> zero -> exists y, ppow x e = ret y.
Proof.
  intro H. unfold ppow. destruct (0 <=? e); [eauto|].
  rewrite (proj2 (eqb_false _ _) H). eauto.
Qed.

Lemma pdiv_defined (x y : K) : y <> zero -> exists q, pdiv x y = ret q.
Proof.
  intro H. unfold pdiv. rewrite (proj2 (eqb_false _ _) H). eauto.
Qed.

Lemma never_ppow (e0 : exn) (x : K) (e : Z) :
  e0 <> ZeroDivisionError -> never e0 (ppow x e).
Proof.
  intro H. unfold ppow. destruct (0 <=? e); [apply never_ret|].
  destruct (x == zero)%K; [apply never_raise; congruence | apply never_ret].
Qed.

Lemma never_pdiv (e0 : exn) (x y : K) :
  e0 <> ZeroDivisionError -> never e0 (pdiv x y).
Proof.
  intro H. unfold pdiv.
  destruct (y == zero)%K; [apply never_raise; congruence | apply never_ret].
Qed.

Lemma mapM_defined {A B : Type} (f : A -> result B) (l : list A) :
  (forall x, In x l -> exists y, f x = ret y) ->
  exists ys, mapM f l = ret ys /\ List.length ys = List.length l.
Proof.
  induction l as [|x l IH]; intro H; simpl.
  - exists []. now split.
  - destruct (H x (or_introl eq_refl)) as [y ->]. simpl.
    destruct IH as (ys & -> & Hlen); [intros; apply H; now right|].
    simpl. exists (y :: ys). split; [reflexivity | simpl; now rewrite Hlen].
Qed.

(** With recognised options the routine goes on to the reduction. *)
Lemma quintic_prepare_recognised (invariants : list K)
    (invariant_choice scaling : string) :
  str_in invariant_choice ["default"; "clebsch"] = true ->
  str_in scaling ["none"; "normalized"; "coprime"] = true ->
  quintic_prepare invariants invariant_choice scaling
  = (invariants <- coprime_reduction scaling invariants ;;
     '(A, B, C) <- unpack3 invariants ;;
     if int_in characteristic [2; 3; 5] then
       raise (NotImplementedError characteristic_message)
     else
       i2 <- ppow (of_Z 2) (-1) ;;
       syzygy_root invariants A B C (clebsch_M A B C) (clebsch_N i2 A B C)
         (clebsch_R2 i2 A B C)).
Proof.
  intros H1 H2. unfold quintic_prepare. now rewrite H1, H2.
Qed.

End QuinticFacts.

(** ** The number of invariants *)

(** C2, as the code has it.  With recognised options and five invariants or
    more, the routine first tests the characteristic of the field, raising
    [NotImplementedError] in characteristic 2, 3 or 5; otherwise it computes
    [M], [N] and [R2] from the first three invariants and then raises
    [ValueError] with the message that 3 or 4 invariants are required. *)
Theorem quintic_wrong_count
    (K : Type) (F : ExactField K) (L : ExactFieldLaws K)
    (invariants : list K) (invariant_choice scaling : string) :
  str_in invariant_choice ["default"; "clebsch"] = true ->
  str_in scaling ["none"; "normalized"; "coprime"] = true ->
  (5 <= List.length invariants)%nat ->
  binary_quintic_from_invariants invariants invariant_choice scaling
  = if int_in characteristic [2; 3; 5]
    then raise (NotImplementedError characteristic_message)
    else raise (ValueError count_message).
Proof.
  intros H1 H2 Hlen. unfold binary_quintic_from_invariants.
  rewrite (quintic_prepare_recognised _ _ _ H1 H2).
  destruct invariants as [|a [|b [|c [|d [|e l]]]]]; simpl in Hlen; try lia.
  assert (Hred : coprime_reduction scaling (a :: b :: c :: d :: e :: l)
                 = ret (a :: b :: c :: d :: e :: l)).
  { unfold coprime_reduction. now destruct (scaling =? "coprime")%string. }
  rewrite Hred, bind_ret_l, unpack3_cons, bind_ret_l.
  destruct (int_in characteristic [2; 3; 5]) eqn:Hc; [reflexivity|].
  rewrite (ppow_inverse_small 2 Hc) by (simpl; tauto).
  reflexivity.
Qed.

Lemma quintic_wrong_count_witness :
  binary_quintic_from_invariants (map Qc_of_Z [1; 2; 3; 4; 5])
    "clebsch" "none"
  = raise (ValueError count_message).
Proof.
  apply (quintic_wrong_count Qc Qc_field Qc_laws
           (map Qc_of_Z [1; 2; 3; 4; 5]) "clebsch" "none");
    [reflexivity | reflexivity | simpl; lia].
Defined.

(** C2 as stated fails: two invariants stop at the unpacking of
    [invariants[0:3]], with the interpreter's message, and five invariants
    over the field with five elements stop at the test of the
    characteristic. *)
Lemma quintic_wrong_count_counterexample :
  binary_quintic_from_invariants (map Qc_of_Z [1; 2]) "clebsch" "none"
  = raise (ValueError "need more than 2 values to unpack")
  /\ binary_quintic_from_invariants (map Qc_of_Z [1; 2]) "clebsch" "none"
     <> raise (ValueError count_message)
  /\ binary_quintic_from_invariants (map gf5_of_Z [1; 2; 3; 4; 0])
       "clebsch" "none"
     = raise (NotImplementedError characteristic_message)
  /\ binary_quintic_from_invariants (map gf5_of_Z [1; 2; 3; 4; 0])
       "clebsch" "none"
     <> raise (ValueError count_message).
Proof.
  split; [reflexivity|]. split; [discriminate|].
  split; [reflexivity | discriminate].
Qed.

(** ** The degenerate configurations *)

(** For invariants that are elements of [K]: once the validation, the
    reduction and the choice of [R] have produced [A], [B], [C], [M], [N]
    and [R] (after the rescaling by [R2] when there was one), the routine
    answers the degenerate configurations directly: [M = N = A = 0] raises
    the [ValueError] of [threefold_message]; [M = N = 0], [A <> 0] gives
    [(1,0,0,0,0,1)] when [B = 0] and [(0,1,0,0,1,0)] otherwise; [M = 0],
    [N <> 0], [A = 0] gives [(1,0,0,0,1,0)]; [M <> 0], [R = 0], [A = 0] gives
    [(1,0,10,0,-15,0)]; [M <> 0], [R <> 0], [A = B = 0] gives
    [(1,0,0,1,0,0)]. *)
Lemma quintic_degenerate_cases
    (K : Type) (F : ExactField K) (L : ExactFieldLaws K)
    (invariants : list K) (invariant_choice scaling : string)
    (st : clebsch) :
  quintic_prepare invariants invariant_choice scaling = ret st ->
  let result := binary_quintic_from_invariants invariants invariant_choice
                  scaling in
  (cM st = zero -> cN st = zero -> cA st = zero ->
   result = raise (ValueError threefold_message))
  /\ (cM st = zero -> cN st = zero -> cA st <> zero -> cB st = zero ->
      result = ret (literal [1; 0; 0; 0; 0; 1]))
  /\ (cM st = zero -> cN st = zero -> cA st <> zero -> cB st <> zero ->
      result = ret (literal [0; 1; 0; 0; 1; 0]))
  /\ (cM st = zero -> cN st <> zero -> cA st = zero ->
      result = ret (literal [1; 0; 0; 0; 1; 0]))
  /\ (cM st <> zero -> cR st = zero -> cA st = zero ->
      result = ret (literal [1; 0; 10; 0; -15; 0]))
  /\ (cM st <> zero -> cR st <> zero -> cA st = zero -> cB st = zero ->
      result = ret (literal [1; 0; 0; 1; 0; 0])).
Proof.
  intros H result. subst result. unfold binary_quintic_from_invariants.
  rewrite H, bind_ret_l. destruct st as [A B C M N R].
  cbn [cA cB cC cM cN cR]. unfold quintic_cases.
  repeat split; intros;
    repeat match goal with
      | E : ?x = zero |- _ => rewrite (proj2 (eqb_eq x zero) E); clear E
      | E : ?x <> zero |- _ => rewrite (proj2 (eqb_false x zero) E); clear E
      end;
    reflexivity.
Qed.

Lemma quintic_degenerate_cases_witness :
  binary_quintic_from_invariants (map Qc_of_Z [0; 0; 0]) "clebsch" "none"
  = raise (ValueError threefold_message)
  /\ binary_quintic_from_invariants (map Qc_of_Z [1; 0; 0]) "clebsch" "none"
     = ret (literal [1; 0; 0; 0; 0; 1])
  /\ binary_quintic_from_invariants (map Qc_of_Z [3; 6; 12]) "clebsch" "none"
     = ret (literal [0; 1; 0; 0; 1; 0])
  /\ binary_quintic_from_invariants (map Qc_of_Z [0; 1; 0]) "clebsch" "none"
     = ret (literal [1; 0; 0; 0; 1; 0])
  /\ binary_quintic_from_invariants (map Qc_of_Z [0; 3; 3]) "clebsch" "none"
     = ret (literal [1; 0; 10; 0; -15; 0])
  /\ binary_quintic_from_invariants (map Qc_of_Z [0; 0; 1]) "clebsch" "none"
     = ret (literal [1; 0; 0; 1; 0; 0]).
Proof.
  assert (nz : forall x : Qc, this x <> this zero -> x <> zero)
    by (intros x H E; apply H; now rewrite E).
  assert (E1 : quintic_prepare (map Qc_of_Z [0; 0; 0]) "clebsch" "none"
               = ret (mk_clebsch zero zero zero zero zero zero))
    by (apply prepared_ext; vm_compute; reflexivity).
  assert (E2 : quintic_prepare (map Qc_of_Z [1; 0; 0]) "clebsch" "none"
               = ret (mk_clebsch one zero zero zero zero zero))
    by (apply prepared_ext; vm_compute; reflexivity).
  assert (E3 : quintic_prepare (map Qc_of_Z [3; 6; 12]) "clebsch" "none"
               = ret (mk_clebsch (Qc_of_Z 3) (Qc_of_Z 6) (Qc_of_Z 12)
                        zero zero zero))
    by (apply prepared_ext; vm_compute; reflexivity).
  assert (E4 : quintic_prepare (map Qc_of_Z [0; 1; 0]) "clebsch" "none"
               = ret (mk_clebsch zero one zero zero (frac (-1) 2) zero))
    by (apply prepared_ext; vm_compute; reflexivity).
  assert (E5 : quintic_prepare (map Qc_of_Z [0; 3; 3]) "clebsch" "none"
               = ret (mk_clebsch zero (Qc_of_Z 3) (Qc_of_Z 3) (Qc_of_Z (-9))
                        (frac (-9) 2) zero))
    by (apply prepared_ext; vm_compute; reflexivity).
  assert (E6 : quintic_prepare (map Qc_of_Z [0; 0; 1]) "clebsch" "none"
               = ret (mk_clebsch zero zero (frac (-729) 8) (frac 2187 8)
                        zero (frac (-59049) 32)))
    by (apply prepared_ext; vm_compute; reflexivity).
  split; [|split; [|split; [|split; [|split]]]].
  - apply (quintic_degenerate_cases Qc Qc_field Qc_laws _ _ _ _ E1);
      reflexivity.
  - apply (quintic_degenerate_cases Qc Qc_field Qc_laws _ _ _ _ E2);
      try reflexivity; apply nz; discriminate.
  - apply (quintic_degenerate_cases Qc Qc_field Qc_laws _ _ _ _ E3);
      try reflexivity; apply nz; discriminate.
  - apply (quintic_degenerate_cases Qc Qc_field Qc_laws _ _ _ _ E4);
      try reflexivity; apply nz; discriminate.
  - apply (quintic_degenerate_cases Qc Qc_field Qc_laws _ _ _ _ E5);
      try reflexivity; apply nz; discriminate.
  - apply (quintic_degenerate_cases Qc Qc_field Qc_laws _ _ _ _ E6);
      try reflexivity; apply nz; discriminate.
Defined.

(** C4.  On the invariants [(0, 0, 0)] of a quintic with a threefold linear
    factor ([M = N = A = 0]) the routine raises [ValueError] with the text
    "No unique reconstruction possible for quintics with a treefold linear
    factor.": the word is spelled "treefold", and the message about a
    "threefold linear factor" is not the one raised.  The five degenerate
    configurations that return a tuple return the tuples of the case
    analysis. *)
Theorem quintic_threefold_message :
  binary_quintic_from_invariants (map Qc_of_Z [0; 0; 0]) "clebsch" "none"
  = raise (ValueError ("No unique reconstruction possible for "
                       ++ "quintics with a treefold linear factor."))
  /\ binary_quintic_from_invariants (map Qc_of_Z [0; 0; 0]) "clebsch" "none"
     <> raise (ValueError ("No unique reconstruction possible for "
                           ++ "quintics with a threefold linear factor."))
  /\ binary_quintic_from_invariants (map Qc_of_Z [1; 0; 0]) "clebsch" "none"
     = ret (literal [1; 0; 0; 0; 0; 1])
  /\ binary_quintic_from_invariants (map Qc_of_Z [3; 6; 12]) "clebsch" "none"
     = ret (literal [0; 1; 0; 0; 1; 0])
  /\ binary_quintic_from_invariants (map Qc_of_Z [0; 1; 0]) "clebsch" "none"
     = ret (literal [1; 0; 0; 0; 1; 0])
  /\ binary_quintic_from_invariants (map Qc_of_Z [0; 3; 3]) "clebsch" "none"
     = ret (literal [1; 0; 10; 0; -15; 0])
  /\ binary_quintic_from_invariants (map Qc_of_Z [0; 0; 1]) "clebsch" "none"
     = ret (literal [1; 0; 0; 1; 0; 0]).
Proof.
  assert (E : binary_quintic_from_invariants (map Qc_of_Z [0; 0; 0])
                "clebsch" "none"
              = raise (ValueError
                         ("No unique reconstruction possible for "
                          ++ "quintics with a treefold linear factor.")))
    by (apply fractions_ext; vm_compute; reflexivity).
  split; [exact E|]. split.
  - rewrite E. intro H. injection H as H. vm_compute in H. discriminate H.
  - repeat split; apply fractions_ext; vm_compute; reflexivity.
Qed.

(** ** The syzygy *)

Section SyzygyFacts.

Context {K : Type} {F : ExactField K} {L : ExactFieldLaws K}.

(** The case analysis never raises the error of the syzygy test. *)
Lemma quintic_cases_not_syzygy (scaling : string) (st : clebsch) :
  never (ValueError syzygy_message) (quintic_cases scaling st).
Proof. never_tac. Qed.

(** With four invariants left by the reduction, [R] is the fourth one when
    it passes the syzygy test. *)
Lemma quintic_prepare_four (invariants : list K)
    (invariant_choice scaling : string) (A B C R : K) :
  str_in invariant_choice ["default"; "clebsch"] = true ->
  str_in scaling ["none"; "normalized"; "coprime"] = true ->
  int_in characteristic [2; 3; 5] = false ->
  coprime_reduction scaling invariants = ret [A; B; C; R] ->
  exists i2, ppow (of_Z 2) (-1) = ret i2 /\
    quintic_prepare invariants invariant_choice scaling
    = if negb (npow R 2 == clebsch_R2 i2 A B C)%K
      then raise (ValueError syzygy_message)
      else ret (mk_clebsch A B C (clebsch_M A B C) (clebsch_N i2 A B C) R).
Proof.
  intros H1 H2 Hc Hred.
  rewrite (quintic_prepare_recognised _ _ _ H1 H2).
  rewrite Hred, bind_ret_l, unpack3_cons, bind_ret_l, Hc.
  rewrite (ppow_inverse_small 2 Hc) by (simpl; tauto).
  eexists. split; [reflexivity|]. reflexivity.
Qed.

End SyzygyFacts.

(** C7, as the code has it.  Let [A, B, C, R] be the four invariants the
    routine works with: the list supplied, or, under [scaling == 'coprime'],
    the list returned by [reduce_invariants] with the weights [2, 4, 6, 9].
    With recognised options, outside characteristic 2, 3 and 5, the routine
    raises [ValueError] "Provided invariants do not satisfy the syzygy ..."
    exactly when [R**2 <> R2]; when [R**2 = R2], the case analysis starts
    from [A], [B], [C], [M], [N] and this fourth value [R], without the
    rescaling by [R2]. *)
Theorem quintic_syzygy_check
    (K : Type) (F : ExactField K) (L : ExactFieldLaws K)
    (invariants : list K) (invariant_choice scaling : string)
    (A B C R : K) :
  str_in invariant_choice ["default"; "clebsch"] = true ->
  str_in scaling ["none"; "normalized"; "coprime"] = true ->
  int_in characteristic [2; 3; 5] = false ->
  coprime_reduction scaling invariants = ret [A; B; C; R] ->
  exists i2, ppow (of_Z 2) (-1) = ret i2 /\
    let M := clebsch_M A B C in
    let N := clebsch_N i2 A B C in
    let R2 := clebsch_R2 i2 A B C in
    (binary_quintic_from_invariants invariants invariant_choice scaling
     = raise (ValueError syzygy_message) <-> npow R 2 <> R2)
    /\ (npow R 2 = R2 ->
        quintic_prepare invariants invariant_choice scaling
        = ret (mk_clebsch A B C M N R)
        /\ binary_quintic_from_invariants invariants invariant_choice scaling
           = quintic_cases scaling (mk_clebsch A B C M N R)).
Proof.
  intros H1 H2 Hc Hred.
  destruct (quintic_prepare_four _ _ _ A B C R H1 H2 Hc Hred)
    as (i2 & Hi2 & Hprep).
  exists i2. split; [exact Hi2|]. cbv zeta.
  unfold binary_quintic_from_invariants. rewrite Hprep.
  destruct (npow R 2 == clebsch_R2 i2 A B C)%K eqn:E; cbn [negb].
  - apply eqb_eq in E. rewrite bind_ret_l. split.
    + split; [|contradiction]. intro H.
      destruct (quintic_cases_not_syzygy _ _ H).
    + intros _. split; reflexivity.
  - apply eqb_false in E. rewrite bind_raise_l. split.
    + split; [intros _; exact E | reflexivity].
    + intro H. contradiction.
Qed.

Lemma quintic_syzygy_check_witness :
  exists i2 : Qc, ppow (of_Z 2) (-1) = ret i2 /\
    (binary_quintic_from_invariants (map Qc_of_Z [-8; -4; 8; 81])
       "clebsch" "normalized"
     = raise (ValueError syzygy_message)
     <-> npow (Qc_of_Z 81) 2
         <> clebsch_R2 i2 (Qc_of_Z (-8)) (Qc_of_Z (-4)) (Qc_of_Z 8))
    /\ (npow (Qc_of_Z 81) 2
        = clebsch_R2 i2 (Qc_of_Z (-8)) (Qc_of_Z (-4)) (Qc_of_Z 8) ->
        quintic_prepare (map Qc_of_Z [-8; -4; 8; 81]) "clebsch" "normalized"
        = ret (mk_clebsch (Qc_of_Z (-8)) (Qc_of_Z (-4)) (Qc_of_Z 8)
                 (clebsch_M (Qc_of_Z (-8)) (Qc_of_Z (-4)) (Qc_of_Z 8))
                 (clebsch_N i2 (Qc_of_Z (-8)) (Qc_of_Z (-4)) (Qc_of_Z 8))
                 (Qc_of_Z 81))
        /\ binary_quintic_from_invariants (map Qc_of_Z [-8; -4; 8; 81])
             "clebsch" "normalized"
           = quintic_cases "normalized"
               (mk_clebsch (Qc_of_Z (-8)) (Qc_of_Z (-4)) (Qc_of_Z 8)
                  (clebsch_M (Qc_of_Z (-8)) (Qc_of_Z (-4)) (Qc_of_Z 8))
                  (clebsch_N i2 (Qc_of_Z (-8)) (Qc_of_Z (-4)) (Qc_of_Z 8))
                  (Qc_of_Z 81))).
Proof.
  apply (quintic_syzygy_check Qc Qc_field Qc_laws
           (map Qc_of_Z [-8; -4; 8; 81]) "clebsch" "normalized");
    reflexivity.
Defined.

(** C7 as stated fails under [scaling == 'coprime'].  The four invariants
    [0, 1, 1, 1] have [R**2 = 1] and [R2 = -3], and the routine stops before
    the syzygy test, in the factorisation of the invariant [0].  The four
    invariants [-2, -1/4, 1/8, 5/32] satisfy the syzygy, and the case
    analysis starts from their reduction [-8, -4, 8, 80], not from the
    values supplied. *)
Lemma quintic_syzygy_check_counterexample :
  (exists i2 : Qc, ppow (of_Z 2) (-1) = ret i2 /\
     npow (Qc_of_Z 1) 2
     <> clebsch_R2 i2 (Qc_of_Z 0) (Qc_of_Z 1) (Qc_of_Z 1))
  /\ binary_quintic_from_invariants (map Qc_of_Z [0; 1; 1; 1])
       "clebsch" "coprime"
     = raise ArithmeticError
  /\ binary_quintic_from_invariants (map Qc_of_Z [0; 1; 1; 1])
       "clebsch" "coprime"
     <> raise (ValueError syzygy_message)
  /\ (exists i2 : Qc, ppow (of_Z 2) (-1) = ret i2 /\
        npow (frac 5 32) 2
        = clebsch_R2 i2 (Qc_of_Z (-2)) (frac (-1) 4) (frac 1 8))
  /\ quintic_prepare [Qc_of_Z (-2); frac (-1) 4; frac 1 8; frac 5 32]
       "clebsch" "coprime"
     = ret (mk_clebsch (Qc_of_Z (-8)) (Qc_of_Z (-4)) (Qc_of_Z 8)
              (Qc_of_Z 40) (Qc_of_Z (-40)) (Qc_of_Z 80)).
Proof.
  split; [|split; [|split; [|split]]].
  - eexists. split; [reflexivity|].
    intro H. apply (f_equal this) in H. vm_compute in H. discriminate H.
  - vm_compute. reflexivity.
  - intro H. vm_compute in H. discriminate H.
  - eexists. split; [reflexivity|]. apply Qc_ext. vm_compute. reflexivity.
  - apply prepared_ext. vm_compute. reflexivity.
Qed.

(** ** The scale factors of the [normalized] option *)

Section ScaleFacts.

Context {K : Type} {F : ExactField K} {L : ExactFieldLaws K}.

(** A list [[ u**-k*(R/v)**i for i in range(6) ]] is defined when [u] and
    [v] are not zero. *)
Lemma scale_comprehension_defined (u R v : K) (k : Z) :
  u <> zero -> v <> zero ->
  exists l,
    mapM (fun i => a <- ppow u k ;; q <- pdiv R v ;;
                   ret (surd_of (a * npow q i)%K)) (seq 0 6) = ret l
    /\ List.length l = 6%nat.
Proof.
  intros Hu Hv.
  destruct (ppow_defined u k Hu) as [a Ha].
  destruct (pdiv_defined R v Hv) as [q Hq].
  destruct (mapM_defined
              (fun i => a <- ppow u k ;; q <- pdiv R v ;;
                        ret (surd_of (a * npow q i)%K)) (seq 0 6))
    as (l & Hl & Hlen).
  - intros i _. rewrite Ha, bind_ret_l, Hq, bind_ret_l. eauto.
  - exists l. split; [exact Hl | exact Hlen].
Qed.

Lemma sqrt_pow_defined (A : K) (e : Z) :
  A <> zero -> exists s, sqrt_pow A e = ret s.
Proof.
  intro HA. unfold sqrt_pow. destruct (is_square A) eqn:Hs.
  - destruct (ppow_defined (sqrt A) e (sqrt_nonzero A Hs HA)) as [p ->].
    rewrite bind_ret_l. eauto.
  - destruct (ppow_defined A (e / 2) HA) as [p ->].
    rewrite bind_ret_l. eauto.
Qed.

Lemma scale_alpha_gamma_defined (A R : K) :
  A <> zero ->
  exists l, scale_alpha_gamma A R = ret l /\ List.length l = 6%nat.
Proof.
  intro HA. apply scale_comprehension_defined;
    [assumption | now apply npow_nonzero].
Qed.

Lemma scale_sqrt_defined (A : K) :
  A <> zero -> exists l, scale_sqrt A = ret l /\ List.length l = 6%nat.
Proof.
  intro HA. apply mapM_defined. intros i _. now apply sqrt_pow_defined.
Qed.

Lemma scale_RB_defined (R B : K) :
  R <> zero -> B <> zero ->
  exists l, scale_RB R B = ret l /\ List.length l = 6%nat.
Proof.
  intros HR HB. apply scale_comprehension_defined;
    [assumption | now apply npow_nonzero].
Qed.

Lemma scale_alpha_beta_defined (A R : K) :
  A <> zero ->
  exists l, scale_alpha_beta A R = ret l /\ List.length l = 6%nat.
Proof.
  intro HA. apply scale_comprehension_defined;
    [assumption | now apply npow_nonzero].
Qed.

(** The case analysis is reached outside characteristic 2, 3 and 5. *)
Lemma quintic_prepare_characteristic (invariants : list K)
    (invariant_choice scaling : string) (st : clebsch) :
  quintic_prepare invariants invariant_choice scaling = ret st ->
  int_in characteristic [2; 3; 5] = false.
Proof.
  unfold quintic_prepare.
  destruct (negb (str_in invariant_choice _)); [discriminate|].
  destruct (negb (str_in scaling _)); [discriminate|].
  destruct (coprime_reduction scaling invariants) as [e|l];
    [discriminate|].
  rewrite bind_ret_l.
  destruct (unpack3 l) as [e|[[A B] C]]; [discriminate|].
  rewrite bind_ret_l.
  now destruct (int_in characteristic [2; 3; 5]).
Qed.

Lemma never_K_of_surd (s : surd) : never ZeroDivisionError (K_of_surd s).
Proof. never_tac. Qed.

(** The common tail divides only under [scaling == 'coprime']. *)
Lemma quintic_tail_normalized (A B R : K) (scale : list surd)
    (i3 D Delta a1 B0 B1 C0 C1 : K) :
  int_in characteristic [2; 3; 5] = false ->
  never ZeroDivisionError
    (quintic_tail "normalized" A B R scale i3 D Delta a1 B0 B1 C0 C1).
Proof.
  intro Hc. unfold quintic_tail.
  rewrite (ppow_inverse_small 2 Hc) by (simpl; tauto).
  rewrite bind_ret_l.
  rewrite (ppow_inverse_small 4 Hc) by (simpl; tauto).
  rewrite bind_ret_l.
  apply never_bind.
  - apply never_mapM. intros i _. never_tac.
  - intros coeffs _.
    change ("normalized" =? "coprime")%string with false.
    apply never_ret.
Qed.

Lemma quintic_alpha_gamma_normalized (A B C N R : K) (scale : list surd) :
  int_in characteristic [2; 3; 5] = false ->
  never ZeroDivisionError
    (quintic_alpha_gamma "normalized" A B C N R scale).
Proof.
  intro Hc. unfold quintic_alpha_gamma.
  rewrite (ppow_inverse_small 3 Hc) by (simpl; tauto).
  rewrite bind_ret_l.
  rewrite (ppow_inverse_small 2 Hc) by (simpl; tauto).
  rewrite bind_ret_l.
  now apply quintic_tail_normalized.
Qed.

Lemma quintic_alpha_beta_normalized (A B M N R : K) (scale : list surd) :
  int_in characteristic [2; 3; 5] = false ->
  never ZeroDivisionError
    (quintic_alpha_beta "normalized" A B M N R scale).
Proof.
  intro Hc. unfold quintic_alpha_beta.
  rewrite (ppow_inverse_small 3 Hc) by (simpl; tauto).
  rewrite bind_ret_l.
  rewrite (ppow_inverse_small 2 Hc) by (simpl; tauto).
  rewrite bind_ret_l.
  now apply quintic_tail_normalized.
Qed.

Lemma quintic_cases_normalized (st : clebsch) :
  int_in characteristic [2; 3; 5] = false ->
  never ZeroDivisionError (quintic_cases "normalized" st).
Proof.
  intro Hc. destruct st as [A B C M N R]. unfold quintic_cases.
  change ("normalized" =? "normalized")%string with true. cbv iota.
  destruct (M == zero)%K eqn:EM.
  - destruct (N == zero)%K eqn:EN.
    + destruct (A == zero)%K; [never_tac|].
      destruct (B == zero)%K; never_tac.
    + destruct (A == zero)%K eqn:EA; [never_tac|].
      apply eqb_false in EA.
      destruct (scale_alpha_gamma_defined A R EA) as (l & -> & _).
      rewrite bind_ret_l. now apply quintic_alpha_gamma_normalized.
  - destruct (R == zero)%K eqn:ER.
    + destruct (A == zero)%K eqn:EA; [never_tac|].
      apply eqb_false in EA.
      destruct (scale_sqrt_defined A EA) as (l & -> & _).
      rewrite bind_ret_l. now apply quintic_alpha_beta_normalized.
    + apply eqb_false in ER. destruct (A == zero)%K eqn:EA.
      * destruct (B == zero)%K eqn:EB; [never_tac|].
        apply eqb_false in EB.
        destruct (scale_RB_defined R B ER EB) as (l & -> & _).
        rewrite bind_ret_l. now apply quintic_alpha_beta_normalized.
      * apply eqb_false in EA.
        destruct (scale_alpha_beta_defined A R EA) as (l & -> & _).
        rewrite bind_ret_l. now apply quintic_alpha_beta_normalized.
Qed.

Lemma quintic_prepare_normalized (invariants : list K)
    (invariant_choice : string) :
  never ZeroDivisionError
    (quintic_prepare invariants invariant_choice "normalized").
Proof.
  unfold quintic_prepare.
  destruct (negb (str_in invariant_choice _)); [never_tac|].
  change (negb (str_in "normalized" ["none"; "normalized"; "coprime"]))
    with false. cbv iota.
  change (coprime_reduction "normalized" invariants) with (ret invariants).
  rewrite bind_ret_l.
  apply never_bind; [never_tac|]. intros [[A B] C] _.
  destruct (int_in characteristic [2; 3; 5]) eqn:Hc; [never_tac|].
  rewrite (ppow_inverse_small 2 Hc) by (simpl; tauto).
  rewrite bind_ret_l. never_tac.
Qed.

End ScaleFacts.

(** For invariants that are elements of [K], the scale lists of the
    [normalized] option are computed without division by zero under the
    guard of their branch, which is then a test in [K]: [A <> 0] for
    [A**-14*(R/A**3)**i], [sqrt(A)**(i-18)] and [A**-9*(R/A**4)**i], and
    [R <> 0], [B <> 0] for [R**-2*(R/B**2)**i]; each is a list of six
    factors.  As a whole, with [scaling == 'normalized'] the routine never
    raises [ZeroDivisionError]. *)
Lemma normalized_scale_defined
    (K : Type) (F : ExactField K) (L : ExactFieldLaws K) (A B R : K) :
  (A <> zero ->
   exists l, scale_alpha_gamma A R = ret l /\ List.length l = 6%nat)
  /\ (A <> zero ->
      exists l, scale_sqrt A = ret l /\ List.length l = 6%nat)
  /\ (R <> zero -> B <> zero ->
      exists l, scale_RB R B = ret l /\ List.length l = 6%nat)
  /\ (A <> zero ->
      exists l, scale_alpha_beta A R = ret l /\ List.length l = 6%nat)
  /\ (forall (invariants : list K) (invariant_choice : string),
        never ZeroDivisionError
          (binary_quintic_from_invariants invariants invariant_choice
             "normalized")).
Proof.
  split; [apply scale_alpha_gamma_defined|].
  split; [apply scale_sqrt_defined|].
  split; [apply scale_RB_defined|].
  split; [apply scale_alpha_beta_defined|].
  intros invariants invariant_choice.
  unfold binary_quintic_from_invariants. apply never_bind.
  - apply quintic_prepare_normalized.
  - intros st Hst. apply quintic_cases_normalized.
    exact (quintic_prepare_characteristic _ _ _ _ Hst).
Qed.

Lemma normalized_scale_defined_witness :
  (exists l, scale_alpha_gamma (Qc_of_Z 3) (Qc_of_Z 2) = ret l
             /\ List.length l = 6%nat)
  /\ (exists l, scale_sqrt (Qc_of_Z 2) = ret l /\ List.length l = 6%nat)
  /\ (exists l, scale_RB (Qc_of_Z 2) (Qc_of_Z 4) = ret l
                /\ List.length l = 6%nat)
  /\ (exists l, scale_alpha_beta (Qc_of_Z 3) (Qc_of_Z 2) = ret l
                /\ List.length l = 6%nat)
  /\ never ZeroDivisionError
       (binary_quintic_from_invariants (map Qc_of_Z [2; 4; 6]) "clebsch"
          "normalized").
Proof.
  assert (nz : forall x : Qc, this x <> this zero -> x <> zero)
    by (intros x H E; apply H; now rewrite E).
  split; [|split; [|split; [|split]]].
  - apply (normalized_scale_defined Qc Qc_field Qc_laws
             (Qc_of_Z 3) (Qc_of_Z 4) (Qc_of_Z 2)).
    apply nz. discriminate.
  - apply (normalized_scale_defined Qc Qc_field Qc_laws
             (Qc_of_Z 2) (Qc_of_Z 4) (Qc_of_Z 2)).
    apply nz. discriminate.
  - apply (normalized_scale_defined Qc Qc_field Qc_laws
             (Qc_of_Z 3) (Qc_of_Z 4) (Qc_of_Z 2)); apply nz; discriminate.
  - apply (normalized_scale_defined Qc Qc_field Qc_laws
             (Qc_of_Z 3) (Qc_of_Z 4) (Qc_of_Z 2)).
    apply nz. discriminate.
  - apply (normalized_scale_defined Qc Qc_field Qc_laws
             (Qc_of_Z 3) (Qc_of_Z 4) (Qc_of_Z 2)).
Defined.

(** ** The gcd of rational numbers *)

Module GcdFacts.

Lemma Qgcd_compat (x x' y y' : Q) :
  x == x' -> y == y' -> Qgcd x y == Qgcd x' y'.
Proof.
  destruct x as [a b], x' as [a' b'], y as [c d], y' as [c' d'].
  unfold Qeq, Qgcd. simpl. intros Hx Hy.
  rewrite !Pos2Z.inj_mul.
  rewrite <- Z.gcd_mul_mono_r_nonneg by lia.
  rewrite <- (Z.gcd_mul_mono_r_nonneg (a' * Z.pos d')) by lia.
  f_equal.
  - transitivity (a * Z.pos b' * (Z.pos d * Z.pos d')); [ring|].
    rewrite Hx. ring.
  - transitivity (c * Z.pos d' * (Z.pos b * Z.pos b')); [ring|].
    rewrite Hy. ring.
Qed.

Lemma Qgcd_scale (k x y : Q) :
  0 < Qnum k -> Qgcd (k * x) (k * y) == k * Qgcd x y.
Proof.
  destruct k as [m n], x as [a b], y as [c d].
  unfold Qeq, Qgcd, Qmult. simpl. intro Hm.
  rewrite !Pos2Z.inj_mul.
  replace (m * a * (Z.pos n * Z.pos d))
    with (m * Z.pos n * (a * Z.pos d)) by ring.
  replace (m * c * (Z.pos n * Z.pos b))
    with (m * Z.pos n * (c * Z.pos b)) by ring.
  rewrite Z.gcd_mul_mono_l_nonneg by lia. ring.
Qed.

Lemma Qgcd_nonneg (x y : Q) : 0 <= Qnum (Qgcd x y).
Proof. unfold Qgcd. simpl. apply Z.gcd_nonneg. Qed.

Lemma Qred_num_nonneg (q : Q) : 0 <= Qnum q -> 0 <= Qnum (Qred q).
Proof.
  intro H. pose proof (Qred_correct q) as E. unfold Qeq in E.
  destruct (Qred q) as [n d], q as [a b]. simpl in *. nia.
Qed.

Lemma Qred_num_pos (q : Q) : 0 < Qnum q -> 0 < Qnum (Qred q).
Proof.
  intro H. pose proof (Qred_correct q) as E. unfold Qeq in E.
  destruct (Qred q) as [n d], q as [a b]. simpl in *. nia.
Qed.

Lemma Qc_num_zero (x : Qc) : Qnum x = 0 -> x = zero.
Proof.
  intro H. apply Qc_is_canon. destruct x as [[n d] Hc]. simpl in *.
  subst n. reflexivity.
Qed.

Lemma Qc_gcd_nonneg (x y : Qc) : 0 <= Qnum (Qc_gcd x y).
Proof. apply Qred_num_nonneg, Qgcd_nonneg. Qed.

Lemma Qc_gcd_scale (k x y : Qc) :
  0 < Qnum k -> Qc_gcd (k * x)%Qc (k * y)%Qc = (k * Qc_gcd x y)%Qc.
Proof.
  intro Hk. apply Qc_is_canon. unfold Qc_gcd, Qcmult, Q2Qc. cbn [this].
  etransitivity; [apply Qred_correct|].
  symmetry. etransitivity; [apply Qred_correct|]. symmetry.
  transitivity (Qgcd (k * x) (k * y));
    [apply Qgcd_compat; apply Qred_correct|].
  transitivity (k * Qgcd x y)%Q; [now apply Qgcd_scale|].
  apply Qmult_comp; [reflexivity | symmetry; apply Qred_correct].
Qed.

Lemma Qc_inv_num_pos (g : Qc) : 0 < Qnum g -> 0 < Qnum (/ g)%Qc.
Proof.
  intro H. unfold Qcinv, Q2Qc, this. apply Qred_num_pos.
  destruct g as [[n d] Hc]. simpl in *. unfold Qinv. simpl.
  destruct n; try lia. simpl. lia.
Qed.

Lemma fold_gcd_nonneg (l : list Qc) (acc : Qc) :
  0 <= Qnum acc -> 0 <= Qnum (fold_left (fun g v => gcd v g) l acc).
Proof.
  revert acc. induction l as [|x l IH]; intros acc H; simpl; [exact H|].
  apply IH. apply Qc_gcd_nonneg.
Qed.

Lemma fold_gcd_scale (k : Qc) (l : list Qc) (acc : Qc) :
  0 < Qnum k ->
  fold_left (fun g v => gcd v g) (map (Qcmult k) l) (k * acc)%Qc
  = (k * fold_left (fun g v => gcd v g) l acc)%Qc.
Proof.
  intro Hk. revert acc. induction l as [|x l IH]; intro acc; simpl;
    [reflexivity|].
  rewrite <- IH. f_equal. now apply Qc_gcd_scale.
Qed.

(** Dividing the entries of a tuple by their gcd leaves a tuple of gcd
    one. *)
Lemma gcd_list_normalised (l : list Qc) :
  gcd_list l <> zero ->
  gcd_list (map (fun c => (c * inv (gcd_list l))%K) l) = one.
Proof.
  intro Hg. set (g := gcd_list l) in *.
  assert (Hpos : 0 < Qnum g).
  { assert (0 <= Qnum g) by (apply fold_gcd_nonneg; simpl; lia).
    assert (Qnum g <> 0) by (intro E; now apply Hg, Qc_num_zero).
    lia. }
  assert (Hk : 0 < Qnum (/ g)%Qc) by now apply Qc_inv_num_pos.
  rewrite (map_ext _ (Qcmult (/ g)))
    by (intro c; apply Qcmult_comm).
  unfold gcd_list.
  replace (zero : Qc) with (/ g * zero)%Qc by apply Qcmult_0_r.
  rewrite (fold_gcd_scale _ _ _ Hk).
  fold (gcd_list l). fold g. now apply Qcmult_inv_l.
Qed.

End GcdFacts.

(** ** The [coprime] option *)

Section CoprimeFacts.

Context {K : Type} {F : ExactField K} {L : ExactFieldLaws K}.

Lemma bind_ret_inv {A B : Type} (c : result A) (k : A -> result B) (b : B) :
  bind c k = ret b -> exists a, c = ret a /\ k a = ret b.
Proof.
  destruct c as [e|a]; simpl; [discriminate|]. intro H. now exists a.
Qed.

Lemma mapM_length {A B : Type} (f : A -> result B) (l : list A)
    (ys : list B) :
  mapM f l = ret ys -> List.length ys = List.length l.
Proof.
  revert ys. induction l as [|x l IH]; intros ys H; simpl in H.
  - injection H as <-. reflexivity.
  - apply bind_ret_inv in H as (y & _ & H).
    apply bind_ret_inv in H as (zs & Hzs & H).
    injection H as <-. simpl. f_equal. now apply IH.
Qed.

Lemma pdiv_ret_inv (x y q : K) :
  pdiv x y = ret q -> y <> zero /\ q = (x * inv y)%K.
Proof.
  unfold pdiv. destruct (y == zero)%K eqn:E; [discriminate|].
  intro H. injection H as <-. split; [now apply eqb_false | reflexivity].
Qed.

(** [tuple([coeffs[i]/gcd(coeffs) for i in range(6)])]. *)
Lemma divide_by_gcd (coeffs t : list K) (g : K) :
  List.length coeffs = 6%nat ->
  mapM (fun i => c <- getitem coeffs i ;; pdiv c g) (seq 0 6) = ret t ->
  g <> zero /\ t = map (fun c => (c * inv g)%K) coeffs.
Proof.
  intros Hlen H.
  destruct coeffs as [|c0 [|c1 [|c2 [|c3 [|c4 [|c5 [|c6 l]]]]]]];
    try discriminate Hlen.
  cbn [seq mapM getitem nth_error] in H. rewrite !bind_ret_l in H.
  unfold pdiv in H. destruct (g == zero)%K eqn:E; [discriminate H|].
  rewrite !bind_ret_l in H. injection H as <-.
  split; [now apply eqb_false | reflexivity].
Qed.

Lemma quintic_tail_coprime (A B R : K) (scale : list surd)
    (i3 D Delta a1 B0 B1 C0 C1 : K) (t : list K) :
  quintic_tail "coprime" A B R scale i3 D Delta a1 B0 B1 C0 C1 = ret t ->
  exists coeffs,
    gcd_list coeffs <> zero
    /\ t = map (fun c => (c * inv (gcd_list coeffs))%K) coeffs.
Proof.
  unfold quintic_tail. intro H.
  apply bind_ret_inv in H as (i2 & _ & H).
  apply bind_ret_inv in H as (i4 & _ & H).
  apply bind_ret_inv in H as (coeffs & Hco & H).
  change ("coprime" =? "coprime")%string with true in H. cbv iota in H.
  apply mapM_length in Hco. simpl in Hco.
  exists coeffs. now apply divide_by_gcd.
Qed.

(** What the case analysis returns under [scaling == 'coprime']: one of
    the five tuples of the degenerate configurations, or the coefficients
    divided by their gcd. *)
Lemma quintic_cases_coprime (st : clebsch) (t : list K) :
  quintic_cases "coprime" st = ret t ->
  In t (map literal [[1; 0; 0; 0; 0; 1]; [0; 1; 0; 0; 1; 0];
                     [1; 0; 0; 0; 1; 0]; [1; 0; 10; 0; -15; 0];
                     [1; 0; 0; 1; 0; 0]])
  \/ exists coeffs,
       gcd_list coeffs <> zero
       /\ t = map (fun c => (c * inv (gcd_list coeffs))%K) coeffs.
Proof.
  destruct st as [A B C M N R]. unfold quintic_cases.
  change ("coprime" =? "normalized")%string with false. cbv iota.
  rewrite !bind_ret_l.
  assert (Hag : forall scale,
             quintic_alpha_gamma "coprime" A B C N R scale = ret t ->
             exists coeffs,
               gcd_list coeffs <> zero
               /\ t = map (fun c => (c * inv (gcd_list coeffs))%K) coeffs).
  { intros scale H. unfold quintic_alpha_gamma in H.
    apply bind_ret_inv in H as (i3 & _ & H).
    apply bind_ret_inv in H as (i2 & _ & H).
    now apply quintic_tail_coprime in H. }
  assert (Hab : forall scale,
             quintic_alpha_beta "coprime" A B M N R scale = ret t ->
             exists coeffs,
               gcd_list coeffs <> zero
               /\ t = map (fun c => (c * inv (gcd_list coeffs))%K) coeffs).
  { intros scale H. unfold quintic_alpha_beta in H.
    apply bind_ret_inv in H as (i3 & _ & H).
    apply bind_ret_inv in H as (i2 & _ & H).
    now apply quintic_tail_coprime in H. }
  destruct (M == zero)%K; [destruct (N == zero)%K | destruct (R == zero)%K];
    destruct (A == zero)%K; try destruct (B == zero)%K;
    intro H;
    first [ discriminate H
          | injection H as <-; left; simpl; tauto
          | right; eauto ].
Qed.

End CoprimeFacts.

Import GcdFacts.

(** C10.  Over the rationals, every tuple returned under
    [scaling == 'coprime'] has gcd one: the five tuples of the degenerate
    configurations, returned as they are, and the coefficients of the
    general formulas, each divided by the gcd of the six. *)
Theorem coprime_coefficients_gcd_one
    (invariants : list Qc) (invariant_choice : string) (t : list Qc) :
  binary_quintic_from_invariants invariants invariant_choice "coprime" = ret t ->
  gcd_list t = one.
Proof.
  unfold binary_quintic_from_invariants. intro H.
  apply bind_ret_inv in H as (st & _ & H).
  apply quintic_cases_coprime in H as [H | (coeffs & Hg & ->)].
  - simpl in H.
    destruct H as [<- | [<- | [<- | [<- | [<- | []]]]]];
      apply Qc_ext; vm_compute; reflexivity.
  - now apply gcd_list_normalised.
Qed.

Lemma coprime_coefficients_gcd_one_witness :
  binary_quintic_from_invariants (map Qc_of_Z [3; 4; 7]) "clebsch" "coprime"
  = ret (map Qc_of_Z [-2048; 3840; 0; 876960; 2724840; -613089])
  /\ gcd_list (map Qc_of_Z [-2048; 3840; 0; 876960; 2724840; -613089]) = one.
Proof.
  assert (E : binary_quintic_from_invariants (map Qc_of_Z [3; 4; 7])
                "clebsch" "coprime"
              = ret (map Qc_of_Z [-2048; 3840; 0; 876960; 2724840; -613089]))
    by (apply fractions_ext; vm_compute; reflexivity).
  split; [exact E|].
  exact (coprime_coefficients_gcd_one _ _ _ E).
Defined.

(** ** Multiplicities of primes *)

Module ValuationFacts.

Lemma Zval_fuel_nonneg (fuel : nat) (p n : Z) : 0 <= Zval_fuel fuel p n.
Proof.
  revert n. induction fuel as [|f IH]; intro n; cbn [Zval_fuel]; [lia|].
  destruct (n mod p =? 0); [specialize (IH (n / p)) |]; lia.
Qed.

(** [Zval_fuel] counts the powers of [p] that divide [n]. *)
Lemma Zval_fuel_spec (fuel : nat) (p n k : Z) :
  2 <= p -> 0 < n < 2 ^ Z.of_nat fuel -> 0 <= k ->
  (p ^ k | n) <-> k <= Zval_fuel fuel p n.
Proof.
  intro Hp. revert n k. induction fuel as [|f IH]; intros n k Hn Hk.
  - simpl in Hn. lia.
  - cbn [Zval_fuel]. destruct (n mod p =? 0) eqn:E.
    + apply Z.eqb_eq in E.
      assert (Hnm : n = p * (n / p)) by (apply Z.div_exact; lia).
      set (m := n / p) in *.
      assert (Hm : 0 < m < 2 ^ Z.of_nat f).
      { rewrite Nat2Z.inj_succ, Z.pow_succ_r in Hn by lia. nia. }
      pose proof (Zval_fuel_nonneg f p m) as Hv.
      destruct (Z.eq_dec k 0) as [->|Hk0].
      * split; [lia|]. intros _. rewrite Z.pow_0_r. apply Z.divide_1_l.
      * replace k with (Z.succ (k - 1)) at 1 by lia.
        rewrite Z.pow_succ_r by lia. rewrite Hnm.
        rewrite Z.mul_divide_cancel_l by lia.
        rewrite (IH m (k - 1)) by lia. lia.
    + apply Z.eqb_neq in E. split.
      * intro H. destruct (Z.eq_dec k 0) as [->|Hk0]; [lia|].
        exfalso. apply E. apply Z.mod0_divide.
        apply Z.divide_trans with (p ^ k); [|exact H].
        replace k with (Z.succ (k - 1)) by lia.
        rewrite Z.pow_succ_r by lia. apply Z.divide_factor_l.
      * intro H. assert (k = 0) as -> by lia.
        rewrite Z.pow_0_r. apply Z.divide_1_l.
Qed.

Lemma Zval_nonneg (p n : Z) : 0 <= Zval p n.
Proof. apply Zval_fuel_nonneg. Qed.

Lemma Zval_spec (p n k : Z) :
  2 <= p -> n <> 0 -> 0 <= k -> (p ^ k | n) <-> k <= Zval p n.
Proof.
  intros Hp Hn Hk. unfold Zval. rewrite <- Z.divide_abs_r.
  apply Zval_fuel_spec; try assumption.
  assert (Ha : 0 < Z.abs n) by lia. split; [exact Ha|].
  pose proof (Z.log2_spec _ Ha) as [_ H].
  pose proof (Z.log2_nonneg (Z.abs n)).
  rewrite Nat2Z.inj_succ, Z2Nat.id by lia. exact H.
Qed.

Lemma Zval_divide (p n : Z) : 2 <= p -> n <> 0 -> (p ^ Zval p n | n).
Proof.
  intros Hp Hn. apply Zval_spec; try assumption; [apply Zval_nonneg | lia].
Qed.

Lemma Zval_unique (p n v : Z) :
  2 <= p -> n <> 0 -> 0 <= v ->
  (p ^ v | n) -> ~ (p ^ (v + 1) | n) -> Zval p n = v.
Proof.
  intros Hp Hn Hv H1 H2.
  apply (Zval_spec p n v Hp Hn Hv) in H1.
  assert (~ v + 1 <= Zval p n).
  { intro H. apply H2. apply Zval_spec; try assumption; lia. }
  lia.
Qed.

Lemma Zval_not_divide (p n : Z) :
  2 <= p -> n <> 0 -> ~ (p ^ (Zval p n + 1) | n).
Proof.
  intros Hp Hn H. pose proof (Zval_nonneg p n).
  apply Zval_spec in H; try assumption; lia.
Qed.

Lemma Zval_mul (p a b : Z) :
  Z.prime p -> a <> 0 -> b <> 0 -> Zval p (a * b) = Zval p a + Zval p b.
Proof.
  intros Pp Ha Hb. pose proof (Z.prime_ge_2 p Pp) as Hp.
  pose proof (Zval_nonneg p a) as Hi. pose proof (Zval_nonneg p b) as Hj.
  destruct (Zval_divide p a Hp Ha) as [a' Ea].
  destruct (Zval_divide p b Hp Hb) as [b' Eb].
  pose proof (Zval_not_divide p a Hp Ha) as Na.
  pose proof (Zval_not_divide p b Hp Hb) as Nb.
  set (i := Zval p a) in *. set (j := Zval p b) in *. clearbody i j.
  apply Zval_unique; try assumption; try lia.
  - exists (a' * b'). rewrite Z.pow_add_r by lia.
    rewrite Ea at 1. rewrite Eb at 1. ring.
  - intro H.
    assert (Hpow : p ^ (i + j) <> 0) by (apply Z.pow_nonzero; lia).
    assert (D : (p | a' * b')).
    { apply (Z.mul_divide_cancel_l _ _ (p ^ (i + j)) Hpow).
      replace (p ^ (i + j) * p) with (p ^ (i + j + 1))
        by (rewrite (Z.pow_add_r p (i + j) 1) by lia; ring).
      replace (p ^ (i + j) * (a' * b')) with (a * b);
        [exact H|].
      rewrite Ea at 1. rewrite Eb at 1. rewrite Z.pow_add_r by lia. ring. }
    apply Z.divide_prime_mul in D; [|exact Pp].
    destruct D as [[c Ec] | [c Ec]].
    + apply Na. exists c. rewrite Ea, Ec, Z.pow_add_r by lia. ring.
    + apply Nb. exists c. rewrite Eb, Ec, Z.pow_add_r by lia. ring.
Qed.

Lemma Zval_gcd (p a b : Z) :
  2 <= p -> a <> 0 -> b <> 0 ->
  Zval p (Z.gcd a b) = Z.min (Zval p a) (Zval p b).
Proof.
  intros Hp Ha Hb.
  pose proof (Zval_nonneg p a) as Hi. pose proof (Zval_nonneg p b) as Hj.
  assert (Hg : Z.gcd a b <> 0).
  { intro E. apply Z.gcd_eq_0_l in E. contradiction. }
  apply Zval_unique; try assumption; try lia.
  - apply Z.gcd_greatest; apply Zval_spec; try assumption; lia.
  - intro H. apply Z.gcd_divide_iff in H as [H1 H2].
    apply Zval_spec in H1, H2; try assumption; lia.
Qed.

Lemma Zval_small (p n : Z) : 2 <= p -> 0 < Z.abs n < p -> Zval p n = 0.
Proof.
  intros Hp Hn. apply Zval_unique; try lia.
  - rewrite Z.pow_0_r. apply Z.divide_1_l.
  - change (0 + 1) with 1. rewrite Z.pow_1_r. intro H.
    apply Z.divide_abs_r in H. apply Z.divide_pos_le in H; lia.
Qed.

Lemma Zval_self (p : Z) : 2 <= p -> Zval p p = 1.
Proof.
  intro Hp. apply Zval_unique; try lia.
  - rewrite Z.pow_1_r. apply Z.divide_refl.
  - change (1 + 1) with 2. rewrite Z.pow_2_r. intro H.
    apply Z.divide_pos_le in H; nia.
Qed.

Lemma Zval_prime_other (p q : Z) :
  Z.prime p -> Z.prime q -> p <> q -> Zval p q = 0.
Proof.
  intros Pp Pq Hne. pose proof (Z.prime_ge_2 p Pp). 
  pose proof (Z.prime_ge_2 q Pq).
  apply Zval_unique; try lia.
  - rewrite Z.pow_0_r. apply Z.divide_1_l.
  - change (0 + 1) with 1. rewrite Z.pow_1_r. intro D. apply Hne.
    now apply Z.divide_prime_prime.
Qed.

Lemma Zval_abs (p n : Z) : Zval p (Z.abs n) = Zval p n.
Proof. unfold Zval. now rewrite Z.abs_idemp. Qed.

(** The multiplicity in a rational does not depend on the fraction that
    represents it. *)
Lemma Qval_compat (p : Z) (q q' : Q) :
  Z.prime p -> Qnum q <> 0 -> q == q' -> Qval p q = Qval p q'.
Proof.
  intros Pp Hq E. destruct q as [a b], q' as [a' b'].
  unfold Qeq in E. unfold Qval. simpl in *.
  assert (Ha' : a' <> 0) by (intros ->; nia).
  pose proof (Zval_mul p a (Z.pos b') Pp Hq ltac:(lia)) as H1.
  pose proof (Zval_mul p a' (Z.pos b) Pp Ha' ltac:(lia)) as H2.
  rewrite E in H1. lia.
Qed.

Lemma Qval_red (p : Z) (q : Q) :
  Z.prime p -> Qnum q <> 0 -> Qval p (Qred q) = Qval p q.
Proof.
  intros Pp Hq. symmetry. apply Qval_compat; try assumption.
  symmetry. apply Qred_correct.
Qed.

Lemma Qval_mult (p : Z) (x y : Q) :
  Z.prime p -> Qnum x <> 0 -> Qnum y <> 0 ->
  Qval p (x * y) = Qval p x + Qval p y.
Proof.
  intros Pp Hx Hy. destruct x as [a b], y as [c d].
  unfold Qval, Qmult. simpl in *. rewrite Pos2Z.inj_mul.
  rewrite !Zval_mul by (try assumption; lia). lia.
Qed.

Lemma Qval_inv (p : Z) (x : Q) :
  Qnum x <> 0 -> Qval p (/ x) = - Qval p x.
Proof.
  destruct x as [[|a|a] b]; unfold Qval, Qinv; cbn [Qnum Qden]; intro H.
  - contradiction.
  - lia.
  - rewrite <- (Zval_abs p (Z.neg b)), <- (Zval_abs p (Z.neg a)).
    cbn [Z.abs]. lia.
Qed.

Lemma Qval_gcd (p : Z) (x y : Q) :
  Z.prime p -> Qnum x <> 0 -> Qnum y <> 0 ->
  Qval p (Qgcd x y) = Z.min (Qval p x) (Qval p y).
Proof.
  intros Pp Hx Hy. pose proof (Z.prime_ge_2 p Pp) as Hp.
  destruct x as [a b], y as [c d].
  unfold Qval, Qgcd. simpl in *. rewrite Pos2Z.inj_mul.
  rewrite Zval_gcd by (try assumption; nia).
  rewrite !Zval_mul by (try assumption; lia). lia.
Qed.

Lemma Qval_gcd_0 (p : Z) (x : Q) : Qval p (Qgcd x 0) = Qval p x.
Proof.
  destruct x as [a b]. unfold Qval, Qgcd. simpl.
  rewrite Z.mul_1_r, Z.gcd_0_r, Zval_abs, Pos.mul_1_r. reflexivity.
Qed.

(** Nonzero canonical rationals. *)
Lemma Qc_nonzero_num (x : Qc) : x <> zero <-> Qnum x <> 0.
Proof.
  split.
  - intros H E. apply H. now apply GcdFacts.Qc_num_zero.
  - intros H E. apply H. now rewrite E.
Qed.

Lemma Qc_mult_nonzero (x y : Qc) :
  x <> zero -> y <> zero -> (x * y)%Qc <> zero.
Proof.
  intros Hx Hy E. destruct (Qcmult_integral _ _ E); contradiction.
Qed.

Lemma Qc_inv_nonzero (x : Qc) : x <> zero -> (/ x)%Qc <> zero.
Proof.
  intros Hx E. pose proof (Qcmult_inv_r x Hx) as H.
  change zero with (Q2Qc 0) in E. rewrite E, Qcmult_0_r in H.
  apply (f_equal this) in H. discriminate H.
Qed.

Lemma Qc_val_mult (p : Z) (x y : Qc) :
  Z.prime p -> x <> zero -> y <> zero ->
  Qval p (x * y)%Qc = Qval p x + Qval p y.
Proof.
  intros Pp Hx Hy. apply Qc_nonzero_num in Hx, Hy.
  unfold Qcmult, Q2Qc. cbn [this].
  rewrite Qval_red; [now apply Qval_mult | assumption |].
  destruct (this x) as [a b], (this y) as [c d]. simpl in *. nia.
Qed.

Lemma Qc_val_inv (p : Z) (x : Qc) :
  Z.prime p -> x <> zero -> Qval p (/ x)%Qc = - Qval p x.
Proof.
  intros Pp Hx. unfold Qcinv, Q2Qc. cbn [this].
  apply Qc_nonzero_num in Hx.
  rewrite Qval_red; [now apply Qval_inv | assumption |].
  destruct (this x) as [[|a|a] b]; simpl in *; lia.
Qed.

Lemma Qc_val_one (p : Z) : 2 <= p -> Qval p (one : Qc) = 0.
Proof.
  intro Hp. change (Qval p (this one)) with (Zval p 1 - Zval p 1). lia.
Qed.

Lemma Qc_val_npow (p : Z) (x : Qc) (n : nat) :
  Z.prime p -> x <> zero ->
  npow x n <> zero /\ Qval p (npow x n) = Z.of_nat n * Qval p x.
Proof.
  intros Pp Hx. pose proof (Z.prime_ge_2 p Pp) as Hp.
  induction n as [|n [IH1 IH2]].
  - split; [apply (one_neq_zero (K := Qc)) | now apply Qc_val_one].
  - cbn [npow]. split; [now apply Qc_mult_nonzero|].
    change (mul x (npow x n)) with (x * npow x n)%Qc.
    rewrite Qc_val_mult, IH2 by assumption. lia.
Qed.

Lemma Qc_of_Z_this (n : Z) : this (Qc_of_Z n) = n # 1.
Proof.
  unfold Qc_of_Z, Q2Qc, inject_Z. cbn [this].
  apply Qred_identity. cbn [Qnum Qden]. apply Z.gcd_1_r.
Qed.

Lemma Qc_of_Z_inj (m n : Z) : Qc_of_Z m = Qc_of_Z n -> m = n.
Proof.
  intro H. apply (f_equal this) in H. rewrite !Qc_of_Z_this in H.
  now injection H.
Qed.

Lemma Qc_val_of_Z (p n : Z) : 2 <= p -> Qval p (Qc_of_Z n) = Zval p n.
Proof.
  intro Hp. rewrite Qc_of_Z_this. unfold Qval. cbn [Qnum Qden].
  rewrite (Zval_small p 1) by lia. lia.
Qed.

End ValuationFacts.

(** ** Factorisations *)

Module FactorFacts.

Import ValuationFacts.

Lemma In_Zrange_from (lo : Z) (n : nat) (d : Z) :
  In d (Zrange_from lo n) <-> lo <= d < lo + Z.of_nat n.
Proof.
  revert lo. induction n as [|n IH]; intro lo; cbn [Zrange_from In].
  - lia.
  - rewrite IH. lia.
Qed.

Lemma In_Zrange (lo hi d : Z) : In d (Zrange lo hi) <-> lo <= d <= hi.
Proof. unfold Zrange. rewrite In_Zrange_from. lia. Qed.

Lemma NoDup_Zrange_from (lo : Z) (n : nat) : NoDup (Zrange_from lo n).
Proof.
  revert lo. induction n as [|n IH]; intro lo; cbn [Zrange_from].
  - constructor.
  - constructor; [|apply IH]. rewrite In_Zrange_from. lia.
Qed.

Lemma is_prime_spec (p : Z) : is_prime p = true <-> Z.prime p.
Proof.
  unfold is_prime, Z.prime.
  rewrite andb_true_iff, Z.leb_le, forallb_forall. split.
  - intros [H2 H]. split; [lia|]. intros n Hn D.
    specialize (H n (proj2 (In_Zrange 2 (p - 1) n) ltac:(lia))).
    apply negb_true_iff, Z.eqb_neq in H. apply H.
    now apply Z.mod0_divide.
  - intros [H1 H]. split; [lia|]. intros n Hn.
    apply In_Zrange in Hn. apply negb_true_iff, Z.eqb_neq. intro E.
    apply (H n); [lia|]. apply Z.mod_divide; [lia | exact E].
Qed.

(** The primes listed for [x] are those of nonzero multiplicity. *)
Lemma prime_support_spec (x : Q) (q : Z) :
  Qnum x <> 0 ->
  In q (prime_support x) <-> Z.prime q /\ Qval q x <> 0.
Proof.
  intro Hx. unfold prime_support.
  rewrite filter_In, andb_true_iff, negb_true_iff, Z.eqb_neq,
    is_prime_spec, In_Zrange.
  split; [tauto|]. intros [Pq Hv].
  pose proof (Z.prime_ge_2 q Pq) as Hq.
  split; [|tauto]. split; [exact Hq|].
  destruct (Z_le_gt_dec q (Z.max (Z.abs (Qnum x)) (Z.pos (Qden x))))
    as [Hle|Hgt]; [exact Hle|].
  exfalso. apply Hv. unfold Qval.
  rewrite !Zval_small by lia. reflexivity.
Qed.

Lemma NoDup_prime_support (x : Q) : NoDup (prime_support x).
Proof. apply NoDup_filter, NoDup_Zrange_from. Qed.

End FactorFacts.

(** ** Dictionaries of multiplicities and the gcd of a list *)

Module DictFacts.

Import ValuationFacts FactorFacts GcdFacts.

Lemma key_eqb (p q : Z) : (Qc_of_Z p == Qc_of_Z q)%K = true <-> p = q.
Proof.
  rewrite (eqb_eq (K := Qc)). split; [apply Qc_of_Z_inj | now intros ->].
Qed.

Lemma existsb_find {A : Type} (f : A -> bool) (l : list A) :
  if existsb f l then exists a, find f l = Some a /\ f a = true
  else find f l = None.
Proof.
  induction l as [|x l IH]; cbn [existsb find]; [reflexivity|].
  destruct (f x) eqn:E; cbn [orb]; [eauto | exact IH].
Qed.

Lemma find_app_last {A : Type} (f : A -> bool) (l : list A) (a : A) :
  find f (l ++ [a])
  = match find f l with
    | Some x => Some x
    | None => if f a then Some a else None
    end.
Proof.
  induction l as [|x l IH]; cbn [app find]; [reflexivity|].
  now destruct (f x).
Qed.

Lemma factor_nonzero (x : Qc) :
  x <> zero ->
  factor x = ret (map (fun p => (Qc_of_Z p, Qval p x)) (prime_support x)).
Proof.
  intro Hx. cbn [factor Qc_field]. unfold Qc_factor.
  destruct (Qc_eq_bool x (Qc_of_Z 0)) eqn:E; [|reflexivity].
  apply Qc_eq_bool_correct in E. contradiction.
Qed.

Lemma factor_represents (x : Qc) :
  x <> zero ->
  represents (map (fun p => (Qc_of_Z p, Qval p x)) (prime_support x)) x.
Proof.
  intros Hx q Pq. unfold lookup.
  apply Qc_nonzero_num in Hx.
  destruct (find _ _) as [kv|] eqn:Ef.
  - apply find_some in Ef as [Hin Hk].
    apply in_map_iff in Hin as (p & <- & _). cbn [fst snd] in *.
    apply key_eqb in Hk. now subst p.
  - destruct (Z.eq_dec (Qval q x) 0) as [E|E]; [exact E|].
    exfalso.
    assert (Hin : In q (prime_support x))
      by (apply prime_support_spec; tauto).
    pose proof (find_none _ _ Ef (Qc_of_Z q, Qval q x)
                  (in_map _ _ _ Hin)) as Hk.
    cbn [fst] in Hk. now rewrite (eqb_refl (K := Qc)) in Hk.
Qed.

Lemma represents_get (D : dict) (x : Qc) (q : Z) :
  represents D x -> Z.prime q ->
  dict_get (setdefault0 (Qc_of_Z q) D) (Qc_of_Z q) = ret (Qval q x).
Proof.
  intros HD Pq. specialize (HD q Pq). unfold lookup in HD.
  unfold setdefault0, has_key, dict_get.
  pose proof (existsb_find (fun kv => (fst kv == Qc_of_Z q)%K) D) as H.
  destruct (existsb _ D).
  - destruct H as (kv & Hf & _). rewrite Hf in *. now rewrite HD.
  - rewrite find_app_last, H in *. cbn [fst].
    rewrite (eqb_refl (K := Qc)). cbn [snd]. now rewrite HD.
Qed.

Lemma represents_setdefault (D : dict) (x : Qc) (q : Z) :
  represents D x -> Z.prime q ->
  represents (setdefault0 (Qc_of_Z q) D) x.
Proof.
  intros HD Pq r Pr. unfold setdefault0, has_key.
  pose proof (existsb_find (fun kv => (fst kv == Qc_of_Z q)%K) D) as H.
  destruct (existsb _ D); [now apply HD|].
  pose proof (HD q Pq) as Hq. unfold lookup in Hq. rewrite H in Hq.
  clear H. pose proof (HD r Pr) as Hr. unfold lookup in *.
  rewrite find_app_last.
  destruct (find (fun kv => (fst kv == Qc_of_Z r)%K) D) as [kv|];
    [exact Hr|].
  cbn [fst]. destruct (Qc_of_Z q == Qc_of_Z r)%K eqn:E; [|exact Hr].
  apply key_eqb in E. subst r. cbn [snd]. now rewrite Hq.
Qed.

(** Multiplicities in the gcd. *)
Lemma Qgcd_num_pos (x y : Q) : Qnum x <> 0 -> 0 < Qnum (Qgcd x y).
Proof.
  intro Hx. unfold Qgcd. cbn [Qnum].
  pose proof (Z.gcd_nonneg (Qnum x * Z.pos (Qden y))
                (Qnum y * Z.pos (Qden x))) as H.
  assert (Z.gcd (Qnum x * Z.pos (Qden y)) (Qnum y * Z.pos (Qden x)) <> 0).
  { intro E. apply Z.gcd_eq_0_l in E. nia. }
  lia.
Qed.

Lemma Qc_gcd_nonzero (x y : Qc) : x <> zero -> Qc_gcd x y <> zero.
Proof.
  intro Hx. apply Qc_nonzero_num in Hx. apply Qc_nonzero_num.
  unfold Qc_gcd, Q2Qc. cbn [this].
  pose proof (Qred_num_pos _ (Qgcd_num_pos x y Hx)). lia.
Qed.

Lemma Qc_val_gcd (p : Z) (x y : Qc) :
  Z.prime p -> x <> zero -> y <> zero ->
  Qval p (Qc_gcd x y) = Z.min (Qval p x) (Qval p y).
Proof.
  intros Pp Hx Hy. apply Qc_nonzero_num in Hx, Hy.
  unfold Qc_gcd, Q2Qc. cbn [this].
  rewrite Qval_red; [now apply Qval_gcd | assumption |].
  pose proof (Qgcd_num_pos x y Hx). lia.
Qed.

Lemma Qc_val_gcd_zero (p : Z) (x : Qc) :
  Z.prime p -> x <> zero -> Qval p (Qc_gcd x zero) = Qval p x.
Proof.
  intros Pp Hx. apply Qc_nonzero_num in Hx.
  unfold Qc_gcd, Q2Qc. cbn [this].
  rewrite Qval_red; [apply Qval_gcd_0 | assumption |].
  pose proof (Qgcd_num_pos x (this zero) Hx). lia.
Qed.

Lemma fold_gcd_val (p : Z) (l : list Qc) (acc : Qc) :
  Z.prime p -> acc <> zero -> Forall (fun x => x <> zero) l ->
  fold_left (fun g v => gcd v g) l acc <> zero
  /\ Qval p (fold_left (fun g v => gcd v g) l acc)
     = fold_left Z.min (map (Qval p) (map this l)) (Qval p acc).
Proof.
  intros Pp Hacc Hl. revert acc Hacc.
  induction Hl as [|x l Hx Hl IH]; intros acc Hacc; cbn [fold_left map].
  - now split.
  - change (gcd x acc) with (Qc_gcd x acc).
    destruct (IH (Qc_gcd x acc) (Qc_gcd_nonzero x acc Hx)) as [H1 H2].
    split; [exact H1|]. rewrite H2.
    rewrite Qc_val_gcd by assumption. now rewrite Z.min_comm.
Qed.

Lemma gcd_list_val (p : Z) (x : Qc) (l : list Qc) :
  Z.prime p -> x <> zero -> Forall (fun x => x <> zero) l ->
  gcd_list (x :: l) <> zero
  /\ Qval p (gcd_list (x :: l))
     = fold_left Z.min (map (Qval p) (map this l)) (Qval p x).
Proof.
  intros Pp Hx Hl. unfold gcd_list. cbn [fold_left].
  change (gcd x zero) with (Qc_gcd x zero).
  destruct (fold_gcd_val p l (Qc_gcd x zero) Pp
              (Qc_gcd_nonzero x zero Hx) Hl) as [H1 H2].
  split; [exact H1|]. rewrite H2.
  now rewrite Qc_val_gcd_zero.
Qed.

End DictFacts.

(** ** What [reduce_invariants] computes over the rationals *)

Module ReduceFacts.

Import ValuationFacts FactorFacts GcdFacts DictFacts.

Lemma ppow_zpow (x : Qc) (e : Z) : x <> zero -> ppow x e = ret (zpow x e).
Proof.
  intro Hx. unfold ppow, zpow. destruct (0 <=? e); [reflexivity|].
  now rewrite (proj2 (eqb_false (K := Qc) x zero) Hx).
Qed.

Lemma zpow_val (p : Z) (x : Qc) (e : Z) :
  Z.prime p -> x <> zero ->
  zpow x e <> zero /\ Qval p (zpow x e) = e * Qval p x.
Proof.
  intros Pp Hx. unfold zpow. destruct (0 <=? e) eqn:E.
  - apply Z.leb_le in E.
    destruct (Qc_val_npow p x (Z.to_nat e) Pp Hx) as [H1 H2].
    split; [exact H1|]. rewrite H2, Z2Nat.id by lia. reflexivity.
  - apply Z.leb_gt in E. change (inv x) with (/ x)%Qc.
    destruct (Qc_val_npow p (/ x)%Qc (Z.to_nat (- e)) Pp
                (Qc_inv_nonzero x Hx)) as [H1 H2].
    split; [exact H1|]. rewrite H2, Z2Nat.id by lia.
    rewrite Qc_val_inv by assumption. ring.
Qed.

Lemma npow_one (n : nat) : npow (one : Qc) n = one.
Proof.
  induction n as [|n IH]; cbn [npow]; [reflexivity|].
  rewrite IH. apply Qc_ext. reflexivity.
Qed.

Lemma zpow_one (e : Z) : zpow one e = one.
Proof.
  unfold zpow. destruct (0 <=? e); [apply npow_one|].
  replace (inv (one : Qc)) with (one : Qc)
    by (apply Qc_ext; reflexivity).
  apply npow_one.
Qed.

(** The least element of a nonempty list. *)
Lemma fold_min_le (xs : list Z) (x : Z) :
  fold_left Z.min xs x <= x
  /\ forall y, In y xs -> fold_left Z.min xs x <= y.
Proof.
  revert x. induction xs as [|a xs IH]; intro x; cbn [fold_left In].
  - split; [lia | tauto].
  - destruct (IH (Z.min x a)) as [H1 H2]. split; [lia|].
    intros y [<- | Hy]; [lia | now apply H2].
Qed.

Lemma fold_min_in (xs : list Z) (x : Z) : In (fold_left Z.min xs x) (x :: xs).
Proof.
  revert x. induction xs as [|a xs IH]; intro x; cbn [fold_left].
  - now left.
  - set (m := Z.min x a). destruct (IH m) as [H | H].
    + assert (Hm : m = x \/ m = a) by (unfold m; lia).
      destruct Hm as [Hm | Hm]; [left | right; left]; congruence.
    + right. right. exact H.
Qed.

Lemma fold_min_shift (c : Z) (xs : list Z) (x : Z) :
  fold_left Z.min (map (fun y => y - c) xs) (x - c)
  = fold_left Z.min xs x - c.
Proof.
  revert x. induction xs as [|a xs IH]; intro x; cbn [fold_left map];
    [reflexivity|].
  rewrite <- IH. f_equal. lia.
Qed.

(** Loops over [range(n)] that index two lists. *)
Lemma mapM_ext {A B : Type} (f g : A -> result B) (l : list A) :
  (forall x, In x l -> f x = g x) -> mapM f l = mapM g l.
Proof.
  induction l as [|x l IH]; intro H; cbn [mapM]; [reflexivity|].
  rewrite (H x (or_introl eq_refl)), IH; [reflexivity|].
  intros; apply H; now right.
Qed.

Lemma mapM_map {A B C : Type} (f : B -> result C) (g : A -> B)
    (l : list A) :
  mapM f (map g l) = mapM (fun x => f (g x)) l.
Proof.
  induction l as [|x l IH]; cbn [mapM map]; [reflexivity|].
  now rewrite IH.
Qed.

Lemma mapM_pure {A B : Type} (f : A -> result B) (g : A -> B) (l : list A) :
  (forall x, In x l -> f x = ret (g x)) -> mapM f l = ret (map g l).
Proof.
  induction l as [|x l IH]; intro H; cbn [mapM map]; [reflexivity|].
  rewrite (H x (or_introl eq_refl)), IH; [reflexivity|].
  intros; apply H; now right.
Qed.

Lemma mapM_range {A B C : Type} (f : nat -> result C)
    (g : A * B -> result C) (l1 : list A) (l2 : list B) :
  List.length l1 = List.length l2 ->
  (forall i a b, nth_error l1 i = Some a -> nth_error l2 i = Some b ->
                 f i = g (a, b)) ->
  mapM f (seq 0 (List.length l1)) = mapM g (combine l1 l2).
Proof.
  revert f l2. induction l1 as [|a l1 IH]; intros f [|b l2] Hlen Hf;
    try discriminate Hlen; [reflexivity|].
  cbn [List.length seq mapM combine].
  rewrite (Hf 0%nat a b eq_refl eq_refl).
  rewrite <- seq_shift, mapM_map.
  rewrite (IH (fun i => f (S i)) l2); [reflexivity | now injection Hlen |].
  intros i a' b' Ha Hb. now apply Hf.
Qed.

Lemma key_nonzero (q : Z) : Z.prime q -> Qc_of_Z q <> zero.
Proof.
  intros Pq E. apply Qc_of_Z_inj in E. apply Z.prime_ge_2 in Pq. lia.
Qed.

Lemma Forall2_represents_setdefault (q : Z) (factors : list dict)
    (invariants : list Qc) :
  Z.prime q -> Forall2 represents factors invariants ->
  Forall2 represents (map (setdefault0 (Qc_of_Z q)) factors) invariants.
Proof.
  intros Pq H. induction H as [|D x factors invariants HD H IH];
    cbn [map]; constructor; [now apply represents_setdefault | exact IH].
Qed.

Lemma py_floordiv_nonzero (e w : Z) :
  w <> 0 -> py_floordiv e w = ret (e / w).
Proof.
  intro H. unfold py_floordiv. now rewrite (proj2 (Z.eqb_neq w 0) H).
Qed.

(** The multiplicities read in the dictionaries, divided by the weights. *)
Lemma step_quotients (q : Z) (factors : list dict) (invariants : list Qc)
    (weights : list Z) :
  Z.prime q -> Forall2 represents factors invariants ->
  Forall (fun w => w <> 0) weights ->
  mapM (fun Dw => e <- dict_get (fst Dw) (Qc_of_Z q) ;;
                  py_floordiv e (snd Dw))
       (combine (map (setdefault0 (Qc_of_Z q)) factors) weights)
  = ret (quotients q invariants weights).
Proof.
  intros Pq H. revert weights.
  induction H as [|D x factors invariants HD H IH]; intros weights Hw.
  - reflexivity.
  - destruct weights as [|w weights]; [reflexivity|].
    inversion Hw as [|? ? Hw0 Hw']; subst.
    unfold quotients. cbn [map combine mapM fst snd].
    rewrite (represents_get D x q HD Pq), bind_ret_l.
    rewrite (py_floordiv_nonzero _ w Hw0), bind_ret_l.
    fold (quotients q invariants weights). rewrite (IH weights Hw').
    reflexivity.
Qed.

Lemma py_min_quotients (q : Z) (invariants : list Qc) (weights : list Z) :
  invariants <> [] -> weights <> [] ->
  py_min (quotients q invariants weights)
  = ret (exponent q invariants weights).
Proof.
  intros Hi Hw. unfold exponent.
  destruct invariants as [|x l]; [contradiction|].
  destruct weights as [|w ws]; [contradiction|]. reflexivity.
Qed.

(** One turn of the loop multiplies the scalar by the prime to the least
    quotient. *)
Lemma reduce_step_eq (q e0 : Z) (factors : list dict)
    (invariants : list Qc) (weights : list Z) (s : Qc) :
  Z.prime q -> Forall2 represents factors invariants ->
  invariants <> [] -> List.length weights = List.length invariants ->
  Forall (fun w => w <> 0) weights ->
  reduce_step weights (List.length weights) (factors, s) (Qc_of_Z q, e0)
  = ret (map (setdefault0 (Qc_of_Z q)) factors,
         (s * zpow (Qc_of_Z q) (exponent q invariants weights))%Qc).
Proof.
  intros Pq HF Hne Hlen Hw. unfold reduce_step. cbn [fst].
  assert (Hlf : List.length weights
                = List.length (map (setdefault0 (Qc_of_Z q)) factors)).
  { rewrite length_map, Hlen. symmetry. exact (Forall2_length HF). }
  rewrite Hlf at 1.
  rewrite (mapM_range _
             (fun Dw => e <- dict_get (fst Dw) (Qc_of_Z q) ;;
                        py_floordiv e (snd Dw))
             _ weights (eq_sym Hlf)).
  - rewrite (step_quotients q factors invariants weights Pq HF Hw).
    rewrite bind_ret_l, py_min_quotients, bind_ret_l;
      [| assumption | destruct weights, invariants; try discriminate;
                      congruence].
    rewrite (ppow_zpow _ _ (key_nonzero q Pq)), bind_ret_l. reflexivity.
  - intros i D w HD Hwi. unfold getitem. rewrite HD, Hwi.
    rewrite bind_ret_l. reflexivity.
Qed.

Lemma foldM_reduce_step (v : Z -> Z) (P : list Z) (factors : list dict)
    (invariants : list Qc) (weights : list Z) (s : Qc) :
  Forall Z.prime P -> Forall2 represents factors invariants ->
  invariants <> [] -> List.length weights = List.length invariants ->
  Forall (fun w => w <> 0) weights ->
  exists factors',
    foldM (reduce_step weights (List.length weights)) (factors, s)
      (map (fun p => (Qc_of_Z p, v p)) P)
    = ret (factors', scalar_of P invariants weights s).
Proof.
  intros HP. revert factors s.
  induction HP as [|q P Pq HP IH]; intros factors s HF Hne Hlen Hw.
  - exists factors. reflexivity.
  - cbn [map foldM].
    rewrite (reduce_step_eq q (v q) factors invariants weights s
               Pq HF Hne Hlen Hw), bind_ret_l.
    apply IH; try assumption.
    now apply Forall2_represents_setdefault.
Qed.

Lemma scalar_of_val (r : Z) (P : list Z) (invariants : list Qc)
    (weights : list Z) (s0 : Qc) :
  Z.prime r -> Forall Z.prime P -> NoDup P -> s0 <> zero ->
  scalar_of P invariants weights s0 <> zero
  /\ Qval r (scalar_of P invariants weights s0)
     = Qval r s0
       + (if in_dec Z.eq_dec r P then exponent r invariants weights else 0).
Proof.
  intros Pr HP. revert s0.
  induction HP as [|q P Pq HP IH]; intros s0 Hnd Hs0; cbn [scalar_of fold_left].
  - split; [exact Hs0 | cbn; lia].
  - inversion Hnd as [|? ? Hq Hnd']; subst.
    destruct (zpow_val r (Qc_of_Z q) (exponent q invariants weights) Pr
                (key_nonzero q Pq)) as [Hz Hv].
    pose proof (Qc_mult_nonzero _ _ Hs0 Hz) as Hs1.
    destruct (IH _ Hnd' Hs1) as [H1 H2].
    split; [exact H1|]. unfold scalar_of in H2. rewrite H2.
    rewrite Qc_val_mult, Hv by assumption.
    rewrite Qc_val_of_Z by (apply Z.prime_ge_2; assumption).
    pose proof (Z.prime_ge_2 r Pr). pose proof (Z.prime_ge_2 q Pq).
    destruct (in_dec Z.eq_dec r (q :: P)) as [Hin | Hnin];
      destruct (in_dec Z.eq_dec r P) as [Hin' | Hnin'].
    + assert (r <> q) by (intros ->; contradiction).
      rewrite Zval_prime_other by assumption. lia.
    + destruct Hin as [<- | Hin]; [|contradiction].
      rewrite Zval_self by assumption. lia.
    + exfalso. apply Hnin. now right.
    + assert (r <> q) by (intros ->; apply Hnin; now left).
      rewrite Zval_prime_other by assumption. lia.
Qed.

Lemma prime_support_primes (x : Qc) :
  x <> zero -> Forall Z.prime (prime_support x).
Proof.
  intro Hx. apply Forall_forall. intros q Hq.
  apply prime_support_spec in Hq; [tauto | now apply Qc_nonzero_num].
Qed.

Lemma gcd_list_nonzero (invariants : list Qc) :
  invariants <> [] -> Forall (fun x => x <> zero) invariants ->
  gcd_list invariants <> zero.
Proof.
  intros Hne Hnz. destruct invariants as [|x l]; [contradiction|].
  inversion Hnz; subst. now apply (gcd_list_val 2 x l Z.prime_2).
Qed.

(** [reduce_invariants] on a nonempty list of nonzero rationals with as many
    positive weights: every invariant is multiplied by the scalar to the
    power minus its weight. *)
Lemma reduce_invariants_eq (invariants : list Qc) (weights : list Z) :
  invariants <> [] -> Forall (fun x => x <> zero) invariants ->
  List.length weights = List.length invariants ->
  Forall (fun w => 0 < w) weights ->
  reduce_invariants invariants weights
  = ret (reduced invariants weights
           (scalar_of (prime_support (gcd_list invariants)) invariants
              weights one)).
Proof.
  intros Hne Hnz Hlen Hpos.
  assert (Hw : Forall (fun w => w <> 0) weights)
    by (eapply Forall_impl; [|exact Hpos]; cbv beta; intros; lia).
  pose proof (gcd_list_nonzero invariants Hne Hnz) as Hg.
  unfold reduce_invariants.
  rewrite (mapM_pure factor
             (fun x : Qc => map (fun p => (Qc_of_Z p, Qval p x))
                              (prime_support x)))
    by (intros x Hx; apply factor_nonzero;
        exact (proj1 (Forall_forall _ _) Hnz x Hx)).
  rewrite bind_ret_l, (factor_nonzero _ Hg), bind_ret_l.
  destruct (foldM_reduce_step (fun p => Qval p (gcd_list invariants))
              (prime_support (gcd_list invariants))
              (map (fun x : Qc => map (fun p => (Qc_of_Z p, Qval p x))
                                    (prime_support x)) invariants)
              invariants weights one) as [factors' Hf]; try assumption.
  - now apply prime_support_primes.
  - clear - Hnz. induction Hnz as [|x l Hx Hl IH]; cbn [map];
      constructor; [now apply factor_represents | exact IH].
  - match goal with
    | |- bind ?c _ = _ =>
        replace c
          with (ret (A := list dict * Qc)
                  (factors',
                   scalar_of (prime_support (gcd_list invariants))
                     invariants weights one))
          by (symmetry; exact Hf)
    end.
    rewrite bind_ret_l.
    set (s := scalar_of _ invariants weights one).
    assert (Hs : s <> zero).
    { apply (scalar_of_val 2 _ invariants weights one Z.prime_2).
      - now apply prime_support_primes.
      - apply NoDup_prime_support.
      - apply (one_neq_zero (K := Qc)). }
    rewrite Hlen.
    rewrite (mapM_range _
               (fun Iw => s' <- ppow s (- snd Iw) ;;
                          ret (fst Iw * s')%K)
               invariants weights (eq_sym Hlen)).
    + unfold reduced. apply mapM_pure. intros [I w] _. cbn [fst snd].
      now rewrite (ppow_zpow s (- w) Hs), bind_ret_l.
    + intros i I w HI Hwi. unfold getitem. rewrite HI, Hwi.
      rewrite !bind_ret_l. reflexivity.
Qed.

Lemma reduced_length (invariants : list Qc) (weights : list Z) (s : Qc) :
  List.length weights = List.length invariants ->
  List.length (reduced invariants weights s) = List.length invariants.
Proof.
  intro H. unfold reduced. rewrite length_map, length_combine. lia.
Qed.

Lemma reduced_nonzero (invariants : list Qc) (weights : list Z) (s : Qc) :
  s <> zero -> Forall (fun x => x <> zero) invariants ->
  Forall (fun x => x <> zero) (reduced invariants weights s).
Proof.
  intros Hs Hnz. apply Forall_forall. intros y Hy. unfold reduced in Hy.
  apply in_map_iff in Hy as ([I w] & <- & Hin). cbn [fst snd].
  apply in_combine_l in Hin.
  apply Qc_mult_nonzero;
    [exact (proj1 (Forall_forall _ _) Hnz I Hin)|].
  now apply (zpow_val 2 s (- w) Z.prime_2).
Qed.

Lemma quotients_reduced (r : Z) (invariants : list Qc) (weights : list Z)
    (s : Qc) :
  Z.prime r -> s <> zero -> Forall (fun x => x <> zero) invariants ->
  Forall (fun w => 0 < w) weights ->
  quotients r (reduced invariants weights s) weights
  = map (fun e => e - Qval r s) (quotients r invariants weights).
Proof.
  intros Pr Hs Hnz. revert weights.
  induction Hnz as [|x l Hx Hl IH]; intros weights Hpos; [reflexivity|].
  destruct weights as [|w ws]; [reflexivity|].
  inversion Hpos as [|? ? Hw0 Hpos']; subst.
  unfold quotients, reduced in *. cbn [combine map fst snd].
  rewrite (IH ws Hpos'). f_equal.
  destruct (zpow_val r s (- w) Pr Hs) as [Hz Hv].
  rewrite Qc_val_mult, Hv by assumption.
  replace (Qval r x + - w * Qval r s) with (Qval r x + (- Qval r s) * w)
    by ring.
  rewrite Z.div_add by lia. lia.
Qed.

Lemma exponent_reduced (r : Z) (invariants : list Qc) (weights : list Z)
    (s : Qc) :
  Z.prime r -> s <> zero -> invariants <> [] -> weights <> [] ->
  Forall (fun x => x <> zero) invariants ->
  Forall (fun w => 0 < w) weights ->
  exponent r (reduced invariants weights s) weights
  = exponent r invariants weights - Qval r s.
Proof.
  intros Pr Hs Hne Hwne Hnz Hpos. unfold exponent.
  rewrite (quotients_reduced r invariants weights s Pr Hs Hnz Hpos).
  destruct invariants as [|x l]; [contradiction|].
  destruct weights as [|w ws]; [contradiction|].
  unfold quotients. cbn [combine map]. apply fold_min_shift.
Qed.

Lemma in_combine_partner {A B : Type} (l : list A) (l' : list B) (a : A) :
  List.length l = List.length l' -> In a l ->
  exists b, In (a, b) (combine l l').
Proof.
  revert l'. induction l as [|x l IH]; intros [|y l'] Hlen Hin;
    try discriminate Hlen; [contradiction|].
  destruct Hin as [<- | Hin].
  - exists y. now left.
  - destruct (IH l' ltac:(now injection Hlen) Hin) as [b Hb].
    exists b. now right.
Qed.

(** A prime that is not in the gcd has least quotient zero. *)
Lemma exponent_outside (r : Z) (invariants : list Qc) (weights : list Z) :
  Z.prime r -> invariants <> [] ->
  Forall (fun x => x <> zero) invariants ->
  List.length weights = List.length invariants ->
  Forall (fun w => 0 < w) weights ->
  ~ In r (prime_support (gcd_list invariants)) ->
  exponent r invariants weights = 0.
Proof.
  intros Pr Hne Hnz Hlen Hpos Hout.
  pose proof (gcd_list_nonzero invariants Hne Hnz) as Hg.
  assert (Hv : Qval r (gcd_list invariants) = 0).
  { destruct (Z.eq_dec (Qval r (gcd_list invariants)) 0) as [E|E];
      [exact E|].
    exfalso. apply Hout. apply prime_support_spec;
      [now apply Qc_nonzero_num | tauto]. }
  assert (Hall : forall I, In I invariants -> 0 <= Qval r I).
  { destruct invariants as [|x l]; [contradiction|].
    inversion Hnz; subst.
    destruct (gcd_list_val r x l Pr) as [_ E]; try assumption.
    rewrite Hv in E.
    destruct (fold_min_le (map (Qval r) (map this l)) (Qval r x))
      as [Hm1 Hm2]. rewrite <- E in Hm1, Hm2.
    intros I [<- | HI]; [exact Hm1|]. apply Hm2.
    apply in_map, in_map, HI. }
  assert (Hsome : exists I, In I invariants /\ Qval r I = 0).
  { destruct invariants as [|x l]; [contradiction|].
    inversion Hnz; subst.
    destruct (gcd_list_val r x l Pr) as [_ E]; try assumption.
    rewrite Hv in E.
    pose proof (fold_min_in (map (Qval r) (map this l)) (Qval r x)) as Hin.
    rewrite <- E in Hin. destruct Hin as [Hin | Hin].
    - exists x. split; [now left | now symmetry].
    - apply in_map_iff in Hin as (y & Ey & Hy).
      apply in_map_iff in Hy as (I & <- & HI).
      exists I. split; [now right | exact Ey]. }
  unfold exponent.
  destruct (quotients r invariants weights) as [|e es] eqn:Eq;
    [reflexivity|].
  pose proof (fold_min_le es e) as [Hle1 Hle2].
  pose proof (fold_min_in es e) as Hin.
  set (m := fold_left Z.min es e) in *. clearbody m.
  assert (Hq : forall y, In y (e :: es) ->
                         exists I w, In (I, w) (combine invariants weights)
                                     /\ y = Qval r I / w).
  { intros y Hy. rewrite <- Eq in Hy. unfold quotients in Hy.
    apply in_map_iff in Hy as ([I w] & <- & HIw). eauto. }
  assert (Hge : 0 <= m).
  { destruct (Hq m Hin) as (I & w & HIw & Em).
    pose proof (Hall I (in_combine_l _ _ _ _ HIw)) as HI.
    pose proof (proj1 (Forall_forall _ _) Hpos w
                  (in_combine_r _ _ _ _ HIw)) as Hw0.
    cbv beta in Hw0. rewrite Em. apply Z.div_pos; lia. }
  assert (Hle : m <= 0).
  { destruct Hsome as (I & HI & E0).
    destruct (in_combine_partner invariants weights I (eq_sym Hlen) HI)
      as [w HIw].
    assert (Hy : In (Qval r I / w) (e :: es)).
    { rewrite <- Eq. unfold quotients.
      apply in_map_iff. exists (I, w). now split. }
    pose proof (proj1 (Forall_forall _ _) Hpos w
                  (in_combine_r _ _ _ _ HIw)) as Hw0.
    cbv beta in Hw0. rewrite E0, Z.div_0_l in Hy by lia.
    destruct Hy as [<- | Hy]; [exact Hle1 | now apply Hle2]. }
  lia.
Qed.

Lemma scalar_of_trivial (P : list Z) (invariants : list Qc)
    (weights : list Z) (s0 : Qc) :
  (forall q, In q P -> exponent q invariants weights = 0) ->
  scalar_of P invariants weights s0 = s0.
Proof.
  revert s0. induction P as [|q P IH]; intros s0 H;
    cbn [scalar_of fold_left]; [reflexivity|].
  rewrite (H q (or_introl eq_refl)).
  change (zpow (Qc_of_Z q) 0) with (one : Qc).
  change (one : Qc) with 1%Qc. rewrite Qcmult_1_r.
  apply IH. intros; apply H; now right.
Qed.

Lemma reduced_one (l : list Qc) (weights : list Z) :
  List.length weights = List.length l -> reduced l weights one = l.
Proof.
  revert weights. induction l as [|x l IH]; intros [|w ws] Hlen;
    try discriminate Hlen; [reflexivity|].
  unfold reduced in *. cbn [combine map fst snd].
  rewrite zpow_one. change (one : Qc) with 1%Qc. rewrite Qcmult_1_r.
  f_equal. apply IH. now injection Hlen.
Qed.

Lemma mapM_ret_inv {A B : Type} (f : A -> result B) (l : list A)
    (ys : list B) :
  mapM f l = ret ys -> forall x, In x l -> exists y, f x = ret y.
Proof.
  revert ys. induction l as [|a l IH]; intros ys H x Hx; [contradiction|].
  cbn [mapM] in H. apply bind_ret_inv in H as (y & Hy & H).
  apply bind_ret_inv in H as (zs & Hzs & _).
  destruct Hx as [<- | Hx]; [eauto | exact (IH zs Hzs x Hx)].
Qed.

Lemma factor_ret_inv (x : Qc) (D : list (Qc * Z)) :
  factor x = ret D -> x <> zero.
Proof.
  intros H E. subst x. discriminate H.
Qed.

(** [reduce_invariants] succeeds only on a nonempty list of nonzero
    invariants. *)
Lemma reduce_invariants_ret_inv (invariants : list Qc) (weights : list Z)
    (out : list Qc) :
  reduce_invariants invariants weights = ret out ->
  invariants <> [] /\ Forall (fun x => x <> zero) invariants.
Proof.
  unfold reduce_invariants. intro H.
  apply bind_ret_inv in H as (factors & Hf & H).
  apply bind_ret_inv in H as (primes & Hp & _).
  split.
  - intros ->. discriminate Hp.
  - apply Forall_forall. intros x Hx.
    destruct (mapM_ret_inv _ _ _ Hf x Hx) as [D HD].
    exact (factor_ret_inv x D HD).
Qed.

(** Reducing twice is reducing once. *)
Lemma reduce_invariants_twice (invariants : list Qc) (weights : list Z) :
  invariants <> [] -> Forall (fun x => x <> zero) invariants ->
  List.length weights = List.length invariants ->
  Forall (fun w => 0 < w) weights ->
  exists out,
    reduce_invariants invariants weights = ret out
    /\ List.length out = List.length invariants
    /\ reduce_invariants out weights = ret out.
Proof.
  intros Hne Hnz Hlen Hpos.
  set (P := prime_support (gcd_list invariants)).
  set (s := scalar_of P invariants weights one).
  set (out := reduced invariants weights s).
  pose proof (gcd_list_nonzero invariants Hne Hnz) as Hg.
  assert (HP : Forall Z.prime P) by now apply prime_support_primes.
  assert (Hs : s <> zero).
  { apply (scalar_of_val 2 P invariants weights one Z.prime_2 HP).
    - apply NoDup_prime_support.
    - apply (one_neq_zero (K := Qc)). }
  assert (Hwne : weights <> []).
  { destruct weights, invariants; try discriminate; congruence. }
  assert (Holen : List.length out = List.length invariants)
    by now apply reduced_length.
  assert (Hone : out <> []).
  { destruct out, invariants; try discriminate; congruence. }
  assert (Honz : Forall (fun x => x <> zero) out)
    by now apply reduced_nonzero.
  exists out. split; [now apply reduce_invariants_eq|].
  split; [exact Holen|].
  rewrite reduce_invariants_eq; try assumption; [|congruence].
  f_equal. rewrite scalar_of_trivial; [apply reduced_one; congruence|].
  intros q Hq.
  assert (Pq : Z.prime q).
  { pose proof (prime_support_primes (gcd_list out)
                  (gcd_list_nonzero out Hone Honz)) as H.
    exact (proj1 (Forall_forall _ _) H q Hq). }
  unfold out. rewrite exponent_reduced by assumption.
  destruct (scalar_of_val q P invariants weights one Pq HP
              (NoDup_prime_support _) (one_neq_zero (K := Qc)))
    as [_ Hv].
  fold s in Hv. rewrite Hv.
  rewrite Qc_val_one by (now apply Z.prime_ge_2).
  destruct (in_dec Z.eq_dec q P) as [Hin | Hnin]; [lia|].
  rewrite (exponent_outside q invariants weights) by assumption. lia.
Qed.

End ReduceFacts.

Import ReduceFacts.

Lemma coprime_reduction_weights (l : list Qc) (weights : list Z) :
  List.length weights = List.length l ->
  weights = [1; 2; 3] \/ weights = [2; 4; 6; 9] ->
  coprime_reduction "coprime" l = reduce_invariants l weights.
Proof.
  intros Hlen Hw. unfold coprime_reduction.
  change ("coprime" =? "coprime")%string with true. cbv iota.
  destruct Hw as [-> | ->]; cbn [List.length] in Hlen; rewrite <- Hlen;
    reflexivity.
Qed.

(** C9.  Over the rationals, with as many positive weights as there are
    invariants: [reduce_invariants] returns a list on every nonempty list of
    nonzero invariants, and a list that it returns is left unchanged when
    it is reduced again with the same weights.  With the weights [1, 2, 3]
    or [2, 4, 6, 9] of the quintic, the reduction step of
    [scaling == 'coprime'] therefore does nothing on the reduced list, and
    the routine computes there what it computes on the original
    invariants. *)
Theorem reduce_invariants_idempotent
    (invariants : list Qc) (weights : list Z) :
  List.length weights = List.length invariants ->
  Forall (fun w => 0 < w) weights ->
  (invariants <> [] -> Forall (fun x => x <> zero) invariants ->
   exists out, reduce_invariants invariants weights = ret out)
  /\ (forall out,
        reduce_invariants invariants weights = ret out ->
        reduce_invariants out weights = ret out
        /\ (weights = [1; 2; 3] \/ weights = [2; 4; 6; 9] ->
            forall invariant_choice,
              coprime_reduction "coprime" out = ret out
              /\ binary_quintic_from_invariants out invariant_choice
                   "coprime"
                 = binary_quintic_from_invariants invariants
                     invariant_choice "coprime")).
Proof.
  intros Hlen Hpos. split.
  - intros Hne Hnz.
    destruct (reduce_invariants_twice invariants weights Hne Hnz Hlen Hpos)
      as (out & H1 & _). now exists out.
  - intros out Hout.
    destruct (reduce_invariants_ret_inv _ _ _ Hout) as [Hne Hnz].
    destruct (reduce_invariants_twice invariants weights Hne Hnz Hlen Hpos)
      as (out' & H1 & Holen & H2).
    assert (Eo : out' = out)
      by (rewrite Hout in H1; unfold ret in H1; now injection H1).
    subst out'.
    split; [exact H2|].
    intros Hw invariant_choice.
    assert (E1 : coprime_reduction "coprime" invariants = ret out)
      by (rewrite (coprime_reduction_weights _ weights Hlen Hw); exact H1).
    assert (E2 : coprime_reduction "coprime" out = ret out).
    { rewrite (coprime_reduction_weights _ weights) by congruence.
      exact H2. }
    split; [exact E2|].
    unfold binary_quintic_from_invariants, quintic_prepare.
    now rewrite E1, E2.
Qed.

Lemma reduce_invariants_idempotent_witness :
  let invariants := [frac 6 5; Qc_of_Z 12; Qc_of_Z 16] in
  let out := [Qc_of_Z 3; Qc_of_Z 75; Qc_of_Z 250] in
  (exists out', reduce_invariants invariants [1; 2; 3] = ret out')
  /\ reduce_invariants out [1; 2; 3] = ret out
  /\ coprime_reduction "coprime" out = ret out
  /\ binary_quintic_from_invariants out "clebsch" "coprime"
     = binary_quintic_from_invariants invariants "clebsch" "coprime".
Proof.
  cbv zeta.
  assert (nz : forall x : Qc, this x <> this zero -> x <> zero)
    by (intros x H E; apply H; now rewrite E).
  assert (E : reduce_invariants [frac 6 5; Qc_of_Z 12; Qc_of_Z 16]
                [1; 2; 3]
              = ret [Qc_of_Z 3; Qc_of_Z 75; Qc_of_Z 250])
    by (apply fractions_ext; vm_compute; reflexivity).
  destruct (reduce_invariants_idempotent
              [frac 6 5; Qc_of_Z 12; Qc_of_Z 16] [1; 2; 3]
              eq_refl ltac:(repeat constructor)) as [Hex Hid].
  split.
  - apply Hex; [discriminate|].
    repeat constructor; apply nz; discriminate.
  - destruct (Hid _ E) as [H2 Hq]. split; [exact H2|].
    apply (Hq (or_introl eq_refl) "clebsch").
Defined.

(** * Further properties of the routines *)

(** ** The quadratic and the cubic, called directly and through the dispatcher *)

(** X1.  Called with the discriminant itself and a recognised
    [invariant_choice], the quadratic routine never fails: it returns
    [(1, 0, 0)] when the discriminant is zero and [(0, 1, 0)] otherwise,
    and the two tuples differ. *)
Theorem binary_quadratic_by_discriminant
    (K : Type) (F : ExactField K) (L : ExactFieldLaws K)
    (d : K) (invariant_choice : string) :
  str_in invariant_choice ["default"; "discriminant"] = true ->
  (d = zero ->
   binary_quadratic_from_invariants (Scalar d) invariant_choice
   = ret (literal [1; 0; 0]))
  /\ (d <> zero ->
      binary_quadratic_from_invariants (Scalar d) invariant_choice
      = ret (literal [0; 1; 0]))
  /\ (literal [1; 0; 0] : list K) <> literal [0; 1; 0].
Proof.
  intro Hc. unfold binary_quadratic_from_invariants. rewrite Hc. simpl.
  split; [|split].
  - intros ->. now rewrite eqb_refl.
  - intro Hd. apply eqb_false in Hd. now rewrite Hd.
  - intro H. injection H as H _. now apply one_neq_zero.
Qed.

Lemma binary_quadratic_by_discriminant_witness :
  binary_quadratic_from_invariants (Scalar (Qc_of_Z 0)) "discriminant"
  = ret (literal [1; 0; 0])
  /\ binary_quadratic_from_invariants (Scalar (Qc_of_Z 5)) "default"
     = ret (literal [0; 1; 0]).
Proof.
  split.
  - apply (binary_quadratic_by_discriminant Qc Qc_field Qc_laws
             (Qc_of_Z 0) "discriminant"); reflexivity.
  - apply (binary_quadratic_by_discriminant Qc Qc_field Qc_laws
             (Qc_of_Z 5) "default"); [reflexivity|].
    intro H. apply (f_equal this) in H. discriminate H.
Defined.

(** X2.  The quadratic and the cubic routine test [invariant_choice] before
    they look at their argument: with an unrecognised choice both raise
    [ValueError] naming the choice, whatever the argument is, a zero
    discriminant included.  The message of the quadratic ends with a full
    stop, that of the cubic does not. *)
Theorem unknown_choice_precedes_discriminant
    (K : Type) (F : ExactField K) (v : pyval K) (invariant_choice : string) :
  str_in invariant_choice ["default"; "discriminant"] = false ->
  binary_quadratic_from_invariants v invariant_choice
  = raise (ValueError ("Unknown choice of invariants " ++ invariant_choice
                       ++ " for a binary quadratic.")%string)
  /\ binary_cubic_from_invariants v invariant_choice
     = raise (ValueError ("Unknown choice of invariants " ++ invariant_choice
                          ++ " for a binary cubic")%string).
Proof.
  intro Hc.
  unfold binary_quadratic_from_invariants, binary_cubic_from_invariants.
  now rewrite Hc.
Qed.

Lemma unknown_choice_precedes_discriminant_witness :
  binary_quadratic_from_invariants (Scalar (Qc_of_Z 0)) "unknown"
  = raise (ValueError "Unknown choice of invariants unknown for a binary quadratic.")
  /\ binary_cubic_from_invariants (Scalar (Qc_of_Z 0)) "unknown"
     = raise (ValueError "Unknown choice of invariants unknown for a binary cubic").
Proof.
  apply (unknown_choice_precedes_discriminant Qc Qc_field
           (Scalar (Qc_of_Z 0)) "unknown"). reflexivity.
Defined.

(** X3.  The dispatcher hands the list of invariants, not the discriminant,
    to the quadratic and the cubic routine, and a list is never equal to
    [0].  So for degree 2 and one invariant it returns [(0, 1, 0)] whatever
    the discriminant is, zero included, and for degree 3 it returns
    [(0, 1, -1, 0)] and never reports the double root. *)
Theorem dispatcher_ignores_discriminant
    (K : Type) (F : ExactField K) (d : K) (choice : option string) :
  str_in (default_to "default" choice) ["default"; "discriminant"] = true ->
  binary_form_from_invariants 2 [d] false (mk_options choice None)
  = ret (Coeffs (literal [0; 1; 0]))
  /\ binary_form_from_invariants 3 [d] false (mk_options choice None)
     = ret (Coeffs (literal [0; 1; -1; 0])).
Proof.
  intro Hc. unfold binary_form_from_invariants, no_scaling,
    binary_quadratic_from_invariants, binary_cubic_from_invariants.
  cbn [opt_scaling opt_invariant_choice List.length Nat.eqb Z.eqb Pos.eqb
       py_eq_zero].
  now rewrite Hc.
Qed.

Lemma dispatcher_ignores_discriminant_witness :
  binary_form_from_invariants 2 [Qc_of_Z 0] false (mk_options None None)
  = ret (Coeffs (literal [0; 1; 0]))
  /\ binary_form_from_invariants 3 [Qc_of_Z 0] false
       (mk_options (Some "discriminant") None)
     = ret (Coeffs (literal [0; 1; -1; 0]))
  /\ binary_quadratic_from_invariants (Scalar (Qc_of_Z 0)) "default"
     = ret (literal [1; 0; 0]).
Proof.
  split; [|split].
  - apply (dispatcher_ignores_discriminant Qc Qc_field (Qc_of_Z 0) None).
    reflexivity.
  - apply (dispatcher_ignores_discriminant Qc Qc_field (Qc_of_Z 0)
             (Some "discriminant")). reflexivity.
  - reflexivity.
Defined.

(** X4.  For degree 2 and degree 3 the dispatcher counts the invariants
    before anything else: unless there is exactly one, it raises
    [ValueError] "Incorrect number of invariants provided. Only one
    invariant should be provided.", whatever the keyword arguments are and
    whether or not a form is asked for. *)
Theorem dispatcher_one_invariant
    (K : Type) (F : ExactField K) (degree : Z) (invariants : list K)
    (as_form : bool) (opts : options) :
  degree = 2 \/ degree = 3 ->
  List.length invariants <> 1%nat ->
  binary_form_from_invariants degree invariants as_form opts
  = raise (ValueError ("Incorrect number of invariants provided. Only "
                       ++ "one invariant should be provided.")).
Proof.
  intros Hd Hlen. apply Nat.eqb_neq in Hlen.
  unfold binary_form_from_invariants.
  destruct Hd as [-> | ->]; cbn [Z.eqb Pos.eqb]; now rewrite Hlen.
Qed.

Lemma dispatcher_one_invariant_witness :
  binary_form_from_invariants 2 (map Qc_of_Z [1; 2]) true
    (mk_options (Some "unknown") (Some "coprime"))
  = raise (ValueError ("Incorrect number of invariants provided. Only "
                       ++ "one invariant should be provided."))
  /\ binary_form_from_invariants 3 ([] : list Qc) false (mk_options None None)
     = raise (ValueError ("Incorrect number of invariants provided. Only "
                          ++ "one invariant should be provided.")).
Proof.
  split.
  - apply (dispatcher_one_invariant Qc Qc_field 2 (map Qc_of_Z [1; 2]) true
             (mk_options (Some "unknown") (Some "coprime")));
      [now left | simpl; lia].
  - apply (dispatcher_one_invariant Qc Qc_field 3 [] false
             (mk_options None None)); [now right | simpl; lia].
Defined.

(** X5.  The keyword [scaling] belongs to the quintic routine only: the
    dispatcher forwards it to the routine of the degree, so with degree 2 or
    3 and one invariant any [scaling], also ['none'], ends in the
    [TypeError] of an unexpected keyword argument. *)
Theorem dispatcher_scaling_only_for_quintics
    (K : Type) (F : ExactField K) (degree : Z) (d : K) (as_form : bool)
    (choice : option string) (scaling : string) :
  degree = 2 \/ degree = 3 ->
  exists name,
    binary_form_from_invariants degree [d] as_form
      (mk_options choice (Some scaling))
    = raise (TypeError
        (name ++ "() got an unexpected keyword argument 'scaling'")%string)
    /\ (degree = 2 -> name = "binary_quadratic_from_invariants")
    /\ (degree = 3 -> name = "binary_cubic_from_invariants").
Proof.
  intros [-> | ->].
  - exists "binary_quadratic_from_invariants".
    split; [reflexivity | split; [reflexivity | discriminate]].
  - exists "binary_cubic_from_invariants".
    split; [reflexivity | split; [discriminate | reflexivity]].
Qed.

Lemma dispatcher_scaling_only_for_quintics_witness :
  exists name,
    binary_form_from_invariants 2 [Qc_of_Z 1] true
      (mk_options None (Some "none"))
    = raise (TypeError
        (name ++ "() got an unexpected keyword argument 'scaling'")%string)
    /\ (2 = 2 -> name = "binary_quadratic_from_invariants")
    /\ (2 = 3 -> name = "binary_cubic_from_invariants").
Proof.
  apply (dispatcher_scaling_only_for_quintics Qc Qc_field 2 (Qc_of_Z 1) true
           None "none"). now left.
Defined.

(** ** The validation of the quintic routine *)

(** X6.  The quintic routine tests its two tags before it touches the
    invariants: an unrecognised [invariant_choice] raises [ValueError]
    naming it, whatever [scaling] and the invariants are; with a recognised
    choice an unrecognised [scaling] raises "Unknown scaling option '...'.",
    whatever the invariants are, their number included. *)
Theorem quintic_tags_checked_first
    (K : Type) (F : ExactField K) (invariants : list K)
    (invariant_choice scaling : string) :
  (str_in invariant_choice ["default"; "clebsch"] = false ->
   binary_quintic_from_invariants invariants invariant_choice scaling
   = raise (ValueError ("Unknown choice of invariants " ++ invariant_choice
                        ++ " for a binary quintic")%string))
  /\ (str_in invariant_choice ["default"; "clebsch"] = true ->
      str_in scaling ["none"; "normalized"; "coprime"] = false ->
      binary_quintic_from_invariants invariants invariant_choice scaling
      = raise (ValueError ("Unknown scaling option '" ++ scaling
                           ++ "'.")%string)).
Proof.
  unfold binary_quintic_from_invariants, quintic_prepare.
  split.
  - intros ->. reflexivity.
  - intros -> ->. reflexivity.
Qed.

Lemma quintic_tags_checked_first_witness :
  binary_quintic_from_invariants ([] : list Qc) "discriminant" "unknown"
  = raise (ValueError
             "Unknown choice of invariants discriminant for a binary quintic")
  /\ binary_quintic_from_invariants (map Qc_of_Z [0; 0]) "default" "unknown"
     = raise (ValueError "Unknown scaling option 'unknown'.").
Proof.
  split.
  - apply (quintic_tags_checked_first Qc Qc_field [] "discriminant"
             "unknown"). reflexivity.
  - apply (quintic_tags_checked_first Qc Qc_field (map Qc_of_Z [0; 0])
             "default" "unknown"); reflexivity.
Defined.

(** X7.  Fewer than three invariants never reach the test on the number of
    invariants: with recognised tags the unpacking of [invariants[0:3]]
    raises the interpreter's [ValueError] "need more than n value(s) to
    unpack", in every characteristic and under every scaling, and the
    message on 3 or 4 invariants is not the one raised. *)
Theorem quintic_too_few_invariants
    (K : Type) (F : ExactField K) (invariants : list K)
    (invariant_choice scaling : string) :
  str_in invariant_choice ["default"; "clebsch"] = true ->
  str_in scaling ["none"; "normalized"; "coprime"] = true ->
  (List.length invariants < 3)%nat ->
  binary_quintic_from_invariants invariants invariant_choice scaling
  = raise (ValueError
      ("need more than " ++ str_of_Z (Z.of_nat (List.length invariants))
       ++ (if (List.length invariants =? 1)%nat then " value" else " values")
       ++ " to unpack")%string)
  /\ binary_quintic_from_invariants invariants invariant_choice scaling
     <> raise (ValueError count_message).
Proof.
  intros H1 H2 Hlen.
  assert (E : binary_quintic_from_invariants invariants invariant_choice
                scaling
              = raise (ValueError
                  ("need more than "
                   ++ str_of_Z (Z.of_nat (List.length invariants))
                   ++ (if (List.length invariants =? 1)%nat
                       then " value" else " values")
                   ++ " to unpack")%string)).
  { unfold binary_quintic_from_invariants.
    rewrite (quintic_prepare_recognised _ _ _ H1 H2).
    unfold coprime_reduction.
    destruct invariants as [|a [|b [|c l]]]; simpl in Hlen; try lia;
      destruct (scaling =? "coprime")%string; reflexivity. }
  split; [exact E|]. rewrite E.
  destruct invariants as [|a [|b [|c l]]]; simpl in Hlen; try lia;
    intro H; injection H as H; vm_compute in H; discriminate H.
Qed.

Lemma quintic_too_few_invariants_witness :
  binary_quintic_from_invariants [Qc_of_Z 7] "clebsch" "coprime"
  = raise (ValueError "need more than 1 value to unpack")
  /\ binary_quintic_from_invariants [Qc_of_Z 7] "clebsch" "coprime"
     <> raise (ValueError count_message).
Proof.
  apply (quintic_too_few_invariants Qc Qc_field [Qc_of_Z 7] "clebsch"
           "coprime"); [reflexivity | reflexivity | simpl; lia].
Defined.

(** X8.  Over a field of characteristic 2, 3 or 5, three or more invariants
    given without the coprime reduction always end in
    [NotImplementedError]: the characteristic is tested before the number of
    invariants beyond three, before the syzygy and before the case
    analysis, so neither the values nor a wrong count are reported. *)
Theorem quintic_small_characteristic
    (K : Type) (F : ExactField K) (invariants : list K)
    (invariant_choice scaling : string) :
  str_in invariant_choice ["default"; "clebsch"] = true ->
  scaling = "none" \/ scaling = "normalized" ->
  (3 <= List.length invariants)%nat ->
  int_in characteristic [2; 3; 5] = true ->
  binary_quintic_from_invariants invariants invariant_choice scaling
  = raise (NotImplementedError characteristic_message).
Proof.
  intros H1 Hs Hlen Hc. unfold binary_quintic_from_invariants.
  rewrite (quintic_prepare_recognised _ _ _ H1)
    by (destruct Hs as [-> | ->]; reflexivity).
  assert (Hred : coprime_reduction scaling invariants = ret invariants)
    by (destruct Hs as [-> | ->]; reflexivity).
  rewrite Hred, bind_ret_l.
  destruct invariants as [|a [|b [|c l]]]; simpl in Hlen; try lia.
  rewrite unpack3_cons, bind_ret_l, Hc. reflexivity.
Qed.

Lemma quintic_small_characteristic_witness :
  binary_quintic_from_invariants (map gf5_of_Z [1; 2; 3; 4]) "clebsch"
    "normalized"
  = raise (NotImplementedError characteristic_message).
Proof.
  apply (quintic_small_characteristic gf5 gf5_field (map gf5_of_Z [1; 2; 3; 4])
           "clebsch" "normalized");
    [reflexivity | now right | simpl; lia | reflexivity].
Defined.

(** ** The shape of the results *)

Section ShapeFacts.

Context {K : Type} {F : ExactField K}.

Lemma quintic_tail_length (scaling : string) (A B R : K) (scale : list surd)
    (i3 D Delta a1 B0 B1 C0 C1 : K) (t : list K) :
  quintic_tail scaling A B R scale i3 D Delta a1 B0 B1 C0 C1 = ret t ->
  List.length t = 6%nat.
Proof.
  unfold quintic_tail. intro H.
  apply bind_ret_inv in H as (i2 & _ & H).
  apply bind_ret_inv in H as (i4 & _ & H).
  apply bind_ret_inv in H as (coeffs & Hc & H).
  apply mapM_length in Hc.
  destruct (scaling =? "coprime")%string.
  - now apply mapM_length in H.
  - unfold ret in H. injection H as <-. exact Hc.
Qed.

Lemma quintic_cases_length (scaling : string) (st : clebsch) (t : list K) :
  quintic_cases scaling st = ret t -> List.length t = 6%nat.
Proof.
  destruct st as [A B C M N R]. unfold quintic_cases.
  assert (Hab : forall sc : result (list surd),
             (scale <- sc ;; quintic_alpha_beta scaling A B M N R scale)
             = ret t -> List.length t = 6%nat).
  { intros sc H. apply bind_ret_inv in H as (scale & _ & H).
    unfold quintic_alpha_beta in H.
    apply bind_ret_inv in H as (i3 & _ & H).
    apply bind_ret_inv in H as (i2 & _ & H).
    now apply quintic_tail_length in H. }
  assert (Hag : forall sc : result (list surd),
             (scale <- sc ;; quintic_alpha_gamma scaling A B C N R scale)
             = ret t -> List.length t = 6%nat).
  { intros sc H. apply bind_ret_inv in H as (scale & _ & H).
    unfold quintic_alpha_gamma in H.
    apply bind_ret_inv in H as (i3 & _ & H).
    apply bind_ret_inv in H as (i2 & _ & H).
    now apply quintic_tail_length in H. }
  assert (Hlit : forall l : list Z,
             List.length l = 6%nat -> ret (literal l) = ret t ->
             List.length t = 6%nat).
  { intros l Hl H. unfold ret in H. injection H as <-.
    unfold literal. now rewrite length_map. }
  destruct (M == zero)%K, (N == zero)%K, (R == zero)%K, (A == zero)%K,
    (B == zero)%K; intro H;
    first [ discriminate H
          | now apply Hlit in H
          | now apply Hab in H
          | now apply Hag in H ].
Qed.

Lemma quintic_length (invariants : list K) (invariant_choice scaling : string)
    (t : list K) :
  binary_quintic_from_invariants invariants invariant_choice scaling = ret t ->
  List.length t = 6%nat.
Proof.
  unfold binary_quintic_from_invariants. intro H.
  apply bind_ret_inv in H as (st & _ & H).
  now apply quintic_cases_length in H.
Qed.

End ShapeFacts.

Section DispatcherFacts.

Context {K : Type} {F : ExactField K}.

Lemma dispatcher_coeffs_inv (degree : Z) (invariants : list K)
    (opts : options) (c : list K) :
  binary_form_from_invariants degree invariants false opts = ret (Coeffs c) ->
  (degree = 2 \/ degree = 3 \/ degree = 5)
  /\ List.length c = Z.to_nat (degree + 1).
Proof.
  unfold binary_form_from_invariants. intro H.
  apply bind_ret_inv in H as (c' & Hc & H).
  unfold ret in H. injection H as ->.
  destruct (degree =? 2) eqn:E2.
  { apply Z.eqb_eq in E2. subst degree.
    destruct (List.length invariants =? 1)%nat; [|discriminate Hc].
    unfold no_scaling in Hc. destruct (opt_scaling opts); [discriminate Hc|].
    unfold binary_quadratic_from_invariants in Hc.
    destruct (negb _); [discriminate Hc|]. cbn [py_eq_zero] in Hc.
    unfold ret in Hc. injection Hc as <-. split; [tauto | reflexivity]. }
  destruct (degree =? 3) eqn:E3.
  { apply Z.eqb_eq in E3. subst degree.
    destruct (List.length invariants =? 1)%nat; [|discriminate Hc].
    unfold no_scaling in Hc. destruct (opt_scaling opts); [discriminate Hc|].
    unfold binary_cubic_from_invariants in Hc.
    destruct (negb _); [discriminate Hc|]. cbn [py_eq_zero] in Hc.
    unfold ret in Hc. injection Hc as <-. split; [tauto | reflexivity]. }
  destruct (degree =? 5) eqn:E5; [|discriminate Hc].
  apply Z.eqb_eq in E5. subst degree.
  apply quintic_length in Hc. split; [tauto | exact Hc].
Qed.

End DispatcherFacts.

(** X9.  Whenever the dispatcher returns a tuple of coefficients, the
    degree is 2, 3 or 5 and the tuple has [degree + 1] entries; in
    particular every tuple returned by the quintic routine, on the general
    path, on a degenerate one and after the division by the gcd, has six
    coefficients. *)
Theorem coefficient_tuple_length
    (K : Type) (F : ExactField K) (degree : Z) (invariants : list K)
    (opts : options) (c : list K) :
  binary_form_from_invariants degree invariants false opts = ret (Coeffs c) ->
  (degree = 2 \/ degree = 3 \/ degree = 5)
  /\ List.length c = Z.to_nat (degree + 1)
  /\ (forall invariant_choice scaling t,
        binary_quintic_from_invariants invariants invariant_choice scaling
        = ret t -> List.length t = 6%nat).
Proof.
  intro H. destruct (dispatcher_coeffs_inv _ _ _ _ H) as [Hd Hlen].
  split; [exact Hd|]. split; [exact Hlen|].
  intros ic sc t Ht. exact (quintic_length _ _ _ _ Ht).
Qed.

Lemma coefficient_tuple_length_witness :
  (5 = 2 \/ 5 = 3 \/ 5 = 5)
  /\ List.length (literal (K := Qc) [1; 0; 0; 0; 0; 1]) = Z.to_nat (5 + 1)
  /\ (forall invariant_choice scaling t,
        binary_quintic_from_invariants (map Qc_of_Z [1; 0; 0])
          invariant_choice scaling = ret t -> List.length t = 6%nat).
Proof.
  apply (coefficient_tuple_length Qc Qc_field 5 (map Qc_of_Z [1; 0; 0])
           (mk_options None None) (literal [1; 0; 0; 0; 0; 1])).
  assert (E : binary_quintic_from_invariants (map Qc_of_Z [1; 0; 0])
                "clebsch" "none" = ret (literal [1; 0; 0; 0; 0; 1]))
    by (apply fractions_ext; vm_compute; reflexivity).
  unfold binary_form_from_invariants.
  cbn [Z.eqb Pos.eqb default_to opt_invariant_choice opt_scaling].
  rewrite E. reflexivity.
Defined.


(** ** The syzygy on the values that reach the case analysis *)

Module SyzygyQc.

Lemma one_Qc : (one : Qc) = 1%Qc.
Proof. now apply Qc_ext. Qed.

Lemma npow_Qc (x : Qc) (n : nat) : npow x n = (x ^ n)%Qc.
Proof.
  induction n as [|n IH]; [apply one_Qc|].
  cbn [npow]. rewrite IH. reflexivity.
Qed.

(** The derived quantities are homogeneous: of weight 3, 4 and 9 in a
    rescaling of [A], [B], [C] with weights 1, 2, 3. *)
Lemma clebsch_M_scale (r A B C : Qc) :
  clebsch_M (r * A)%Qc (r ^ 2 * B)%Qc (r ^ 3 * C)%Qc
  = (r ^ 3 * clebsch_M A B C)%Qc.
Proof.
  unfold clebsch_M. cbn [mul add opp Qc_field].
  generalize (of_Z (K := Qc) 2) (of_Z (K := Qc) 3). intros two three.
  cbn [Qcpower]. ring.
Qed.

Lemma clebsch_N_scale (i2 r A B C : Qc) :
  clebsch_N i2 (r * A)%Qc (r ^ 2 * B)%Qc (r ^ 3 * C)%Qc
  = (r ^ 4 * clebsch_N i2 A B C)%Qc.
Proof.
  unfold clebsch_N. rewrite (npow_Qc B 2), (npow_Qc (r ^ 2 * B)%Qc 2).
  cbn [mul add opp Qc_field].
  cbn [Qcpower]. ring.
Qed.

Lemma clebsch_R2_scale (i2 r A B C : Qc) :
  clebsch_R2 i2 (r * A)%Qc (r ^ 2 * B)%Qc (r ^ 3 * C)%Qc
  = (r ^ 9 * clebsch_R2 i2 A B C)%Qc.
Proof.
  unfold clebsch_R2. cbv zeta.
  rewrite clebsch_M_scale, clebsch_N_scale.
  generalize (clebsch_M A B C) (clebsch_N i2 A B C). intros M N.
  rewrite (npow_Qc M 2), (npow_Qc N 2), (npow_Qc (r ^ 3 * M)%Qc 2),
    (npow_Qc (r ^ 4 * N)%Qc 2).
  cbn [mul add opp Qc_field].
  generalize (of_Z (K := Qc) 2). intro two.
  cbn [Qcpower]. ring.
Qed.


(** The relations between the values handed to the case analysis. *)
Lemma prepared_relations
    (invariants : list Qc) (invariant_choice scaling : string)
    (st : clebsch) :
  quintic_prepare invariants invariant_choice scaling = ret st ->
  exists i2, ppow (of_Z 2) (-1) = ret i2
    /\ cM st = clebsch_M (cA st) (cB st) (cC st)
    /\ cN st = clebsch_N i2 (cA st) (cB st) (cC st)
    /\ npow (cR st) 2 = clebsch_R2 i2 (cA st) (cB st) (cC st).
Proof.
  intro H. unfold quintic_prepare in H.
  destruct (negb (str_in invariant_choice _)); [discriminate H|].
  destruct (negb (str_in scaling _)); [discriminate H|].
  apply bind_ret_inv in H as (l & _ & H).
  apply bind_ret_inv in H as ([[A B] C] & _ & H).
  change (int_in characteristic [2; 3; 5]) with false in H.
  cbv beta iota in H.
  apply bind_ret_inv in H as (i2 & Hi2 & H).
  exists i2. split; [exact Hi2|].
  unfold syzygy_root in H.
  set (r := clebsch_R2 i2 A B C) in *.
  destruct (List.length l =? 3)%nat.
  - destruct (is_square r) eqn:Hsq; unfold ret in H; injection H as <-;
      cbn [cA cB cC cM cN cR].
    + split; [reflexivity|]. split; [reflexivity|].
      rewrite npow_Qc. cbn [Qcpower]. rewrite Qcmult_1_r.
      exact (Qc_sqrt_square r Hsq).
    + change ((r ^ 3 * clebsch_M A B C)%Qc
              = clebsch_M (r * A)%Qc (r ^ 2 * B)%Qc (r ^ 3 * C)%Qc
              /\ (r ^ 4 * clebsch_N i2 A B C)%Qc
                 = clebsch_N i2 (r * A)%Qc (r ^ 2 * B)%Qc (r ^ 3 * C)%Qc
              /\ npow (r ^ 5)%Qc 2
                 = clebsch_R2 i2 (r * A)%Qc (r ^ 2 * B)%Qc (r ^ 3 * C)%Qc).
      rewrite clebsch_M_scale, clebsch_N_scale, clebsch_R2_scale.
      split; [reflexivity|]. split; [reflexivity|].
      fold r. rewrite npow_Qc. cbn [Qcpower]. ring.
  - destruct (List.length l =? 4)%nat; [|discriminate H].
    apply bind_ret_inv in H as (R & _ & H).
    destruct (negb (npow R 2 == r)%K) eqn:E; [discriminate H|].
    unfold ret in H. injection H as <-. cbn [cA cB cC cM cN cR].
    split; [reflexivity|]. split; [reflexivity|].
    apply negb_false_iff in E. now apply Qc_eq_bool_iff in E.
Qed.

End SyzygyQc.

Import SyzygyQc.

(** X11.  Over the rationals, whatever the routine hands to its case
    analysis satisfies the relations between the Clebsch invariants: [M]
    and [N] are the derived quantities of the [A], [B], [C] in use, and [R]
    squares to their [R2].  This holds for the root of a square [R2], for a
    fourth invariant that passed the test, and for the rescaling by powers
    of [R2] when [R2] is not a square, which makes the new [R2] the square
    of [R2**5]. *)
Theorem prepared_values_satisfy_syzygy
    (invariants : list Qc) (invariant_choice scaling : string)
    (st : clebsch) :
  quintic_prepare invariants invariant_choice scaling = ret st ->
  exists i2, ppow (of_Z 2) (-1) = ret i2
    /\ cM st = clebsch_M (cA st) (cB st) (cC st)
    /\ cN st = clebsch_N i2 (cA st) (cB st) (cC st)
    /\ npow (cR st) 2 = clebsch_R2 i2 (cA st) (cB st) (cC st).
Proof. exact (prepared_relations invariants invariant_choice scaling st). Qed.

Lemma prepared_values_satisfy_syzygy_witness :
  let R2 := frac (-75) 8 in
  let st := mk_clebsch (R2 * Qc_of_Z 3)%K (npow R2 2 * Qc_of_Z 1)%K
              (npow R2 3 * Qc_of_Z 2)%K zero (npow R2 4 * frac 5 2)%K
              (npow R2 5) in
  exists i2, ppow (of_Z 2) (-1) = ret i2
    /\ cM st = clebsch_M (cA st) (cB st) (cC st)
    /\ cN st = clebsch_N i2 (cA st) (cB st) (cC st)
    /\ npow (cR st) 2 = clebsch_R2 i2 (cA st) (cB st) (cC st).
Proof.
  cbv zeta.
  apply (prepared_values_satisfy_syzygy (map Qc_of_Z [3; 1; 2]) "clebsch"
           "none").
  apply prepared_ext. vm_compute. reflexivity.
Defined.

(** ** What [reduce_invariants] achieves *)

Module ReducedFacts.

Import ValuationFacts FactorFacts GcdFacts DictFacts.

(** After the reduction the least quotient of every prime is zero. *)
Lemma exponent_after_reduction (q : Z) (invariants : list Qc)
    (weights : list Z) :
  Z.prime q -> invariants <> [] ->
  Forall (fun x => x <> zero) invariants ->
  List.length weights = List.length invariants ->
  Forall (fun w => 0 < w) weights ->
  exponent q
    (reduced invariants weights
       (scalar_of (prime_support (gcd_list invariants)) invariants weights
          one)) weights = 0.
Proof.
  intros Pq Hne Hnz Hlen Hpos.
  set (P := prime_support (gcd_list invariants)).
  pose proof (gcd_list_nonzero invariants Hne Hnz) as Hg.
  assert (HP : Forall Z.prime P) by now apply prime_support_primes.
  assert (Hwne : weights <> []).
  { destruct weights, invariants; try discriminate; congruence. }
  destruct (scalar_of_val q P invariants weights one Pq HP
              (NoDup_prime_support _) (one_neq_zero (K := Qc)))
    as [Hs Hv].
  rewrite exponent_reduced by assumption. rewrite Hv.
  rewrite Qc_val_one by (now apply Z.prime_ge_2).
  destruct (in_dec Z.eq_dec q P) as [Hin | Hnin]; [lia|].
  rewrite (exponent_outside q invariants weights) by assumption. lia.
Qed.

(** A least quotient of zero, read on the multiplicities. *)
Lemma exponent_zero_multiplicities (q : Z) (l : list Qc) (weights : list Z) :
  l <> [] -> List.length weights = List.length l ->
  Forall (fun w => 0 < w) weights ->
  exponent q l weights = 0 ->
  (forall o w, In (o, w) (combine l weights) -> 0 <= Qval q (this o))
  /\ (exists o w, In (o, w) (combine l weights) /\ Qval q (this o) < w).
Proof.
  intros Hne Hlen Hpos. unfold exponent.
  assert (Hw : forall o w, In (o, w) (combine l weights) -> 0 < w).
  { intros o w Hin. apply in_combine_r in Hin.
    exact (proj1 (Forall_forall _ _) Hpos w Hin). }
  destruct (quotients q l weights) as [|e es] eqn:Hq.
  { exfalso. unfold quotients in Hq. apply map_eq_nil in Hq.
    destruct l, weights; try discriminate; congruence. }
  intro Hmin.
  assert (Hall : forall o w, In (o, w) (combine l weights) ->
                   In (Qval q (this o) / w) (e :: es)).
  { intros o w Hin. rewrite <- Hq. unfold quotients.
    apply in_map_iff. exists (o, w). split; [reflexivity | exact Hin]. }
  split.
  - intros o w Hin. pose proof (Hw o w Hin) as Hpw.
    assert (Hle : 0 <= Qval q (this o) / w).
    { rewrite <- Hmin. destruct (Hall o w Hin) as [<- | Hin'].
      - exact (proj1 (fold_min_le es e)).
      - exact (proj2 (fold_min_le es e) _ Hin'). }
    destruct (Z.lt_ge_cases (Qval q (this o)) 0) as [Hneg | Hge]; [|exact Hge].
    pose proof (Z.div_lt_upper_bound (Qval q (this o)) w 0 Hpw) as Hd. lia.
  - pose proof (fold_min_in es e) as Hin. rewrite Hmin, <- Hq in Hin.
    unfold quotients in Hin. apply in_map_iff in Hin as ([o w] & Ho & Hin).
    cbn [fst snd] in Ho. exists o, w. split; [exact Hin|].
    pose proof (Hw o w Hin) as Hpw.
    pose proof (Z.mul_succ_div_gt (Qval q (this o)) w Hpw) as Hd. lia.
Qed.

Lemma forallb_false {A : Type} (f : A -> bool) (l : list A) :
  forallb f l = false -> exists x, In x l /\ f x = false.
Proof.
  induction l as [|a l IH]; [discriminate|].
  cbn [forallb]. destruct (f a) eqn:Ha.
  - intro H. destruct (IH H) as (x & Hx & Hf). exists x. split; [now right|].
    exact Hf.
  - intros _. exists a. split; [now left | exact Ha].
Qed.

(** Every integer from 2 on has a prime divisor. *)
Lemma prime_divisor (n : Z) : 2 <= n -> exists p, Z.prime p /\ (p | n).
Proof.
  intro Hn.
  assert (H : forall k, 0 <= k -> forall m, 2 <= m <= k ->
                exists p, Z.prime p /\ (p | m)).
  { intros k Hk. pattern k. apply natlike_ind; [intros m Hm; lia| |exact Hk].
    intros j Hj IH m Hm.
    destruct (is_prime m) eqn:Hp.
    - exists m. split; [now apply is_prime_spec | apply Z.divide_refl].
    - unfold is_prime in Hp. apply andb_false_iff in Hp as [Hp | Hp];
        [apply Z.leb_gt in Hp; lia|].
      apply forallb_false in Hp as (d & Hd & Hdiv).
      apply In_Zrange in Hd. apply negb_false_iff, Z.eqb_eq in Hdiv.
      assert (Hdm : (d | m)) by (apply Z.mod_divide; [lia | exact Hdiv]).
      destruct (IH d ltac:(lia)) as (p & Pp & Hpd).
      exists p. split; [exact Pp | now apply Z.divide_trans with d]. }
  apply (H n); lia.
Qed.

(** A rational whose multiplicities are nonnegative at every prime is an
    integer. *)
Lemma integral_of_multiplicities (x : Qc) :
  x <> zero -> (forall q, Z.prime q -> 0 <= Qval q (this x)) ->
  Qden (this x) = 1%positive.
Proof.
  intros Hx Hv.
  destruct (Pos.eq_dec (Qden (this x)) 1) as [E | E]; [exact E|].
  exfalso.
  destruct (prime_divisor (Zpos (Qden (this x))) ltac:(lia))
    as (p & Pp & Hp).
  pose proof (Z.prime_ge_2 p Pp) as Hp2.
  apply Qc_nonzero_num in Hx.
  assert (Hg : Z.gcd (Qnum (this x)) (Zpos (Qden (this x))) = 1).
  { apply Qred_identity2. apply (canon x). }
  assert (Hden : 1 <= Zval p (Zpos (Qden (this x)))).
  { apply Zval_spec; [lia | lia | lia |]. now rewrite Z.pow_1_r. }
  assert (Hnum : Zval p (Qnum (this x)) = 0).
  { pose proof (Zval_nonneg p (Qnum (this x))) as H0.
    destruct (Z.eq_dec (Zval p (Qnum (this x))) 0) as [E0 | E0]; [exact E0|].
    exfalso.
    assert (H1 : (p ^ 1 | Qnum (this x)))
      by (apply Zval_spec; [lia | exact Hx | lia | lia]).
    rewrite Z.pow_1_r in H1.
    pose proof (Z.gcd_greatest _ _ _ H1 Hp) as Hd. rewrite Hg in Hd.
    apply Z.divide_1_r_nonneg in Hd; lia. }
  specialize (Hv p Pp). unfold Qval in Hv. lia.
Qed.

End ReducedFacts.

Import ValuationFacts FactorFacts DictFacts ReducedFacts.

(** X12.  On nonzero rational invariants with as many positive weights,
    [reduce_invariants] returns a list equivalent to its input, each
    invariant divided by the power of one nonzero scalar that its weight
    prescribes, whose entries are integers without a common weighted
    divisor: for no prime [q] does [q**weights[i]] divide the [i]-th entry
    for every [i]. *)
Theorem reduce_invariants_no_common_weighted_divisor
    (invariants : list Qc) (weights : list Z) :
  invariants <> [] -> Forall (fun x => x <> zero) invariants ->
  List.length weights = List.length invariants ->
  Forall (fun w => 0 < w) weights ->
  exists out s,
    reduce_invariants invariants weights = ret out
    /\ s <> zero
    /\ out = map (fun Iw => (fst Iw * zpow s (- snd Iw))%Qc)
               (combine invariants weights)
    /\ Forall (fun o => Qden (this o) = 1%positive) out
    /\ forall q, Z.prime q ->
         ~ (forall o w, In (o, w) (combine out weights) ->
                        (q ^ w | Qnum (this o))).
Proof.
  intros Hne Hnz Hlen Hpos.
  set (P := prime_support (gcd_list invariants)).
  set (s := scalar_of P invariants weights one).
  set (out := reduced invariants weights s).
  pose proof (gcd_list_nonzero invariants Hne Hnz) as Hg.
  assert (HP : Forall Z.prime P) by now apply prime_support_primes.
  assert (Hs : s <> zero).
  { apply (scalar_of_val 2 P invariants weights one Z.prime_2 HP).
    - apply NoDup_prime_support.
    - apply (one_neq_zero (K := Qc)). }
  assert (Holen : List.length out = List.length invariants)
    by now apply reduced_length.
  assert (Hone : out <> []).
  { destruct out, invariants; try discriminate; congruence. }
  assert (Honz : Forall (fun x => x <> zero) out)
    by now apply reduced_nonzero.
  assert (Hmult : forall q, Z.prime q ->
            (forall o w, In (o, w) (combine out weights) ->
                         0 <= Qval q (this o))
            /\ (exists o w, In (o, w) (combine out weights)
                            /\ Qval q (this o) < w)).
  { intros q Pq. apply exponent_zero_multiplicities; try assumption;
      [congruence|].
    now apply exponent_after_reduction. }
  assert (Hint : Forall (fun o => Qden (this o) = 1%positive) out).
  { apply Forall_forall. intros o Ho.
    apply integral_of_multiplicities;
      [exact (proj1 (Forall_forall _ _) Honz o Ho)|].
    intros q Pq.
    destruct (in_combine_partner out weights o ltac:(congruence) Ho)
      as [w Hw].
    exact (proj1 (Hmult q Pq) o w Hw). }
  exists out, s. split; [now apply reduce_invariants_eq|].
  split; [exact Hs|]. split; [reflexivity|]. split; [exact Hint|].
  intros q Pq Hall.
  destruct (Hmult q Pq) as [_ (o & w & Hin & Hlt)].
  pose proof (Z.prime_ge_2 q Pq) as Hq2.
  assert (Ho : In o out) by (now apply in_combine_l in Hin).
  assert (Hw : 0 < w).
  { apply in_combine_r in Hin.
    exact (proj1 (Forall_forall _ _) Hpos w Hin). }
  pose proof (proj1 (Forall_forall _ _) Honz o Ho) as Hoz.
  apply Qc_nonzero_num in Hoz.
  pose proof (proj1 (Forall_forall _ _) Hint o Ho) as Hd.
  cbv beta in Hd.
  pose proof (proj1 (Zval_spec q (Qnum (this o)) w ltac:(lia) Hoz ltac:(lia))
                (Hall o w Hin)) as Hv.
  unfold Qval in Hlt. rewrite Hd in Hlt.
  rewrite (Zval_small q 1) in Hlt by lia. lia.
Qed.

Lemma reduce_invariants_no_common_weighted_divisor_witness :
  exists out s,
    reduce_invariants [frac 6 5; Qc_of_Z 12; Qc_of_Z 16] [1; 2; 3] = ret out
    /\ s <> zero
    /\ out = map (fun Iw => (fst Iw * zpow s (- snd Iw))%Qc)
               (combine [frac 6 5; Qc_of_Z 12; Qc_of_Z 16] [1; 2; 3])
    /\ Forall (fun o => Qden (this o) = 1%positive) out
    /\ forall q, Z.prime q ->
         ~ (forall o w, In (o, w) (combine out [1; 2; 3]) ->
                        (q ^ w | Qnum (this o))).
Proof.
  assert (nz : forall x : Qc, this x <> this zero -> x <> zero)
    by (intros x H E; apply H; now rewrite E).
  apply (reduce_invariants_no_common_weighted_divisor
           [frac 6 5; Qc_of_Z 12; Qc_of_Z 16] [1; 2; 3]).
  - discriminate.
  - repeat constructor; apply nz; discriminate.
  - reflexivity.
  - repeat constructor.
Defined.

(** ** Where [reduce_invariants] fails *)

Module ReduceFailure.

Lemma factor_zero : factor (zero : Qc) = raise ArithmeticError.
Proof. reflexivity. Qed.

Lemma mapM_factor_zero (l : list Qc) :
  In zero l -> mapM factor l = raise ArithmeticError.
Proof.
  induction l as [|x xs IH]; [contradiction|].
  intro Hin. cbn [mapM].
  destruct (Qc_eq_dec x zero) as [-> | Hx].
  - now rewrite factor_zero.
  - destruct Hin as [E | Hin]; [congruence|].
    rewrite (factor_nonzero x Hx), bind_ret_l, (IH Hin). reflexivity.
Qed.

Lemma reduce_invariants_zero (invariants : list Qc) (weights : list Z) :
  invariants = [] \/ In zero invariants ->
  reduce_invariants invariants weights = raise ArithmeticError.
Proof.
  intros [-> | Hin]; [reflexivity|].
  unfold reduce_invariants. now rewrite (mapM_factor_zero _ Hin).
Qed.

End ReduceFailure.

Import ReduceFailure.

(** X13.  [reduce_invariants] cannot reduce a zero: an empty list of
    invariants, or a list with a zero entry, raises [ArithmeticError]
    whatever the weights are.  With as many positive weights as invariants
    this is the only failure of the routine over the rationals. *)
Theorem reduce_invariants_failure
    (invariants : list Qc) (weights : list Z) :
  (invariants = [] \/ In zero invariants ->
   reduce_invariants invariants weights = raise ArithmeticError)
  /\ (List.length weights = List.length invariants ->
      Forall (fun w => 0 < w) weights ->
      forall e, reduce_invariants invariants weights = raise e ->
                e = ArithmeticError
                /\ (invariants = [] \/ In zero invariants)).
Proof.
  split; [apply reduce_invariants_zero|].
  intros Hlen Hpos e He.
  assert (Hz : invariants = [] \/ In zero invariants).
  { destruct invariants as [|x xs]; [now left|].
    destruct (in_dec Qc_eq_dec zero (x :: xs)) as [Hin | Hnin];
      [now right|].
    exfalso.
    rewrite reduce_invariants_eq in He; try assumption;
      [discriminate He | discriminate |].
    apply Forall_forall. intros y Hy ->. contradiction. }
  split; [|exact Hz].
  rewrite (reduce_invariants_zero _ weights Hz) in He.
  unfold raise in He. now injection He as <-.
Qed.

Lemma reduce_invariants_failure_witness :
  reduce_invariants (map Qc_of_Z [0; 1; 1; 1]) [2; 4; 6; 9]
  = raise ArithmeticError
  /\ (forall e, reduce_invariants ([] : list Qc) [] = raise e ->
                e = ArithmeticError
                /\ (([] : list Qc) = [] \/ In zero ([] : list Qc))).
Proof.
  split.
  - apply (reduce_invariants_failure (map Qc_of_Z [0; 1; 1; 1])
             [2; 4; 6; 9]).
    right. left. reflexivity.
  - apply (reduce_invariants_failure [] []); [reflexivity | constructor].
Defined.

(** X14.  Under [scaling='coprime'] three or four rational invariants go
    through [reduce_invariants] before anything else is computed, so a zero
    among them ends the routine in [ArithmeticError]: none of the
    degenerate forms that need [A = 0] or [B = 0], and no syzygy report,
    can be reached with this scaling. *)
Theorem coprime_rejects_zero_invariants
    (invariants : list Qc) (invariant_choice : string) :
  str_in invariant_choice ["default"; "clebsch"] = true ->
  List.length invariants = 3%nat \/ List.length invariants = 4%nat ->
  In zero invariants ->
  binary_quintic_from_invariants invariants invariant_choice "coprime"
  = raise ArithmeticError.
Proof.
  intros H1 Hlen Hin. unfold binary_quintic_from_invariants.
  rewrite (quintic_prepare_recognised invariants invariant_choice "coprime"
             H1 eq_refl).
  assert (E : coprime_reduction "coprime" invariants
              = raise ArithmeticError).
  { destruct Hlen as [H3 | H4].
    - rewrite (coprime_reduction_weights invariants [1; 2; 3])
        by (rewrite ?H3; auto).
      apply reduce_invariants_zero. now right.
    - rewrite (coprime_reduction_weights invariants [2; 4; 6; 9])
        by (rewrite ?H4; auto).
      apply reduce_invariants_zero. now right. }
  rewrite E. reflexivity.
Qed.

Lemma coprime_rejects_zero_invariants_witness :
  binary_quintic_from_invariants (map Qc_of_Z [1; 0; 0]) "clebsch" "coprime"
  = raise ArithmeticError
  /\ binary_quintic_from_invariants (map Qc_of_Z [1; 0; 0]) "clebsch" "none"
     = ret (literal [1; 0; 0; 0; 0; 1]).
Proof.
  split.
  - apply (coprime_rejects_zero_invariants (map Qc_of_Z [1; 0; 0])
             "clebsch"); [reflexivity | now left |].
    right. left. reflexivity.
  - apply fractions_ext. vm_compute. reflexivity.
Defined.

(** ** Which rational invariants are reconstructed *)

Module TotalQc.

Lemma Qc_char : int_in (characteristic (K := Qc)) [2; 3; 5] = false.
Proof. reflexivity. Qed.

Lemma zero_Qc : (zero : Qc) = 0%Qc.
Proof. now apply Qc_ext. Qed.

(** The coercion [K(...)] of a coefficient succeeds when the scale has no
    irrational part, and when the value it multiplies is zero. *)
Lemma K_of_surd_scaled (c a : Qc) (s : surd) :
  rad_part s = zero \/ a = zero ->
  K_of_surd (surd_scale_r (surd_scale c s) a)
  = ret (c * rat_part s * a)%Qc.
Proof.
  intro H. unfold K_of_surd, surd_scale_r, surd_scale.
  cbn [rad_part rat_part].
  assert (E : (c * rad_part s * a)%K = zero).
  { cbn [mul Qc_field]. destruct H as [-> | ->]; rewrite zero_Qc; ring. }
  rewrite E, eqb_refl. reflexivity.
Qed.

Lemma quintic_tail_total (scaling : string) (A B R : Qc)
    (s0 s1 s2 s3 s4 s5 : surd) (i3 D Delta a1 B0 B1 C0 C1 : Qc) :
  (scaling =? "coprime")%string = false ->
  rad_part s0 = zero -> rad_part s2 = zero -> rad_part s4 = zero ->
  (rad_part s1 = zero /\ rad_part s3 = zero /\ rad_part s5 = zero)
  \/ (R = zero /\ B0 = zero /\ C0 = zero) ->
  exists t,
    quintic_tail scaling A B R [s0; s1; s2; s3; s4; s5] i3 D Delta a1 B0 B1
      C0 C1 = ret t.
Proof.
  intros Hs H0 H2 H4 Hodd. unfold quintic_tail.
  rewrite (ppow_inverse_small 2 Qc_char) by (simpl; tauto).
  rewrite bind_ret_l.
  rewrite (ppow_inverse_small 4 Qc_char) by (simpl; tauto).
  rewrite bind_ret_l, Hs.
  cbn [mapM seq getitem nth_error Nat.sub bind ret].
  assert (Hside : forall X Y Z W : Qc,
            (rad_part s5 = zero \/ (X * R)%Qc = zero)
            /\ (rad_part s3 = zero
                \/ (- D * B0 + - (Y * Delta * (X * R)))%Qc = zero)
            /\ (rad_part s1 = zero
                \/ (Z * C0 + D * Delta * B0 + W * (X * R))%Qc = zero)).
  { intros X Y Z W.
    destruct Hodd as [(H1 & H3 & H5) | (-> & -> & ->)]; [tauto|].
    rewrite zero_Qc.
    split; [right; ring|]. split; right; ring. }
  match goal with
  | |- context [K_of_surd (surd_scale_r (surd_scale _ s5) (?X * R)%K)] =>
      match goal with
      | |- context [K_of_surd (surd_scale_r (surd_scale _ s3)
                      (_ + - (?Y * Delta * _))%K)] =>
          match goal with
          | |- context [K_of_surd (surd_scale_r (surd_scale _ s1)
                          (?Z * C0 + _ + ?W * _)%K)] =>
              destruct (Hside X Y Z W) as (Ha0 & Ha2 & Ha4)
          end
      end
  end.
  rewrite (K_of_surd_scaled _ _ s5 Ha0).
  rewrite (K_of_surd_scaled _ _ s4 (or_introl H4)).
  rewrite (K_of_surd_scaled _ _ s3 Ha2).
  rewrite (K_of_surd_scaled _ _ s2 (or_introl H2)).
  rewrite (K_of_surd_scaled _ _ s1 Ha4).
  rewrite (K_of_surd_scaled _ _ s0 (or_introl H0)).
  eexists. reflexivity.
Qed.

Lemma mapM_Forall {A B : Type} (P : B -> Prop) (f : A -> result B)
    (l : list A) (ys : list B) :
  (forall x y, f x = ret y -> P y) -> mapM f l = ret ys -> Forall P ys.
Proof.
  intro Hf. revert ys. induction l as [|x xs IH]; intros ys H.
  - unfold ret in H. cbn [mapM] in H. injection H as <-. constructor.
  - cbn [mapM] in H. apply bind_ret_inv in H as (y & Hy & H).
    apply bind_ret_inv in H as (ys' & Hys & H).
    unfold ret in H. injection H as <-.
    constructor; [exact (Hf x y Hy) | exact (IH ys' Hys)].
Qed.

Lemma mapM_nth {A B : Type} (f : A -> result B) (l : list A)
    (ys : list B) :
  mapM f l = ret ys ->
  forall i x y, nth_error l i = Some x -> nth_error ys i = Some y ->
                f x = ret y.
Proof.
  revert ys. induction l as [|a l IH]; intros ys H i x y Hx Hy.
  - destruct i; discriminate Hx.
  - cbn [mapM] in H. apply bind_ret_inv in H as (b & Hb & H).
    apply bind_ret_inv in H as (ys' & Hys & H).
    unfold ret in H. injection H as <-.
    destruct i as [|i]; cbn [nth_error] in Hx, Hy.
    + injection Hx as <-. injection Hy as <-. exact Hb.
    + exact (IH ys' Hys i x y Hx Hy).
Qed.

(** The scales built from quotients lie in the field. *)
Lemma comprehension_rational (u R v : Qc) (k : Z) (l : list surd) :
  mapM (fun i => a <- ppow u k ;; q <- pdiv R v ;;
                 ret (surd_of (a * npow q i)%K)) (seq 0 6) = ret l ->
  Forall (fun s => rad_part s = zero) l.
Proof.
  apply mapM_Forall. intros i y H.
  apply bind_ret_inv in H as (a & _ & H).
  apply bind_ret_inv in H as (q & _ & H).
  unfold ret in H. injection H as <-. reflexivity.
Qed.

Lemma six {A : Type} (l : list A) :
  List.length l = 6%nat ->
  exists s0 s1 s2 s3 s4 s5, l = [s0; s1; s2; s3; s4; s5].
Proof.
  destruct l as [|s0 [|s1 [|s2 [|s3 [|s4 [|s5 [|]]]]]]]; try discriminate.
  intros _. now exists s0, s1, s2, s3, s4, s5.
Qed.

Lemma alpha_beta_total (scaling : string) (A B M N R : Qc)
    (l : list surd) :
  (scaling =? "coprime")%string = false ->
  List.length l = 6%nat -> Forall (fun s => rad_part s = zero) l ->
  exists t, quintic_alpha_beta scaling A B M N R l = ret t.
Proof.
  intros Hs Hlen Hall.
  destruct (six l Hlen) as (s0 & s1 & s2 & s3 & s4 & s5 & ->).
  repeat match goal with
         | H : Forall _ (_ :: _) |- _ => apply Forall_cons_iff in H as [? H]
         end.
  unfold quintic_alpha_beta.
  rewrite (ppow_inverse_small 3 Qc_char) by (simpl; tauto).
  rewrite bind_ret_l.
  rewrite (ppow_inverse_small 2 Qc_char) by (simpl; tauto).
  rewrite bind_ret_l.
  apply quintic_tail_total; auto.
Qed.

Lemma alpha_gamma_total (scaling : string) (A B C N R : Qc)
    (l : list surd) :
  (scaling =? "coprime")%string = false ->
  List.length l = 6%nat -> Forall (fun s => rad_part s = zero) l ->
  exists t, quintic_alpha_gamma scaling A B C N R l = ret t.
Proof.
  intros Hs Hlen Hall.
  destruct (six l Hlen) as (s0 & s1 & s2 & s3 & s4 & s5 & ->).
  repeat match goal with
         | H : Forall _ (_ :: _) |- _ => apply Forall_cons_iff in H as [? H]
         end.
  unfold quintic_alpha_gamma.
  rewrite (ppow_inverse_small 3 Qc_char) by (simpl; tauto).
  rewrite bind_ret_l.
  rewrite (ppow_inverse_small 2 Qc_char) by (simpl; tauto).
  rewrite bind_ret_l.
  apply quintic_tail_total; auto.
Qed.

(** The powers of [sqrt(A)] with an even exponent lie in the field. *)
Lemma sqrt_pow_even (A : Qc) (e : Z) (s : surd) :
  e mod 2 = 0 -> sqrt_pow A e = ret s -> rad_part s = zero.
Proof.
  intros He H. unfold sqrt_pow in H. destruct (is_square A).
  - apply bind_ret_inv in H as (p & _ & H).
    unfold ret in H. injection H as <-. reflexivity.
  - apply bind_ret_inv in H as (p & _ & H). rewrite He in H.
    unfold ret in H. injection H as <-. reflexivity.
Qed.

(** With [R = 0] the coefficients of even index vanish, and these are the
    ones that meet the odd powers of [sqrt(A)]. *)
Lemma sqrt_scale_total (scaling : string) (A B M N : Qc) :
  (scaling =? "coprime")%string = false -> A <> zero ->
  exists t,
    (scale <- scale_sqrt A ;; quintic_alpha_beta scaling A B M N zero scale)
    = ret t.
Proof.
  intros Hs HA.
  destruct (scale_sqrt_defined A HA) as (l & Hl & Hlen).
  rewrite Hl, bind_ret_l.
  destruct (six l Hlen) as (s0 & s1 & s2 & s3 & s4 & s5 & ->).
  pose proof (mapM_nth _ _ _ Hl 0%nat 0%nat s0 eq_refl eq_refl) as H0.
  pose proof (mapM_nth _ _ _ Hl 2%nat 2%nat s2 eq_refl eq_refl) as H2.
  pose proof (mapM_nth _ _ _ Hl 4%nat 4%nat s4 eq_refl eq_refl) as H4.
  apply sqrt_pow_even in H0; [|reflexivity].
  apply sqrt_pow_even in H2; [|reflexivity].
  apply sqrt_pow_even in H4; [|reflexivity].
  unfold quintic_alpha_beta.
  rewrite (ppow_inverse_small 3 Qc_char) by (simpl; tauto).
  rewrite bind_ret_l.
  rewrite (ppow_inverse_small 2 Qc_char) by (simpl; tauto).
  rewrite bind_ret_l.
  apply quintic_tail_total; auto.
Qed.

Lemma scale_one_rational :
  List.length (scale_one (K := Qc)) = 6%nat
  /\ Forall (fun s : surd => rad_part s = zero) (scale_one (K := Qc)).
Proof. split; [reflexivity | repeat constructor]. Qed.

Ltac eqb_case x H :=
  destruct (x == zero)%K eqn:H; [apply eqb_eq in H | apply eqb_false in H].

(** The case analysis without the coprime scaling: the threefold linear
    factor is its only failure. *)
Lemma quintic_cases_total (scaling : string) (st : clebsch (K := Qc)) :
  scaling = "none" \/ scaling = "normalized" ->
  (cM st = zero /\ cN st = zero /\ cA st = zero
   /\ quintic_cases scaling st = raise (ValueError threefold_message))
  \/ (~ (cM st = zero /\ cN st = zero /\ cA st = zero)
      /\ exists t, quintic_cases scaling st = ret t).
Proof.
  intro Hs. destruct st as [A B C M N R]. cbn [cM cN cA].
  assert (Hc : (scaling =? "coprime")%string = false)
    by (destruct Hs as [-> | ->]; reflexivity).
  destruct scale_one_rational as [Hlen1 Hrad1].
  unfold quintic_cases.
  assert (Hab : forall (sc : string -> result (list surd)),
            (forall l, sc "normalized" = ret l ->
                       Forall (fun s : surd => rad_part s = zero) l) ->
            (exists l, sc "normalized" = ret l /\ List.length l = 6%nat) ->
            exists t,
              (scale <- (if (scaling =? "normalized")%string
                         then sc scaling else ret scale_one) ;;
               quintic_alpha_beta scaling A B M N R scale) = ret t).
  { intros sc Hrad (l & Hl & Hlen). destruct Hs as [-> | ->].
    - change (("none" =? "normalized")%string) with false. cbv iota.
      rewrite bind_ret_l. now apply alpha_beta_total.
    - change (("normalized" =? "normalized")%string) with true. cbv iota.
      rewrite Hl, bind_ret_l.
      apply alpha_beta_total; [reflexivity | exact Hlen | exact (Hrad l Hl)]. }
  eqb_case M EM.
  - eqb_case N EN.
    + eqb_case A EA.
      * left. tauto.
      * right. split; [tauto|]. destruct (B == zero)%K; eexists; reflexivity.
    + eqb_case A EA.
      * right. split; [tauto|]. eexists; reflexivity.
      * right. split; [tauto|].
        destruct Hs as [-> | ->].
        -- change (("none" =? "normalized")%string) with false. cbv iota.
           rewrite bind_ret_l. now apply alpha_gamma_total.
        -- change (("normalized" =? "normalized")%string) with true.
           cbv iota.
           destruct (scale_alpha_gamma_defined A R EA) as (l & Hl & Hlen).
           rewrite Hl, bind_ret_l.
           apply alpha_gamma_total; [reflexivity | exact Hlen |].
           exact (comprehension_rational _ _ _ _ _ Hl).
  - right. split; [tauto|].
    eqb_case R ER.
    + eqb_case A EA; [eexists; reflexivity|].
      subst R. destruct Hs as [-> | ->].
      * change (("none" =? "normalized")%string) with false. cbv iota.
        rewrite bind_ret_l. now apply alpha_beta_total.
      * change (("normalized" =? "normalized")%string) with true. cbv iota.
        now apply sqrt_scale_total.
    + eqb_case A EA.
      * eqb_case B EB; [eexists; reflexivity|].
        apply (Hab (fun _ => scale_RB R B)).
        -- intros l Hl. exact (comprehension_rational _ _ _ _ _ Hl).
        -- exact (scale_RB_defined R B ER EB).
      * apply (Hab (fun _ => scale_alpha_beta A R)).
        -- intros l Hl. exact (comprehension_rational _ _ _ _ _ Hl).
        -- exact (scale_alpha_beta_defined A R EA).
Qed.

Lemma half_nonzero : (inv (of_Z 2) * one)%K <> (zero : Qc).
Proof. intro E. apply (f_equal this) in E. discriminate E. Qed.

(** [M = N = A = 0] forces [B = C = 0]. *)
Lemma clebsch_zero (i2 A B C : Qc) :
  i2 <> zero -> clebsch_M A B C = zero -> clebsch_N i2 A B C = zero ->
  A = zero -> B = zero /\ C = zero.
Proof.
  intros Hi HM HN ->. unfold clebsch_M in HM. unfold clebsch_N in HN.
  rewrite npow_Qc in HN. cbn [mul add opp Qc_field Qcpower] in HM, HN.
  pose proof (small_int_nonzero (K := Qc) 3 Qc_char ltac:(simpl; tauto))
    as H3.
  rewrite zero_Qc in *.
  assert (E3 : (of_Z 3 * C)%Qc = 0%Qc).
  { transitivity (- (of_Z 2 * 0 * B + - (of_Z 3 * C)))%Qc; [ring|].
    rewrite HM. ring. }
  apply Qcmult_integral in E3 as [E3 | HC]; [contradiction|].
  split; [|exact HC].
  apply Qcmult_integral in HN as [HN | HN]; [contradiction|].
  assert (EB : (B * B)%Qc = 0%Qc).
  { transitivity (- (0 * C + - (B * (B * 1))))%Qc; [ring|].
    rewrite HN. ring. }
  now apply Qcmult_integral in EB as [EB | EB].
Qed.

(** The values that three invariants hand to the case analysis. *)
Lemma quintic_prepare_three (A B C : Qc) (invariant_choice scaling : string) :
  str_in invariant_choice ["default"; "clebsch"] = true ->
  scaling = "none" \/ scaling = "normalized" ->
  let i2 := (inv (of_Z 2) * one)%K in
  let M := clebsch_M A B C in
  let N := clebsch_N i2 A B C in
  let r := clebsch_R2 i2 A B C in
  quintic_prepare [A; B; C] invariant_choice scaling
  = ret (if is_square r then mk_clebsch A B C M N (sqrt r)
         else mk_clebsch (r * A)%K (npow r 2 * B)%K (npow r 3 * C)%K
                (npow r 3 * M)%K (npow r 4 * N)%K (npow r 5)).
Proof.
  intros H1 Hs. cbv zeta.
  rewrite (quintic_prepare_recognised _ _ _ H1)
    by (destruct Hs as [-> | ->]; reflexivity).
  assert (Hred : coprime_reduction scaling [A; B; C] = ret [A; B; C])
    by (destruct Hs as [-> | ->]; reflexivity).
  rewrite Hred, bind_ret_l, unpack3_cons, bind_ret_l, Qc_char.
  rewrite (ppow_inverse_small 2 Qc_char) by (simpl; tauto).
  rewrite bind_ret_l. unfold syzygy_root. cbn [List.length Nat.eqb].
  now destruct (is_square _).
Qed.

End TotalQc.

Import TotalQc.

(** X15.  Over the rationals, with [scaling] ['none'] or ['normalized'],
    three invariants are always reconstructed, whether or not [R2] is a
    square and whatever branch of the case analysis they fall in, with one
    exception: the triple [(0, 0, 0)], for which the routine raises
    [ValueError] on the threefold linear factor.  No division by zero, no
    failing coercion and no other error can occur. *)
Theorem three_invariants_reconstructed
    (A B C : Qc) (invariant_choice scaling : string) :
  str_in invariant_choice ["default"; "clebsch"] = true ->
  scaling = "none" \/ scaling = "normalized" ->
  (A = zero /\ B = zero /\ C = zero ->
   binary_quintic_from_invariants [A; B; C] invariant_choice scaling
   = raise (ValueError threefold_message))
  /\ (~ (A = zero /\ B = zero /\ C = zero) ->
      exists t,
        binary_quintic_from_invariants [A; B; C] invariant_choice scaling
        = ret t /\ List.length t = 6%nat).
Proof.
  intros H1 Hs. unfold binary_quintic_from_invariants.
  rewrite (quintic_prepare_three A B C _ _ H1 Hs), bind_ret_l.
  set (i2 := (inv (of_Z 2) * one)%K).
  set (r := clebsch_R2 i2 A B C).
  split.
  - intros (-> & -> & ->).
    destruct Hs as [-> | ->]; vm_compute; reflexivity.
  - intro Hnz.
    match goal with
    | |- exists t, quintic_cases _ ?st = _ /\ _ =>
        destruct (quintic_cases_total scaling st Hs)
          as [(HM & HN & HA & _) | (_ & t & Ht)]
    end.
    + exfalso. apply Hnz.
      destruct (is_square r) eqn:Hsq; cbn [cM cN cA] in HM, HN, HA.
      * destruct (clebsch_zero i2 A B C half_nonzero HM HN HA). tauto.
      * assert (Hr : r <> zero).
        { intros E. rewrite E in Hsq. discriminate Hsq. }
        destruct (mul_integral _ _ HA) as [E | EA]; [contradiction|].
        destruct (mul_integral _ _ HM) as [E | EM];
          [now apply npow_nonzero in E|].
        destruct (mul_integral _ _ HN) as [E | EN];
          [now apply npow_nonzero in E|].
        destruct (clebsch_zero i2 A B C half_nonzero EM EN EA). tauto.
    + exists t. split; [exact Ht|]. exact (quintic_cases_length _ _ _ Ht).
Qed.

Lemma three_invariants_reconstructed_witness :
  binary_quintic_from_invariants (map Qc_of_Z [0; 0; 0]) "clebsch" "normalized"
  = raise (ValueError threefold_message)
  /\ exists t,
       binary_quintic_from_invariants (map Qc_of_Z [2; 4; 6]) "clebsch"
         "normalized" = ret t /\ List.length t = 6%nat.
Proof.
  split.
  - apply (three_invariants_reconstructed (Qc_of_Z 0) (Qc_of_Z 0) (Qc_of_Z 0)
             "clebsch" "normalized"); [reflexivity | now right |].
    repeat split; reflexivity.
  - apply (three_invariants_reconstructed (Qc_of_Z 2) (Qc_of_Z 4) (Qc_of_Z 6)
             "clebsch" "normalized"); [reflexivity | now right |].
    intros (H & _). apply (f_equal this) in H. discriminate H.
Defined.

(** ** The normalized scaling *)

Module NormalizedQc.

(** The coefficients on the general path, when every coercion succeeds. *)
Lemma quintic_tail_closed (scaling : string) (A B R : Qc)
    (s0 s1 s2 s3 s4 s5 : surd) (i3 D Delta a1 B0 B1 C0 C1 : Qc) :
  (scaling =? "coprime")%string = false ->
  rad_part s0 = zero -> rad_part s2 = zero -> rad_part s4 = zero ->
  (rad_part s1 = zero /\ rad_part s3 = zero /\ rad_part s5 = zero)
  \/ (R = zero /\ B0 = zero /\ C0 = zero) ->
  quintic_tail scaling A B R [s0; s1; s2; s3; s4; s5] i3 D Delta a1 B0 B1
    C0 C1
  = ret
      (let i2 := (inv (of_Z 2) * one)%K in
       let i4 := (inv (of_Z 4) * one)%K in
       let a0 := ((of_Z 2 * i3 * npow A 2 - B) * R)%K in
       let a2 := (- D * B0 - i2 * Delta * a0)%K in
       let a3 := (- D * B1 - i2 * Delta * a1)%K in
       let a4 := (npow D 2 * C0 + D * Delta * B0 + i4 * npow Delta 2 * a0)%K in
       let a5 := (npow D 2 * C1 + D * Delta * B1 + i4 * npow Delta 2 * a1)%K in
       [(of_Z 1 * rat_part s5 * a0)%K; (of_Z (-5) * rat_part s4 * a1)%K;
        (of_Z 10 * rat_part s3 * a2)%K; (of_Z (-10) * rat_part s2 * a3)%K;
        (of_Z 5 * rat_part s1 * a4)%K; (of_Z (-1) * rat_part s0 * a5)%K]).
Proof.
  intros Hs H0 H2 H4 Hodd. unfold quintic_tail.
  rewrite (ppow_inverse_small 2 Qc_char) by (simpl; tauto).
  rewrite bind_ret_l.
  rewrite (ppow_inverse_small 4 Qc_char) by (simpl; tauto).
  rewrite bind_ret_l, Hs.
  cbn [mapM seq getitem nth_error Nat.sub bind ret].
  assert (Hside : forall X Y Z W : Qc,
            (rad_part s5 = zero \/ (X * R)%Qc = zero)
            /\ (rad_part s3 = zero
                \/ (- D * B0 + - (Y * Delta * (X * R)))%Qc = zero)
            /\ (rad_part s1 = zero
                \/ (Z * C0 + D * Delta * B0 + W * (X * R))%Qc = zero)).
  { intros X Y Z W.
    destruct Hodd as [(H1 & H3 & H5) | (-> & -> & ->)]; [tauto|].
    rewrite zero_Qc.
    split; [right; ring|]. split; right; ring. }
  match goal with
  | |- context [K_of_surd (surd_scale_r (surd_scale _ s5) (?X * R)%K)] =>
      match goal with
      | |- context [K_of_surd (surd_scale_r (surd_scale _ s3)
                      (_ + - (?Y * Delta * _))%K)] =>
          match goal with
          | |- context [K_of_surd (surd_scale_r (surd_scale _ s1)
                          (?Z * C0 + _ + ?W * _)%K)] =>
              destruct (Hside X Y Z W) as (Ha0 & Ha2 & Ha4)
          end
      end
  end.
  rewrite (K_of_surd_scaled _ _ s5 Ha0).
  rewrite (K_of_surd_scaled _ _ s4 (or_introl H4)).
  rewrite (K_of_surd_scaled _ _ s3 Ha2).
  rewrite (K_of_surd_scaled _ _ s2 (or_introl H2)).
  rewrite (K_of_surd_scaled _ _ s1 Ha4).
  rewrite (K_of_surd_scaled _ _ s0 (or_introl H0)).
  reflexivity.
Qed.

Ltac qc_norm :=
  cbn [npow mul add opp inv Qc_field]; rewrite ?one_Qc, ?zero_Qc.

(** The scales built from quotients, in closed form. *)
Lemma comprehension_closed (u R v : Qc) (k : Z) (n : nat) :
  (0 <=? k) = false -> Z.to_nat (- k) = n -> u <> zero -> v <> zero ->
  mapM (fun i => a <- ppow u k ;; q <- pdiv R v ;;
                 ret (surd_of (a * npow q i)%K)) (seq 0 6)
  = ret (map (fun i => surd_of (npow (inv u) n * npow (R * inv v) i)%K)
           (seq 0 6)).
Proof.
  intros Hk <- Hu Hv. apply mapM_pure. intros i _.
  unfold ppow, pdiv. rewrite Hk.
  apply eqb_false in Hu, Hv. rewrite Hu, Hv. reflexivity.
Qed.

Lemma Qc_nonzero_mul (x y : Qc) : x <> 0%Qc -> y <> 0%Qc -> (x * y)%Qc <> 0%Qc.
Proof.
  intros Hx Hy E. apply Qcmult_integral in E. tauto.
Qed.

Lemma small_nonzero :
  (of_Z 2 : Qc) <> 0%Qc /\ (of_Z 3 : Qc) <> 0%Qc /\ (of_Z 4 : Qc) <> 0%Qc.
Proof.
  repeat split; intro E; apply (f_equal this) in E; discriminate E.
Qed.

Ltac coefficient :=
  cbv zeta; qc_norm; field;
  repeat split; auto using Qc_nonzero_mul;
  try apply small_nonzero.

Ltac closed_tail :=
  unfold quintic_alpha_beta, quintic_alpha_gamma;
  rewrite ?(ppow_inverse_small 3 Qc_char) by (simpl; tauto);
  rewrite ?(ppow_inverse_small 2 Qc_char) by (simpl; tauto);
  rewrite ?bind_ret_l.

Ltac coefficients :=
  apply (f_equal (fun l : list Qc => ret l));
  unfold surd_of; cbn [rat_part];
  repeat (f_equal; try coefficient).

(** The coefficients do not change when the values are rescaled by [nu]
    with the weights 2, 4, 6, 6, 8 and 9: one lemma for each scale. *)
Lemma alpha_beta_scaled (nu A B M N R : Qc) :
  nu <> zero -> A <> zero ->
  (scale <- scale_alpha_beta (npow nu 2 * A)%K (npow nu 9 * R)%K ;;
   quintic_alpha_beta "normalized" (npow nu 2 * A)%K (npow nu 4 * B)%K
     (npow nu 6 * M)%K (npow nu 8 * N)%K (npow nu 9 * R)%K scale)
  = (scale <- scale_alpha_beta A R ;;
     quintic_alpha_beta "normalized" A B M N R scale).
Proof.
  intros Hnu HA.
  assert (HA' : (npow nu 2 * A)%K <> zero)
    by (apply mul_nonzero; [now apply npow_nonzero | exact HA]).
  unfold scale_alpha_beta.
  rewrite !(comprehension_closed _ _ _ (-9) 9)
    by (first [reflexivity | assumption | now apply npow_nonzero]).
  rewrite !bind_ret_l. cbn [map seq]. closed_tail.
  rewrite !quintic_tail_closed
    by (first [reflexivity | left; repeat split; reflexivity]).
  rewrite zero_Qc in Hnu, HA. coefficients.
Qed.

Lemma RB_scaled (nu A B M N R : Qc) :
  nu <> zero -> R <> zero -> B <> zero ->
  (scale <- scale_RB (npow nu 9 * R)%K (npow nu 4 * B)%K ;;
   quintic_alpha_beta "normalized" (npow nu 2 * A)%K (npow nu 4 * B)%K
     (npow nu 6 * M)%K (npow nu 8 * N)%K (npow nu 9 * R)%K scale)
  = (scale <- scale_RB R B ;;
     quintic_alpha_beta "normalized" A B M N R scale).
Proof.
  intros Hnu HR HB.
  assert (HR' : (npow nu 9 * R)%K <> zero)
    by (apply mul_nonzero; [now apply npow_nonzero | exact HR]).
  assert (HB' : (npow nu 4 * B)%K <> zero)
    by (apply mul_nonzero; [now apply npow_nonzero | exact HB]).
  unfold scale_RB.
  rewrite !(comprehension_closed _ _ _ (-2) 2)
    by (first [reflexivity | assumption | now apply npow_nonzero]).
  rewrite !bind_ret_l. cbn [map seq]. closed_tail.
  rewrite !quintic_tail_closed
    by (first [reflexivity | left; repeat split; reflexivity]).
  rewrite zero_Qc in Hnu, HR, HB. coefficients.
Qed.

Lemma alpha_gamma_scaled (nu A B C N R : Qc) :
  nu <> zero -> A <> zero ->
  (scale <- scale_alpha_gamma (npow nu 2 * A)%K (npow nu 9 * R)%K ;;
   quintic_alpha_gamma "normalized" (npow nu 2 * A)%K (npow nu 4 * B)%K
     (npow nu 6 * C)%K (npow nu 8 * N)%K (npow nu 9 * R)%K scale)
  = (scale <- scale_alpha_gamma A R ;;
     quintic_alpha_gamma "normalized" A B C N R scale).
Proof.
  intros Hnu HA.
  assert (HA' : (npow nu 2 * A)%K <> zero)
    by (apply mul_nonzero; [now apply npow_nonzero | exact HA]).
  unfold scale_alpha_gamma.
  rewrite !(comprehension_closed _ _ _ (-14) 14)
    by (first [reflexivity | assumption | now apply npow_nonzero]).
  rewrite !bind_ret_l. cbn [map seq]. closed_tail.
  rewrite !quintic_tail_closed
    by (first [reflexivity | left; repeat split; reflexivity]).
  rewrite zero_Qc in Hnu, HA. coefficients.
Qed.

Lemma npow_inv_sqrt (s A : Qc) (k : nat) :
  (s * s)%Qc = A -> npow (inv s) (2 * k) = npow (inv A) k.
Proof.
  intro Hs. induction k as [|k IH]; [reflexivity|].
  replace (2 * S k)%nat with (S (S (2 * k))) by lia.
  cbn [npow]. rewrite IH. cbn [mul inv Qc_field].
  rewrite <- Hs, Qcinv_mult_distr. ring.
Qed.

Lemma ret_inj {A : Type} (a b : A) : ret a = ret b -> a = b.
Proof. intro H. unfold ret in H. now injection H. Qed.

Lemma ppow_negative (x : Qc) (n : nat) :
  x <> zero -> ppow x (- Z.of_nat (S n)) = ret (npow (inv x) (S n)).
Proof.
  intro Hx. unfold ppow.
  replace (0 <=? - Z.of_nat (S n)) with false
    by (symmetry; apply Z.leb_gt; lia).
  apply eqb_false in Hx. rewrite Hx.
  replace (Z.to_nat (- - Z.of_nat (S n))) with (S n) by lia. reflexivity.
Qed.

Lemma sqrt_pow_even_value (A : Qc) (k : nat) (s : surd) :
  A <> zero -> sqrt_pow A (- 2 * Z.of_nat (S k)) = ret s ->
  rad_part s = zero /\ rat_part s = npow (inv A) (S k).
Proof.
  intros HA H. unfold sqrt_pow in H.
  destruct (is_square A) eqn:Hsq.
  - replace (- 2 * Z.of_nat (S k)) with (- Z.of_nat (S (S (2 * k)))) in H
      by lia.
    rewrite (ppow_negative _ _ (sqrt_nonzero A Hsq HA)), bind_ret_l in H.
    apply ret_inj in H. subst s. split; [reflexivity|].
    cbn [surd_of rat_part].
    replace (S (S (2 * k))) with (2 * S k)%nat by lia.
    apply npow_inv_sqrt. exact (Qc_sqrt_square A Hsq).
  - replace (- 2 * Z.of_nat (S k)) with (- Z.of_nat (S k) * 2) in H by lia.
    rewrite Z.mod_mul, Z.div_mul in H by lia.
    rewrite (ppow_negative _ _ HA), bind_ret_l in H.
    change (0 =? 0) with true in H. cbv iota in H.
    apply ret_inj in H. subst s. split; reflexivity.
Qed.

Lemma scale_sqrt_even (A : Qc) :
  A <> zero ->
  exists s0 s1 s2 s3 s4 s5,
    scale_sqrt A = ret [s0; s1; s2; s3; s4; s5]
    /\ (rad_part s0 = zero /\ rat_part s0 = npow (inv A) 9)
    /\ (rad_part s2 = zero /\ rat_part s2 = npow (inv A) 8)
    /\ (rad_part s4 = zero /\ rat_part s4 = npow (inv A) 7).
Proof.
  intro HA. destruct (scale_sqrt_defined A HA) as (l & Hl & Hlen).
  destruct (six l Hlen) as (s0 & s1 & s2 & s3 & s4 & s5 & ->).
  exists s0, s1, s2, s3, s4, s5. split; [exact Hl|].
  pose proof (mapM_nth _ _ _ Hl 0%nat 0%nat s0 eq_refl eq_refl) as H0.
  pose proof (mapM_nth _ _ _ Hl 2%nat 2%nat s2 eq_refl eq_refl) as H2.
  pose proof (mapM_nth _ _ _ Hl 4%nat 4%nat s4 eq_refl eq_refl) as H4.
  split; [|split].
  - exact (sqrt_pow_even_value A 8 s0 HA H0).
  - exact (sqrt_pow_even_value A 7 s2 HA H2).
  - exact (sqrt_pow_even_value A 6 s4 HA H4).
Qed.

Lemma sqrt_scaled (lam A B M N : Qc) :
  lam <> zero -> A <> zero ->
  (scale <- scale_sqrt (lam * A)%K ;;
   quintic_alpha_beta "normalized" (lam * A)%K (npow lam 2 * B)%K
     (npow lam 3 * M)%K (npow lam 4 * N)%K zero scale)
  = (scale <- scale_sqrt A ;;
     quintic_alpha_beta "normalized" A B M N zero scale).
Proof.
  intros Hl HA.
  assert (HA' : (lam * A)%K <> zero) by now apply mul_nonzero.
  destruct (scale_sqrt_even A HA)
    as (s0 & s1 & s2 & s3 & s4 & s5 & -> & [H0 E0] & [H2 E2] & [H4 E4]).
  destruct (scale_sqrt_even _ HA')
    as (t0 & t1 & t2 & t3 & t4 & t5 & -> & [G0 F0] & [G2 F2] & [G4 F4]).
  rewrite !bind_ret_l. closed_tail.
  rewrite !quintic_tail_closed
    by (first [reflexivity | assumption | right; repeat split; reflexivity]).
  rewrite E0, E2, E4, F0, F2, F4.
  rewrite zero_Qc in Hl, HA. coefficients.
Qed.

Lemma alpha_gamma_scaled_zero (lam A B C N : Qc) :
  lam <> zero -> A <> zero ->
  (scale <- scale_alpha_gamma (lam * A)%K zero ;;
   quintic_alpha_gamma "normalized" (lam * A)%K (npow lam 2 * B)%K
     (npow lam 3 * C)%K (npow lam 4 * N)%K zero scale)
  = (scale <- scale_alpha_gamma A zero ;;
     quintic_alpha_gamma "normalized" A B C N zero scale).
Proof.
  intros Hl HA.
  assert (HA' : (lam * A)%K <> zero) by now apply mul_nonzero.
  unfold scale_alpha_gamma.
  rewrite !(comprehension_closed _ _ _ (-14) 14)
    by (first [reflexivity | assumption | now apply npow_nonzero]).
  rewrite !bind_ret_l. cbn [map seq]. closed_tail.
  rewrite !quintic_tail_closed
    by (first [reflexivity | left; repeat split; reflexivity]).
  rewrite zero_Qc in Hl, HA. coefficients.
Qed.

Lemma eqb_scaled (k x : Qc) :
  k <> zero -> ((k * x)%K == zero)%K = (x == zero)%K.
Proof.
  intro Hk. destruct (x == zero)%K eqn:E.
  - apply eqb_eq in E. subst x. apply eqb_eq.
    cbn [mul Qc_field]. rewrite zero_Qc. ring.
  - apply eqb_false in E. apply eqb_false. now apply mul_nonzero.
Qed.

(** The case analysis on rescaled values, for [R <> 0] and for [R = 0]. *)
Lemma cases_scaled_nu (nu A B C M N R : Qc) :
  nu <> zero -> R <> zero ->
  quintic_cases "normalized"
    (mk_clebsch (npow nu 2 * A)%K (npow nu 4 * B)%K (npow nu 6 * C)%K
       (npow nu 6 * M)%K (npow nu 8 * N)%K (npow nu 9 * R)%K)
  = quintic_cases "normalized" (mk_clebsch A B C M N R).
Proof.
  intros Hnu HR. unfold quintic_cases.
  change (("normalized" =? "normalized")%string) with true. cbv iota.
  rewrite !eqb_scaled by now apply npow_nonzero.
  pose proof HR as HR'. apply eqb_false in HR'. rewrite HR'.
  eqb_case M EM.
  - eqb_case N EN; [reflexivity|].
    eqb_case A EA; [reflexivity|]. now apply alpha_gamma_scaled.
  - eqb_case A EA.
    + eqb_case B EB; [reflexivity|]. now apply RB_scaled.
    + now apply alpha_beta_scaled.
Qed.

Lemma cases_scaled_lam (lam A B C M N : Qc) :
  lam <> zero ->
  quintic_cases "normalized"
    (mk_clebsch (lam * A)%K (npow lam 2 * B)%K (npow lam 3 * C)%K
       (npow lam 3 * M)%K (npow lam 4 * N)%K zero)
  = quintic_cases "normalized" (mk_clebsch A B C M N zero).
Proof.
  intros Hl. unfold quintic_cases.
  change (("normalized" =? "normalized")%string) with true. cbv iota.
  rewrite !eqb_scaled by (first [assumption | now apply npow_nonzero]).
  rewrite (eqb_refl zero).
  eqb_case M EM.
  - eqb_case N EN; [reflexivity|].
    eqb_case A EA; [reflexivity|]. now apply alpha_gamma_scaled_zero.
  - eqb_case A EA; [reflexivity|]. now apply sqrt_scaled.
Qed.

(** Values that differ by a rescaling of weight 1, 2, 3, 3, 4 in [k], with
    [R'**2 = k**9 * R**2], give the same coefficients. *)
Lemma cases_equivalent (k a b c m n rho a' b' c' m' n' rho' : Qc) :
  k <> zero ->
  a' = (k * a)%K -> b' = (npow k 2 * b)%K -> c' = (npow k 3 * c)%K ->
  m' = (npow k 3 * m)%K -> n' = (npow k 4 * n)%K ->
  (rho' * rho')%K = (npow k 9 * (rho * rho))%K ->
  quintic_cases "normalized" (mk_clebsch a' b' c' m' n' rho')
  = quintic_cases "normalized" (mk_clebsch a b c m n rho).
Proof.
  intros Hk -> -> -> -> -> H.
  destruct (Qc_eq_dec rho zero) as [-> | Hr].
  - assert (E : rho' = zero).
    { destruct (mul_integral rho' rho') as [E | E]; [|exact E | exact E].
      rewrite H. cbn [mul Qc_field]. rewrite zero_Qc. ring. }
    subst rho'. now apply cases_scaled_lam.
  - assert (Hr' : rho' <> zero).
    { intros ->. symmetry in H. revert H.
      replace (zero * zero)%K with (zero : Qc)
        by (cbn [mul Qc_field]; rewrite zero_Qc; ring).
      apply mul_nonzero; [now apply npow_nonzero | now apply mul_nonzero]. }
    pose proof Hk as Hk0. pose proof Hr as Hr0. pose proof Hr' as Hr0'.
    rewrite zero_Qc in Hk0, Hr0, Hr0'.
    set (nu := (rho' * / (rho * npow k 4))%Qc).
    assert (Hnu : nu <> zero).
    { unfold nu. apply Qc_mult_nonzero; [exact Hr'|].
      apply Qc_inv_nonzero.
      apply Qc_mult_nonzero; [exact Hr | now apply npow_nonzero]. }
    assert (E2 : npow nu 2 = k).
    { transitivity ((rho' * rho')%K * / (rho * rho * npow k 8))%Qc.
      - unfold nu. qc_norm. field. auto.
      - rewrite H. qc_norm. field. auto. }
    assert (E4 : npow nu 4 = npow k 2) by (rewrite <- E2; qc_norm; ring).
    assert (E6 : npow nu 6 = npow k 3) by (rewrite <- E2; qc_norm; ring).
    assert (E8 : npow nu 8 = npow k 4) by (rewrite <- E2; qc_norm; ring).
    assert (E9 : (npow nu 9 * rho)%K = rho').
    { transitivity (npow k 4 * nu * rho)%K.
      - rewrite <- E8. qc_norm. ring.
      - unfold nu. qc_norm. field. auto. }
    clearbody nu. clear H.
    rewrite <- E4, <- E6, <- E8, <- E9. rewrite <- E2 at 1.
    now apply cases_scaled_nu.
Qed.

(** The derived quantities of rescaled invariants. *)
Lemma clebsch_M_scaled (k A B C : Qc) :
  clebsch_M (k * A)%K (npow k 2 * B)%K (npow k 3 * C)%K
  = (npow k 3 * clebsch_M A B C)%K.
Proof. unfold clebsch_M. qc_norm. ring. Qed.

Lemma clebsch_N_scaled (i2 k A B C : Qc) :
  clebsch_N i2 (k * A)%K (npow k 2 * B)%K (npow k 3 * C)%K
  = (npow k 4 * clebsch_N i2 A B C)%K.
Proof. unfold clebsch_N. qc_norm. ring. Qed.

Lemma clebsch_R2_scaled (i2 k A B C : Qc) :
  clebsch_R2 i2 (k * A)%K (npow k 2 * B)%K (npow k 3 * C)%K
  = (npow k 9 * clebsch_R2 i2 A B C)%K.
Proof.
  unfold clebsch_R2. cbv zeta.
  rewrite clebsch_M_scaled, clebsch_N_scaled.
  generalize (clebsch_M A B C) (clebsch_N i2 A B C). intros M N.
  qc_norm. ring.
Qed.

Lemma eqb_cancel (k x y : Qc) :
  k <> zero -> ((k * x)%K == (k * y)%K)%K = (x == y)%K.
Proof.
  intro Hk. destruct (x == y)%K eqn:E.
  - apply eqb_eq in E. subst y. apply eqb_refl.
  - apply eqb_false in E. apply eqb_false. intro H. apply E.
    rewrite zero_Qc in Hk. cbn [mul Qc_field] in H.
    transitivity (/ k * (k * x))%Qc; [field; exact Hk|].
    rewrite H. field. exact Hk.
Qed.

Lemma is_square_nonzero (r : Qc) : is_square r = false -> r <> zero.
Proof. intros H ->. discriminate H. Qed.

End NormalizedQc.

Import NormalizedQc.

(** X16.  With [scaling='normalized'] the coefficients do not depend on the
    scaling of four rational invariants: replacing [A], [B], [C] by [k*A],
    [k**2*B], [k**3*C] and [R] by any [R'] with [R'**2 = k**9 * R**2] leaves
    the result unchanged, errors included.  In particular the result does
    not depend on the sign of [R], and [nu**2*A], [nu**4*B], [nu**6*C],
    [nu**9*R] give what [A], [B], [C], [R] give. *)
Theorem normalized_four_invariants_scaling (k A B C R R' : Qc) (invariant_choice : string) :
  k <> zero -> (R' * R')%K = (npow k 9 * (R * R))%K ->
  binary_quintic_from_invariants
    [(k * A)%K; (npow k 2 * B)%K; (npow k 3 * C)%K; R']
    invariant_choice "normalized"
  = binary_quintic_from_invariants [A; B; C; R] invariant_choice "normalized".
Proof.
  intros Hk HR. unfold binary_quintic_from_invariants, quintic_prepare.
  destruct (negb (str_in invariant_choice _)); [reflexivity|].
  change (negb (str_in "normalized" ["none"; "normalized"; "coprime"]))
    with false. cbv iota.
  unfold coprime_reduction.
  change (("normalized" =? "coprime")%string) with false. cbv iota.
  rewrite !bind_ret_l, !unpack3_cons, !bind_ret_l, Qc_char.
  rewrite (ppow_inverse_small 2 Qc_char) by (simpl; tauto).
  rewrite !bind_ret_l. unfold syzygy_root.
  cbn [List.length Nat.eqb getitem nth_error]. rewrite !bind_ret_l.
  set (i2 := (inv (of_Z 2) * one)%K).
  rewrite clebsch_M_scaled, clebsch_N_scaled, clebsch_R2_scaled.
  assert (E : (npow R' 2 == npow k 9 * clebsch_R2 i2 A B C)%K
              = (npow R 2 == clebsch_R2 i2 A B C)%K).
  { rewrite <- (eqb_cancel (npow k 9) (npow R 2))
      by now apply npow_nonzero.
    f_equal. cbn [npow]. rewrite one_Qc.
    transitivity (R' * R')%K; [cbn [mul Qc_field]; ring|].
    rewrite HR. qc_norm. ring. }
  rewrite E. destruct (negb _); [reflexivity|].
  rewrite !bind_ret_l.
  now apply (cases_equivalent k).
Qed.

Lemma normalized_four_invariants_scaling_witness :
  binary_quintic_from_invariants
    [(Qc_of_Z 4 * Qc_of_Z (-8))%K; (npow (Qc_of_Z 4) 2 * Qc_of_Z (-4))%K;
     (npow (Qc_of_Z 4) 3 * Qc_of_Z 8)%K; Qc_of_Z (-40960)]
    "clebsch" "normalized"
  = binary_quintic_from_invariants (map Qc_of_Z [-8; -4; 8; 80])
      "clebsch" "normalized".
Proof.
  apply (normalized_four_invariants_scaling (Qc_of_Z 4) (Qc_of_Z (-8))
           (Qc_of_Z (-4)) (Qc_of_Z 8) (Qc_of_Z 80) (Qc_of_Z (-40960))
           "clebsch").
  - intro E. apply (f_equal this) in E. discriminate E.
  - apply Qc_ext. vm_compute. reflexivity.
Defined.

(** X17.  With [scaling='normalized'] the coefficients do not depend on the
    scaling of three rational invariants: [lam*A], [lam**2*B], [lam**3*C]
    give what [A], [B], [C] give, for every nonzero [lam], whether or not
    the two values of [R2] are squares. *)
Theorem normalized_three_invariants_scaling (lam A B C : Qc) (invariant_choice : string) :
  lam <> zero ->
  binary_quintic_from_invariants
    [(lam * A)%K; (npow lam 2 * B)%K; (npow lam 3 * C)%K]
    invariant_choice "normalized"
  = binary_quintic_from_invariants [A; B; C] invariant_choice "normalized".
Proof.
  intros Hl. unfold binary_quintic_from_invariants.
  destruct (str_in invariant_choice ["default"; "clebsch"]) eqn:H1.
  2: { unfold quintic_prepare. rewrite H1. reflexivity. }
  rewrite !(quintic_prepare_three _ _ _ _ _ H1 (or_intror eq_refl)).
  rewrite !bind_ret_l.
  set (i2 := (inv (of_Z 2) * one)%K).
  rewrite clebsch_M_scaled, clebsch_N_scaled, clebsch_R2_scaled.
  set (M := clebsch_M A B C). set (N := clebsch_N i2 A B C).
  set (r := clebsch_R2 i2 A B C).
  set (r' := (npow lam 9 * r)%K).
  assert (Er : r' = (npow lam 9 * r)%K) by reflexivity.
  pose proof Hl as Hl0. rewrite zero_Qc in Hl0.
  destruct (is_square r) eqn:Hs; destruct (is_square r') eqn:Hs'.
  - apply (cases_equivalent lam); try reflexivity; [exact Hl|].
    change ((sqrt r' * sqrt r')%K = (npow lam 9 * (sqrt r * sqrt r))%K).
    change ((Qc_sqrt r' * Qc_sqrt r')%Qc
            = (npow lam 9 * (Qc_sqrt r * Qc_sqrt r)%Qc)%K).
    now rewrite (Qc_sqrt_square r Hs), (Qc_sqrt_square r' Hs').
  - pose proof (is_square_nonzero r' Hs') as Hr'. 
    pose proof Hr' as Hr0'. rewrite zero_Qc in Hr0'.
    apply (cases_equivalent (r' * lam)%K);
      [now apply mul_nonzero | | | | | |];
      try (qc_norm; ring).
    change ((npow r' 5 * npow r' 5)%K
            = (npow (r' * lam)%K 9 * (Qc_sqrt r * Qc_sqrt r)%Qc)%K).
    rewrite (Qc_sqrt_square r Hs).
    transitivity (npow r' 9 * (npow lam 9 * r))%K;
      [rewrite <- Er|]; qc_norm; ring.
  - pose proof (is_square_nonzero r Hs) as Hr.
    pose proof Hr as Hr0. rewrite zero_Qc in Hr0.
    apply (cases_equivalent (lam * inv r)%K);
      [apply mul_nonzero; [exact Hl | now apply Qc_inv_nonzero] | | | | | |];
      try (qc_norm; field; auto).
    change ((Qc_sqrt r' * Qc_sqrt r')%Qc
            = (npow (lam * inv r)%K 9 * (npow r 5 * npow r 5))%K).
    rewrite (Qc_sqrt_square r' Hs'), Er. qc_norm. field. auto.
  - pose proof (is_square_nonzero r Hs) as Hr.
    pose proof Hr as Hr0. rewrite zero_Qc in Hr0.
    pose proof (is_square_nonzero r' Hs') as Hr'.
    pose proof Hr' as Hr0'. rewrite zero_Qc in Hr0'.
    apply (cases_equivalent (r' * lam * inv r)%K);
      [apply mul_nonzero; [now apply mul_nonzero | now apply Qc_inv_nonzero]
      | | | | | |];
      try (qc_norm; field; auto).
    transitivity (npow r' 9 * (npow lam 9 * r))%K;
      [rewrite <- Er|]; qc_norm; field; auto.
Qed.

Lemma normalized_three_invariants_scaling_witness :
  binary_quintic_from_invariants
    [(Qc_of_Z 2 * Qc_of_Z 3)%K; (npow (Qc_of_Z 2) 2 * Qc_of_Z 4)%K;
     (npow (Qc_of_Z 2) 3 * Qc_of_Z 7)%K]
    "clebsch" "normalized"
  = binary_quintic_from_invariants (map Qc_of_Z [3; 4; 7])
      "clebsch" "normalized".
Proof.
  apply (normalized_three_invariants_scaling (Qc_of_Z 2) (Qc_of_Z 3)
           (Qc_of_Z 4) (Qc_of_Z 7) "clebsch").
  intro E. apply (f_equal this) in E. discriminate E.
Defined.

(** ** Four rational invariants *)

Module FourQc.

(** The values that four invariants hand to the case analysis. *)
Lemma quintic_prepare_four_Qc (A B C R : Qc)
    (invariant_choice scaling : string) :
  str_in invariant_choice ["default"; "clebsch"] = true ->
  scaling = "none" \/ scaling = "normalized" ->
  let i2 := (inv (of_Z 2) * one)%K in
  quintic_prepare [A; B; C; R] invariant_choice scaling
  = if negb (npow R 2 == clebsch_R2 i2 A B C)%K
    then raise (ValueError syzygy_message)
    else ret (mk_clebsch A B C (clebsch_M A B C) (clebsch_N i2 A B C) R).
Proof.
  intros H1 Hs. cbv zeta.
  rewrite (quintic_prepare_recognised _ _ _ H1)
    by (destruct Hs as [-> | ->]; reflexivity).
  assert (Hred : coprime_reduction scaling [A; B; C; R] = ret [A; B; C; R])
    by (destruct Hs as [-> | ->]; reflexivity).
  rewrite Hred, bind_ret_l, unpack3_cons, bind_ret_l, Qc_char.
  rewrite (ppow_inverse_small 2 Qc_char) by (simpl; tauto).
  rewrite bind_ret_l. reflexivity.
Qed.

End FourQc.

Import FourQc.

(** X18.  Over the rationals, with [scaling] ['none'] or ['normalized'],
    four invariants that satisfy the syzygy are always reconstructed,
    except [A = B = C = 0], which raises [ValueError] on the threefold
    linear factor; four invariants that violate it raise the syzygy error.
    Nothing else can happen. *)
Theorem four_invariants_reconstructed
    (A B C R : Qc) (invariant_choice scaling : string) :
  str_in invariant_choice ["default"; "clebsch"] = true ->
  scaling = "none" \/ scaling = "normalized" ->
  let R2 := clebsch_R2 (inv (of_Z 2) * one)%K A B C in
  (npow R 2 <> R2 ->
   binary_quintic_from_invariants [A; B; C; R] invariant_choice scaling
   = raise (ValueError syzygy_message))
  /\ (npow R 2 = R2 -> A = zero /\ B = zero /\ C = zero ->
      binary_quintic_from_invariants [A; B; C; R] invariant_choice scaling
      = raise (ValueError threefold_message))
  /\ (npow R 2 = R2 -> ~ (A = zero /\ B = zero /\ C = zero) ->
      exists t,
        binary_quintic_from_invariants [A; B; C; R] invariant_choice scaling
        = ret t /\ List.length t = 6%nat).
Proof.
  intros H1 Hs. cbv zeta. unfold binary_quintic_from_invariants.
  rewrite (quintic_prepare_four_Qc A B C R _ _ H1 Hs).
  set (i2 := (inv (of_Z 2) * one)%K).
  split; [|split].
  - intro Hne. apply eqb_false in Hne. now rewrite Hne.
  - intros He Hz. rewrite (proj2 (eqb_eq _ _) He). cbn [negb].
    rewrite bind_ret_l.
    destruct (quintic_cases_total scaling
                (mk_clebsch A B C (clebsch_M A B C) (clebsch_N i2 A B C) R)
                Hs) as [(_ & _ & _ & E) | (Hn & _)]; [exact E|].
    exfalso. apply Hn. destruct Hz as (-> & -> & ->).
    cbn [cM cN cA]. repeat split; now apply Qc_ext.
  - intros He Hnz. rewrite (proj2 (eqb_eq _ _) He). cbn [negb].
    rewrite bind_ret_l.
    destruct (quintic_cases_total scaling
                (mk_clebsch A B C (clebsch_M A B C) (clebsch_N i2 A B C) R)
                Hs) as [(HM & HN & HA & _) | (_ & t & Ht)].
    + exfalso. apply Hnz. cbn [cM cN cA] in HM, HN, HA.
      destruct (clebsch_zero i2 A B C half_nonzero HM HN HA). tauto.
    + exists t. split; [exact Ht|]. exact (quintic_cases_length _ _ _ Ht).
Qed.

Lemma four_invariants_reconstructed_witness :
  binary_quintic_from_invariants (map Qc_of_Z [-8; -4; 8; 81]) "clebsch"
    "none"
  = raise (ValueError syzygy_message)
  /\ binary_quintic_from_invariants (map Qc_of_Z [0; 0; 0; 0]) "clebsch"
       "none"
     = raise (ValueError threefold_message)
  /\ exists t,
       binary_quintic_from_invariants (map Qc_of_Z [-8; -4; 8; 80])
         "clebsch" "none" = ret t /\ List.length t = 6%nat.
Proof.
  split; [|split].
  - apply (four_invariants_reconstructed (Qc_of_Z (-8)) (Qc_of_Z (-4))
             (Qc_of_Z 8) (Qc_of_Z 81) "clebsch" "none");
      [reflexivity | now left |].
    intro E. apply (f_equal this) in E. vm_compute in E. discriminate E.
  - apply (four_invariants_reconstructed (Qc_of_Z 0) (Qc_of_Z 0)
             (Qc_of_Z 0) (Qc_of_Z 0) "clebsch" "none");
      [reflexivity | now left | |].
    + apply Qc_ext. vm_compute. reflexivity.
    + repeat split; reflexivity.
  - apply (four_invariants_reconstructed (Qc_of_Z (-8)) (Qc_of_Z (-4))
             (Qc_of_Z 8) (Qc_of_Z 80) "clebsch" "none");
      [reflexivity | now left | |].
    + apply Qc_ext. vm_compute. reflexivity.
    + intros (H & _). apply (f_equal this) in H. discriminate H.
Defined.

(** X19.  The reduction under [scaling='coprime'] does not change the
    verdict of the syzygy test: for four nonzero rational invariants the
    routine raises the syzygy error exactly when the invariants supplied
    violate [R**2 = R2], although the test is made on the reduced ones. *)
Theorem coprime_keeps_syzygy_verdict
    (A B C R : Qc) (invariant_choice : string) :
  str_in invariant_choice ["default"; "clebsch"] = true ->
  A <> zero -> B <> zero -> C <> zero -> R <> zero ->
  binary_quintic_from_invariants [A; B; C; R] invariant_choice "coprime"
  = raise (ValueError syzygy_message)
  <-> npow R 2 <> clebsch_R2 (inv (of_Z 2) * one)%K A B C.
Proof.
  intros H1 HA HB HC HR.
  set (l := [A; B; C; R]). set (ws := [2; 4; 6; 9]).
  assert (Hnz : Forall (fun x : Qc => x <> zero) l)
    by (repeat constructor; assumption).
  assert (Hne : l <> []) by discriminate.
  assert (Hpos : Forall (fun w => 0 < w) ws) by (repeat constructor).
  set (s := scalar_of (prime_support (gcd_list l)) l ws one).
  assert (Hs : s <> zero).
  { apply (scalar_of_val 2 _ l ws one Z.prime_2).
    - apply prime_support_primes. now apply gcd_list_nonzero.
    - apply NoDup_prime_support.
    - apply (one_neq_zero (K := Qc)). }
  set (k := npow (inv s) 2).
  assert (Hk : k <> zero)
    by (apply npow_nonzero; now apply Qc_inv_nonzero).
  assert (Hred : coprime_reduction "coprime" l
                 = ret [(k * A)%K; (npow k 2 * B)%K; (npow k 3 * C)%K;
                        (npow (inv s) 9 * R)%K]).
  { rewrite (coprime_reduction_weights l ws eq_refl) by (now right).
    rewrite (reduce_invariants_eq l ws Hne Hnz eq_refl Hpos).
    fold s. f_equal. unfold reduced, l, ws. cbn [combine map fst snd].
    change (zpow s (Z.opp 2)) with (npow (inv s) 2).
    change (zpow s (Z.opp 4)) with (npow (inv s) 4).
    change (zpow s (Z.opp 6)) with (npow (inv s) 6).
    change (zpow s (Z.opp 9)) with (npow (inv s) 9).
    unfold k. repeat (f_equal; try (qc_norm; ring)). }
  destruct (quintic_prepare_four l invariant_choice "coprime" _ _ _ _
              H1 eq_refl Qc_char Hred) as (i2 & Hi2 & Hprep).
  rewrite (ppow_inverse_small 2 Qc_char) in Hi2 by (simpl; tauto).
  apply ret_inj in Hi2. subst i2.
  set (i2 := (inv (of_Z 2) * one)%K) in *.
  rewrite clebsch_R2_scaled in Hprep.
  assert (E : (npow (npow (inv s) 9 * R)%K 2
               == npow k 9 * clebsch_R2 i2 A B C)%K
              = (npow R 2 == clebsch_R2 i2 A B C)%K).
  { rewrite <- (eqb_cancel (npow k 9) (npow R 2))
      by now apply npow_nonzero.
    f_equal. unfold k. qc_norm. ring. }
  rewrite E in Hprep. unfold binary_quintic_from_invariants.
  fold l. rewrite Hprep.
  destruct (npow R 2 == clebsch_R2 i2 A B C)%K eqn:Ec; cbn [negb].
  - apply eqb_eq in Ec. rewrite bind_ret_l. split; [|contradiction].
    intro H. now destruct (quintic_cases_not_syzygy "coprime" _ H).
  - apply eqb_false in Ec. split; [intros _; exact Ec | reflexivity].
Qed.

Lemma coprime_keeps_syzygy_verdict_witness :
  binary_quintic_from_invariants (map Qc_of_Z [-8; -4; 8; 81]) "clebsch"
    "coprime"
  = raise (ValueError syzygy_message)
  <-> npow (Qc_of_Z 81) 2
      <> clebsch_R2 (inv (of_Z 2) * one)%K (Qc_of_Z (-8)) (Qc_of_Z (-4))
           (Qc_of_Z 8).
Proof.
  assert (nz : forall x : Qc, this x <> this zero -> x <> zero)
    by (intros x H E; apply H; now rewrite E).
  apply (coprime_keeps_syzygy_verdict (Qc_of_Z (-8)) (Qc_of_Z (-4))
           (Qc_of_Z 8) (Qc_of_Z 81) "clebsch");
    [reflexivity | | | |]; apply nz; discriminate.
Defined.

(** ** The weights of [reduce_invariants] *)

(** X20.  The list returned by [reduce_invariants] has one entry for each
    weight, and the routine only returns when there are no more weights
    than invariants: a weight without an invariant ends in an exception.
    Invariants without a weight are dropped from the result. *)
Theorem reduce_invariants_one_entry_per_weight
    (K : Type) (F : ExactField K) (invariants : list K) (weights : list Z)
    (out : list K) :
  reduce_invariants invariants weights = ret out ->
  List.length out = List.length weights
  /\ (List.length weights <= List.length invariants)%nat.
Proof.
  unfold reduce_invariants. intro H.
  apply bind_ret_inv in H as (factors & _ & H).
  apply bind_ret_inv in H as (primes & _ & H).
  apply bind_ret_inv in H as ([factors' scalar] & _ & H).
  split.
  - apply mapM_length in H. now rewrite length_seq in H.
  - destruct (Nat.le_gt_cases (List.length weights) (List.length invariants))
      as [Hle | Hgt]; [exact Hle|].
    exfalso.
    destruct (mapM_ret_inv _ _ _ H (List.length invariants)) as [y Hy].
    { apply in_seq. lia. }
    apply bind_ret_inv in Hy as (I & HI & _).
    unfold getitem in HI.
    now rewrite (proj2 (nth_error_None invariants _) (Nat.le_refl _)) in HI.
Qed.

Lemma reduce_invariants_one_entry_per_weight_witness :
  List.length [Qc_of_Z 3; Qc_of_Z 75] = List.length [1; 2]
  /\ (List.length [1; 2]
      <= List.length [frac 6 5; Qc_of_Z 12; Qc_of_Z 16])%nat.
Proof.
  apply (reduce_invariants_one_entry_per_weight Qc Qc_field
           [frac 6 5; Qc_of_Z 12; Qc_of_Z 16] [1; 2]
           [Qc_of_Z 3; Qc_of_Z 75]).
  apply fractions_ext. vm_compute. reflexivity.
Defined.

(** ** The forms of degree 2 and 3 *)

Section SmallForms.

Context {K : Type} {F : ExactField K} {L : ExactFieldLaws K}.

Lemma minus_one_nonzero : of_Z (-1) <> (zero : K).
Proof.
  intro E. apply of_Z_zero in E.
  destruct (characteristic_prime (K := K)) as [H0 | Hp].
  - rewrite H0 in E. apply Z.divide_0_l in E. discriminate E.
  - pose proof (Z.prime_ge_2 _ Hp) as H2.
    apply Z.divide_opp_r in E. cbn [Z.opp] in E.
    apply Z.divide_1_r_nonneg in E; lia.
Qed.

Lemma literal_filter_quadratic :
  filter (fun t : K * nat * nat => negb (fst (fst t) == zero)%K)
    [(of_Z 0, 2%nat, 0%nat); (of_Z 1, 1%nat, 1%nat); (of_Z 0, 0%nat, 2%nat)]
  = [(of_Z 1, 1%nat, 1%nat)].
Proof.
  cbn [filter fst].
  change (of_Z 0 : K) with (zero : K). rewrite eqb_refl.
  rewrite (proj2 (eqb_false (of_Z 1) zero) one_neq_zero). reflexivity.
Qed.

Lemma literal_filter_cubic :
  filter (fun t : K * nat * nat => negb (fst (fst t) == zero)%K)
    [(of_Z 0, 3%nat, 0%nat); (of_Z 1, 2%nat, 1%nat);
     (of_Z (-1), 1%nat, 2%nat); (of_Z 0, 0%nat, 3%nat)]
  = [(of_Z 1, 2%nat, 1%nat); (of_Z (-1), 1%nat, 2%nat)].
Proof.
  cbn [filter fst].
  change (of_Z 0 : K) with (zero : K). rewrite eqb_refl.
  rewrite (proj2 (eqb_false (of_Z 1) zero) one_neq_zero).
  rewrite (proj2 (eqb_false (of_Z (-1)) zero) minus_one_nonzero).
  reflexivity.
Qed.

End SmallForms.

(** X21.  Asked for a form, the dispatcher answers every single invariant
    of degree 2 with [x*z] and every single invariant of degree 3 with
    [x^2*z - x*z^2], the default and the ['discriminant'] choice alike:
    these are the forms of a nonzero discriminant, returned for a zero
    discriminant as well. *)
Theorem dispatcher_small_forms
    (K : Type) (F : ExactField K) (L : ExactFieldLaws K) (d : K)
    (choice : option string) :
  str_in (default_to "default" choice) ["default"; "discriminant"] = true ->
  binary_form_from_invariants 2 [d] true (mk_options choice None)
  = ret (Polynomial [(of_Z 1, 1%nat, 1%nat)])
  /\ binary_form_from_invariants 3 [d] true (mk_options choice None)
     = ret (Polynomial [(of_Z 1, 2%nat, 1%nat); (of_Z (-1), 1%nat, 2%nat)]).
Proof.
  intro Hc. unfold binary_form_from_invariants, no_scaling,
    binary_quadratic_from_invariants, binary_cubic_from_invariants.
  cbn [opt_scaling opt_invariant_choice List.length Nat.eqb Z.eqb Pos.eqb
       py_eq_zero].
  rewrite Hc. cbn [negb]. rewrite !bind_ret_l.
  split.
  - change (Z.to_nat (2 + 1)) with 3%nat. change (Z.to_nat 2) with 2%nat.
    cbn [mapM seq literal map getitem nth_error Nat.sub].
    rewrite !bind_ret_l. now rewrite literal_filter_quadratic.
  - change (Z.to_nat (3 + 1)) with 4%nat. change (Z.to_nat 3) with 3%nat.
    cbn [mapM seq literal map getitem nth_error Nat.sub].
    rewrite !bind_ret_l. now rewrite literal_filter_cubic.
Qed.

Lemma dispatcher_small_forms_witness :
  binary_form_from_invariants 2 [Qc_of_Z 0] true (mk_options None None)
  = ret (Polynomial [(of_Z 1, 1%nat, 1%nat)])
  /\ binary_form_from_invariants 3 [Qc_of_Z 0] true (mk_options None None)
     = ret (Polynomial [(of_Z 1, 2%nat, 1%nat); (of_Z (-1), 1%nat, 2%nat)]).
Proof.
  apply (dispatcher_small_forms Qc Qc_field Qc_laws (Qc_of_Z 0) None).
  reflexivity.
Defined.

(** ** Three invariants and four *)

(** X22.  Without the coprime scaling, three rational invariants give
    what four give, with the fourth one chosen by the routine: [sqrt(R2)]
    when [R2] is a square, and otherwise [R2**5] after [A], [B], [C] have
    been multiplied by [R2], [R2**2], [R2**3].  The four values pass the
    syzygy test. *)
Theorem three_invariants_as_four
    (A B C : Qc) (invariant_choice scaling : string) :
  scaling = "none" \/ scaling = "normalized" ->
  let r := clebsch_R2 (inv (of_Z 2) * one)%K A B C in
  binary_quintic_from_invariants [A; B; C] invariant_choice scaling
  = binary_quintic_from_invariants
      (if is_square r then [A; B; C; sqrt r]
       else [(r * A)%K; (npow r 2 * B)%K; (npow r 3 * C)%K; npow r 5])
      invariant_choice scaling.
Proof.
  intros Hs. cbv zeta. unfold binary_quintic_from_invariants.
  destruct (str_in invariant_choice ["default"; "clebsch"]) eqn:H1.
  2: { unfold quintic_prepare. rewrite H1. reflexivity. }
  rewrite (quintic_prepare_three A B C _ _ H1 Hs).
  set (i2 := (inv (of_Z 2) * one)%K).
  set (r := clebsch_R2 i2 A B C).
  destruct (is_square r) eqn:Hsq.
  - rewrite (quintic_prepare_four_Qc A B C (sqrt r) _ _ H1 Hs).
    fold i2. fold r.
    assert (E : (npow (sqrt r) 2 == r)%K = true).
    { apply eqb_eq. qc_norm. rewrite Qcmult_1_r.
      exact (Qc_sqrt_square r Hsq). }
    rewrite E. reflexivity.
  - rewrite (quintic_prepare_four_Qc _ _ _ _ _ _ H1 Hs).
    fold i2.
    rewrite clebsch_M_scaled, clebsch_N_scaled, clebsch_R2_scaled.
    fold r.
    assert (E : (npow (npow r 5) 2 == npow r 9 * r)%K = true).
    { apply eqb_eq. qc_norm. ring. }
    rewrite E. reflexivity.
Qed.

Lemma three_invariants_as_four_witness :
  let r := clebsch_R2 (inv (of_Z 2) * one)%K (Qc_of_Z 3) (Qc_of_Z 1)
             (Qc_of_Z 2) in
  binary_quintic_from_invariants [Qc_of_Z 3; Qc_of_Z 1; Qc_of_Z 2]
    "clebsch" "none"
  = binary_quintic_from_invariants
      (if is_square r then [Qc_of_Z 3; Qc_of_Z 1; Qc_of_Z 2; sqrt r]
       else [(r * Qc_of_Z 3)%K; (npow r 2 * Qc_of_Z 1)%K;
             (npow r 3 * Qc_of_Z 2)%K; npow r 5])
      "clebsch" "none".
Proof.
  apply (three_invariants_as_four (Qc_of_Z 3) (Qc_of_Z 1) (Qc_of_Z 2)
           "clebsch" "none"). now left.
Defined.
